(** * OgreInterface: Miller-index canonicalisation, interface stacking,
      film shifts and registration ranking

    A shallow embedding of the parts of [OgreInterface/miller.py] and
    [OgreInterface/surfaces.py] that decide the behaviour of

    - [MillerSearch._get_unique_miller_indices] (canonical representative
      of a class of equivalent planes, final ordering),
    - [Interface._stack_interface] (stacking, orientation, centring and the
      film / substrate views),
    - [Interface.shift_film] (guard, bookkeeping, aliasing of the copy),
    - [Interface._get_score_function_params] (Gaussian parameters),
    - the ranking block at the end of [Interface.run_surface_matching],
    - [MillerSearch._float_gcd], the reduction and the collapse of
      equivalent planes in [_get_unique_miller_indices],
    - [Surface._get_crystallographic_directions],
    - [Interface._get_intercept], [_get_ratio], [_get_radii],
      [_ewald_sum] and [overlap_film_sub_single], and
    - the sign correction of [IonicSurfaceMatcher.__init__]
      ([OgreInterface/surface_match.py]).

    Numbers.  Miller indices are Python/NumPy integers and are modelled by
    [Z].  Coordinates, distances and scores are NumPy doubles; they are
    modelled by exact rationals [Q]; where an operation can leave the
    finite numbers (square root of a negative number, mean of an empty
    selection, division by zero) the result is a rational or [nan]
    ([Landscape.npfloat], [option Q] in [Num]).

    Objects.  pymatgen [Structure] objects are mutable and are reached
    through references; [shift_film] is modelled over an explicit store of
    site lists so that sharing between a structure and its [copy.copy] is
    visible. *)

From Stdlib Require Import ZArith QArith Qround Qabs Lqa Lia List Sorted Permutation Bool.
From Stdlib Require Strings.String.
From stdpp Require Import base option list gmap strings.
Import ListNotations.

Local Open Scope Z_scope.

(* ===================================================================== *)
(** * Part I: Miller indices ([miller.py]) *)
(* ===================================================================== *)

Module Miller.

(** A plane is a row of the integer array [equivalent_planes]. *)
Definition plane : Type := (Z * Z * Z)%type.

Definition h_of (p : plane) : Z := fst (fst p).
Definition k_of (p : plane) : Z := snd (fst p).
Definition l_of (p : plane) : Z := snd p.

(** [np.sign(x).sum()] for one row. *)
Definition sign_sum (p : plane) : Z :=
  Z.sgn (h_of p) + Z.sgn (k_of p) + Z.sgn (l_of p).

(** [diff = np.abs(np.sum(np.sign(equivalent_planes), axis=1))], one row. *)
Definition diff (p : plane) : Z := Z.abs (sign_sum p).

(** [np.abs(a)[:, 0]] and [np.abs(a)[:, 1]], one row. *)
Definition abs_first (p : plane) : Z := Z.abs (h_of p).
Definition abs_second (p : plane) : Z := Z.abs (k_of p).

(** [np.max] of the key column of a non-empty array whose first row is [p]. *)
Definition np_max (key : plane -> Z) (p : plane) (rows : list plane) : Z :=
  fold_left (fun m q => Z.max m (key q)) rows (key p).

(** Boolean-mask selection [a[key(a) == np.max(key(a))]]; row order is kept. *)
Definition rows_at_max (key : plane -> Z) (rows : list plane) : list plane :=
  match rows with
  | [] => []
  | p :: rest =>
      let m := np_max key p rest in
      List.filter (fun q => key q =? m) rows
  end.

(** [a[np.argmax(key(a))]]: the first row at which the key is maximal. *)
Fixpoint argmax_from (key : plane -> Z) (best : plane) (rows : list plane) : plane :=
  match rows with
  | [] => best
  | q :: rest =>
      if key best <? key q then argmax_from key q rest
      else argmax_from key best rest
  end.

Definition np_argmax_row (key : plane -> Z) (rows : list plane) : option plane :=
  match rows with
  | [] => None
  | p :: rest => Some (argmax_from key p rest)
  end.

(** Body of the loop [for k in planes_dict] (miller.py, lines 186-211):
    the representative appended to [unique_planes] for one array
    [equivalent_planes].  [None] is the error NumPy raises on an empty
    array. *)
Definition select_unique_plane (equivalent_planes : list plane) : option plane :=
  match equivalent_planes with
  | [] => None
  | _ =>
    let like_signs := rows_at_max diff equivalent_planes in
    match like_signs with
    | [p] => Some p
    | _ =>
      let first_max := rows_at_max abs_first like_signs in
      match first_max with
      | [p] => Some p
      | _ =>
        let second_max := rows_at_max abs_second first_max in
        match second_max with
        | [p] => Some p
        | _ => np_argmax_row sign_sum second_max
        end
      end
    end
  end.

(** The same chain without the early exits. *)
Definition chain_unique_plane (equivalent_planes : list plane) : option plane :=
  np_argmax_row sign_sum
    (rows_at_max abs_second
       (rows_at_max abs_first
          (rows_at_max diff equivalent_planes))).

(** The tie-break chain as the specification words it: rule (i) counts the
    components whose sign is non-negative, rule (iv) takes the signed sum of
    the components. *)
Definition nonneg_count (p : plane) : Z :=
  (if 0 <=? h_of p then 1 else 0) + (if 0 <=? k_of p then 1 else 0)
  + (if 0 <=? l_of p then 1 else 0).

Definition component_sum (p : plane) : Z := h_of p + k_of p + l_of p.

Definition spec_unique_plane (equivalent_planes : list plane) : option plane :=
  np_argmax_row component_sum
    (rows_at_max abs_second
       (rows_at_max abs_first
          (rows_at_max nonneg_count equivalent_planes))).

Definition negate (p : plane) : plane := (- h_of p, - k_of p, - l_of p).

(** ** Final ordering (miller.py, lines 213-218)

    [sorted(unique_planes, key=lambda x: (np.linalg.norm(x), -np.sign(x).sum()))].
    The norm of an integer row is the square root of [norm_sq]; the square
    root is strictly increasing, so the rows are compared by [norm_sq]. *)
Definition norm_sq (p : plane) : Z :=
  h_of p * h_of p + k_of p * k_of p + l_of p * l_of p.

Definition sort_key (p : plane) : Z * Z := (norm_sq p, - sign_sum p).

(** Python's order on key tuples. *)
Definition key_leb (a b : Z * Z) : bool :=
  (fst a <? fst b) || ((fst a =? fst b) && (snd a <=? snd b)).

Definition plane_leb (p q : plane) : bool := key_leb (sort_key p) (sort_key q).

(** [sorted] is a stable sort: a row is placed before the rows of the
    already sorted suffix that do not compare below it. *)
Fixpoint insert_plane (p : plane) (sorted_rows : list plane) : list plane :=
  match sorted_rows with
  | [] => [p]
  | q :: rest =>
      if plane_leb p q then p :: q :: rest
      else q :: insert_plane p rest
  end.

Definition sorted_planes (unique_planes : list plane) : list plane :=
  fold_right insert_plane [] unique_planes.

(** The loop of lines 186-211: one representative per array of equivalent
    planes, in the order of the arrays. *)
Fixpoint collect_unique_planes (classes : list (list plane)) : option (list plane) :=
  match classes with
  | [] => Some []
  | c :: rest =>
      match select_unique_plane c, collect_unique_planes rest with
      | Some p, Some ps => Some (p :: ps)
      | _, _ => None
      end
  end.

(** Lines 213-218: [np.vstack(unique_planes)], the sort and the second
    [np.vstack].  On an empty list [np.vstack] raises a [ValueError]
    ([None]); this is what happens with [max_index = 0], where no plane is
    left once the origin is removed. *)
Definition get_unique_miller_indices (classes : list (list plane)) : option (list plane) :=
  match collect_unique_planes classes with
  | Some [] => None
  | Some ups => Some (sorted_planes ups)
  | None => None
  end.

(** The order the claim describes: ascending norm, ties by descending sum
    of signs. *)
Definition miller_order (p q : plane) : Prop :=
  norm_sq p < norm_sq q \/ (norm_sq p = norm_sq q /\ sign_sum q <= sign_sum p).

End Miller.

(* ===================================================================== *)
(** * Part II: numbers and vectors *)
(* ===================================================================== *)

Module Num.
Local Open Scope Q_scope.

(** [x < y] on doubles, as a boolean. *)
Definition Qltb (x y : Q) : bool := negb (Qle_bool y x).

(** [np.mod(x, 1)]. *)
Definition mod1 (x : Q) : Q := x - inject_Z (Qfloor x).

(** [np.rint]: round to the nearest integer, halves to the even one. *)
Definition rint (x : Q) : Z :=
  let f := Qfloor x in
  let r := x - inject_Z f in
  if Qltb r (1 # 2) then f
  else if Qltb (1 # 2) r then (f + 1)%Z
  else if Z.even f then f else (f + 1)%Z.

(** [np.round(x, 4)]. *)
Definition round4 (x : Q) : Q := inject_Z (rint (x * 10000)) / 10000.

Definition vec3 : Type := (Q * Q * Q)%type.

Definition vx (v : vec3) : Q := fst (fst v).
Definition vy (v : vec3) : Q := snd (fst v).
Definition vz (v : vec3) : Q := snd v.

Definition vadd (u v : vec3) : vec3 := (vx u + vx v, vy u + vy v, vz u + vz v).
Definition vscale (c : Q) (v : vec3) : vec3 := (c * vx v, c * vy v, c * vz v).
Definition vdot (u v : vec3) : Q := vx u * vx v + vy u * vy v + vz u * vz v.
Definition vcross (u v : vec3) : vec3 :=
  (vy u * vz v - vz u * vy v, vz u * vx v - vx u * vz v, vx u * vy v - vy u * vx v).
Definition vmod1 (v : vec3) : vec3 := (mod1 (vx v), mod1 (vy v), mod1 (vz v)).
Definition vneg (v : vec3) : vec3 := (- vx v, - vy v, - vz v).

(** [np.min] / [np.max] of a column; [None] is the [ValueError] NumPy
    raises on an empty array. *)
Definition Qmin' (x y : Q) : Q := if Qltb y x then y else x.
Definition Qmax' (x y : Q) : Q := if Qltb x y then y else x.

Definition np_min (col : list Q) : option Q :=
  match col with
  | [] => None
  | x :: rest => Some (fold_left Qmin' rest x)
  end.

Definition np_max (col : list Q) : option Q :=
  match col with
  | [] => None
  | x :: rest => Some (fold_left Qmax' rest x)
  end.

Definition Qsum (col : list Q) : Q := fold_left Qplus col 0.

(** [np.mean]; the mean of an empty selection is [nan]. *)
Definition np_mean (col : list Q) : option Q :=
  match col with
  | [] => None
  | _ => Some (Qsum col / inject_Z (Z.of_nat (length col)))
  end.

(** [a < b] where either side may be [nan]: comparisons with [nan] are
    false. *)
Definition nan_ltb (a b : option Q) : bool :=
  match a, b with
  | Some x, Some y => Qltb x y
  | _, _ => false
  end.

End Num.

(* ===================================================================== *)
(** * Part III: pymatgen structures *)
(* ===================================================================== *)

Module Pmg.
Import Num.
Local Open Scope Q_scope.

(** [Lattice]: the rows of [matrix]. *)
Record Lattice : Type := mkLattice { row_a : vec3; row_b : vec3; row_c : vec3 }.

(** The last column [matrix[:, -1]]. *)
Definition last_column (L : Lattice) : vec3 := (vz (row_a L), vz (row_b L), vz (row_c L)).

Definition det (L : Lattice) : Q := vdot (row_a L) (vcross (row_b L) (row_c L)).

(** [get_cartesian_coords(f) = f . matrix]. *)
Definition get_cartesian_coords (L : Lattice) (f : vec3) : vec3 :=
  vadd (vscale (vx f) (row_a L)) (vadd (vscale (vy f) (row_b L)) (vscale (vz f) (row_c L))).

(** [get_fractional_coords(c) = c . inv_matrix]; [np.linalg.inv] raises
    [LinAlgError] on a singular matrix ([None]). *)
Definition get_fractional_coords (L : Lattice) (c : vec3) : option vec3 :=
  if Qeq_bool (det L) 0 then None
  else Some (vdot c (vcross (row_b L) (row_c L)) / det L,
             vdot c (vcross (row_c L) (row_a L)) / det L,
             vdot c (vcross (row_a L) (row_b L)) / det L).

(** The lattices pymatgen can invert. *)
Definition nonsingular (L : Lattice) : Prop := ~ det L == 0.

(** [PeriodicSite]: the element symbol and the fractional coordinates. *)
Record PeriodicSite : Type := mkSite { species : String.string; frac_coords : vec3 }.

Definition site_z (s : PeriodicSite) : Q := vz (frac_coords s).

(** A structure as a value: lattice and the list [_sites]. *)
Record Structure : Type := mkStructure { lattice : Lattice; sites : list PeriodicSite }.

Definition num_sites (s : Structure) : nat := length (sites s).

(** [Structure(lattice, species, coords, to_unit_cell=True)] on fractional
    coordinates. *)
Definition make_structure (L : Lattice) (sp : list String.string) (coords : list vec3) : Structure :=
  mkStructure L (zip_with (fun e c => mkSite e (vmod1 c)) sp coords).

(** One step of the loop in [translate_sites(indices, vector)] with the
    defaults [frac_coords=True, to_unit_cell=True]:
    [self._sites[i].frac_coords = np.mod(site.frac_coords + vector, 1)]. *)
Definition translate_site (vector : vec3) (s : PeriodicSite) : PeriodicSite :=
  mkSite (species s) (vmod1 (vadd (frac_coords s) vector)).

Definition translate_rows (indices : list nat) (vector : vec3) (rows : list PeriodicSite)
  : list PeriodicSite :=
  fold_left (fun acc i => alter (translate_site vector) i acc) indices rows.

(** [np.where(mask)[0]] for a mask over the rows. *)
Definition np_where {A : Type} (mask : A -> bool) (rows : list A) : list nat :=
  List.filter (fun i => match rows !! i with Some r => mask r | None => false end)
              (seq 0 (length rows)).

(** [remove_sites(indices)]:
    [self._sites = [s for i, s in enumerate(self._sites) if i not in indices]]. *)
Fixpoint remove_rows_from (i : nat) (indices : list nat) (rows : list PeriodicSite)
  : list PeriodicSite :=
  match rows with
  | [] => []
  | s :: rest =>
      if existsb (Nat.eqb i) indices then remove_rows_from (S i) indices rest
      else s :: remove_rows_from (S i) indices rest
  end.

Definition remove_sites (indices : list nat) (s : Structure) : Structure :=
  mkStructure (lattice s) (remove_rows_from 0 indices (sites s)).

Definition translate_sites (indices : list nat) (vector : vec3) (s : Structure) : Structure :=
  mkStructure (lattice s) (translate_rows indices vector (sites s)).

(** ** Structures as objects

    A [Structure] object holds a reference to its list [_sites]; the list
    and the sites in it are mutated in place by [translate_sites].  The
    store maps the address of a site list to its current contents. *)
Definition loc : Type := positive.

Record StructureRef : Type := mkRef { ref_lattice : Lattice; ref_sites : loc }.

(** [copy.copy(structure)]: a new object whose attributes are the
    attributes of the original; in particular the same [_sites] list. *)
Definition copy_copy (s : StructureRef) : StructureRef :=
  mkRef (ref_lattice s) (ref_sites s).

(** The rows currently held by an object. *)
Definition rows_of (sigma : gmap loc (list PeriodicSite)) (s : StructureRef) : list PeriodicSite :=
  default [] (sigma !! ref_sites s).

(** [structure.frac_coords]. *)
Definition frac_coords_of (sigma : gmap loc (list PeriodicSite)) (s : StructureRef) : list vec3 :=
  map frac_coords (rows_of sigma s).

(** [structure.translate_sites(indices, vector)] on an object: the rows
    behind the reference are updated in place. *)
Definition translate_sites_at (s : StructureRef) (indices : list nat) (vector : vec3)
  (sigma : gmap loc (list PeriodicSite)) : gmap loc (list PeriodicSite) :=
  alter (translate_rows indices vector) (ref_sites s) sigma.

End Pmg.

(* ===================================================================== *)
(** * Part IV: [Interface] ([surfaces.py]) *)
(* ===================================================================== *)

Module Surfaces.
Import Num Pmg.
Local Open Scope Q_scope.

Definition scale_z (c : Q) (v : vec3) : vec3 := (vx v, vy v, vz v * c).
Definition shift_z (d : Q) (v : vec3) : vec3 := (vx v, vy v, vz v + d).

(** [_get_unique_species], on the arrays [np.unique(bulk.species)] of the
    two bulks. *)
Definition get_unique_species (substrate_species film_species : list String.string)
  : list String.string * list String.string * list String.string :=
  (substrate_species, film_species,
   List.filter (fun s => existsb (String.eqb s) film_species) substrate_species).

(** [np.delete(a, np.where(a == i))] for every [i] of [species_in_both]. *)
Definition delete_shared (species_in_both a : list String.string) : list String.string :=
  List.filter (fun s => negb (existsb (String.eqb s) species_in_both)) a.

(** [_flip_structure]: the half turn about the axis [[1,1,0]] through
    [[0.5,0.5,0.5]], applied to fractional coordinates. *)
Definition flip_site (s : PeriodicSite) : PeriodicSite :=
  let c := frac_coords s in mkSite (species s) (vy c, vx c, 1 - vz c).

Definition flip_structure (s : Structure) : Structure :=
  mkStructure (lattice s) (map flip_site (sites s)).

(** Lines 562-571: the two views.  Each view is a deep copy of the
    interface from which the sites selected for the other side are
    removed. *)
Definition film_sites (h : Q) (s : Structure) : list nat :=
  np_where (fun x => Qltb h (site_z x)) (sites s).

Definition sub_sites (h : Q) (s : Structure) : list nat :=
  np_where (fun x => Qltb (site_z x) h) (sites s).

Definition primitive_film (h : Q) (s : Structure) : Structure :=
  remove_sites (sub_sites h s) s.

Definition primitive_sub (h : Q) (s : Structure) : Structure :=
  remove_sites (film_sites h s) s.

(** Lines 555-560. *)
Definition recenter (center : bool) (h : Q) (s : Structure) : Structure * Q :=
  if center
  then (translate_sites (seq 0 (num_sites s)) (0, 0, (1 # 2) - h) s, 1 # 2)
  else (s, h).

(** What [_stack_interface] returns, with the value it leaves in
    [self.interface_height]. *)
Record Stacked : Type := mkStacked {
  st_interface : Structure;
  st_sub_part : Structure;
  st_film_part : Structure;
  st_interface_height : Q
}.

Section StackInterface.

(** Services of NumPy and pymatgen that the method calls. *)
Variable norm : vec3 -> Q.
Variable get_reduced_structure : Structure -> Structure.
Variable get_conventional_standard_structure : Structure -> Structure.
Variable get_primitive_structure : Structure -> Structure.

(** Lines 473-521: the stacked structure and [interface_height].  [None]
    is the error of [np.min] on a slab without sites. *)
Definition stacked_structure (strained_sub strained_film : Structure)
  (vacuum interfacial_distance : Q) : option (Structure * Q) :=
  let strained_sub_coords := map frac_coords (sites strained_sub) in
  let strained_film_coords := map frac_coords (sites strained_film) in
  min_sub_coords ← np_min (map vz strained_sub_coords);
  max_sub_coords ← np_max (map vz strained_sub_coords);
  min_film_coords ← np_min (map vz strained_film_coords);
  max_film_coords ← np_max (map vz strained_film_coords);
  let sub_c_len := norm (row_c (lattice strained_sub)) in
  let film_c_len := norm (row_c (lattice strained_film)) in
  let interface_c_len :=
    (max_sub_coords - min_sub_coords) * sub_c_len
    + (max_film_coords - min_film_coords) * film_c_len
    + vacuum + interfacial_distance in
  let sub_conv_factor := sub_c_len / interface_c_len in
  let film_conv_factor := film_c_len / interface_c_len in
  let sub1 := map (scale_z sub_conv_factor) strained_sub_coords in
  let film1 := map (scale_z film_conv_factor) strained_film_coords in
  max_sub1 ← np_max (map vz sub1);
  min_sub1 ← np_min (map vz sub1);
  let sub_size := max_sub1 - min_sub1 in
  let sub2 := map (shift_z (- min_sub1)) sub1 in
  min_film1 ← np_min (map vz film1);
  let film2 := map (shift_z (- min_film1)) film1 in
  let film3 := map (shift_z (sub_size + interfacial_distance / interface_c_len)) film2 in
  let interface_coords := sub2 ++ film3 in
  let interface_species :=
    map species (sites strained_sub) ++ map species (sites strained_film) in
  let interface_height := sub_size + ((1 # 2) * interfacial_distance) / interface_c_len in
  let col := last_column (lattice strained_sub) in
  let interface_lattice :=
    mkLattice (row_a (lattice strained_sub)) (row_b (lattice strained_sub))
              (vscale (interface_c_len / norm col) col) in
  Some (make_structure interface_lattice interface_species interface_coords,
        interface_height).

(** Lines 523-527. *)
Definition refine (interface_struc : Structure) : Structure :=
  let reduced_interface_struc := get_reduced_structure interface_struc in
  let refined_interface_struc :=
    get_conventional_standard_structure reduced_interface_struc in
  get_primitive_structure (get_reduced_structure refined_interface_struc).

(** Lines 531-553: film above substrate. *)
Definition orient (substrate_species film_species : list String.string)
  (primitive_interface_struc : Structure) : Structure :=
  let '(sub_sp, film_sp, species_in_both) :=
    get_unique_species substrate_species film_species in
  let sub_sp := delete_shared species_in_both sub_sp in
  let film_sp := delete_shared species_in_both film_sp in
  let heights_of sp :=
    map site_z
      (List.filter (fun x => existsb (String.eqb (species x)) sp)
                   (sites primitive_interface_struc)) in
  let average_sub_height_prim := np_mean (heights_of sub_sp) in
  let average_film_height_prim := np_mean (heights_of film_sp) in
  if nan_ltb average_film_height_prim average_sub_height_prim
  then flip_structure primitive_interface_struc
  else primitive_interface_struc.

(** [_stack_interface]. *)
Definition stack_interface (strained_sub strained_film : Structure)
  (substrate_species film_species : list String.string)
  (vacuum interfacial_distance : Q) (center : bool) : option Stacked :=
  '(interface_struc, h0) ←
     stacked_structure strained_sub strained_film vacuum interfacial_distance;
  let oriented := orient substrate_species film_species (refine interface_struc) in
  let '(primitive_interface_struc, h) := recenter center h0 oriented in
  Some (mkStacked primitive_interface_struc
                  (primitive_sub h primitive_interface_struc)
                  (primitive_film h primitive_interface_struc)
                  h).

End StackInterface.

(** ** The [Interface] object and [shift_film] *)

(** The attributes of [Interface] that [shift_film] reads or writes. *)
Record Interface : Type := mkInterface {
  interface : StructureRef;
  sub_part : StructureRef;
  film_part : StructureRef;
  interface_height : Q;
  interfacial_distance : Q
}.

(** [Interface.__init__], last line: the three structures returned by
    [_stack_interface] are three separate objects. *)
Definition new_interface (s : Stacked) (interfacial_distance : Q)
  : Interface * gmap loc (list PeriodicSite) :=
  (mkInterface (mkRef (lattice (st_interface s)) 1%positive)
               (mkRef (lattice (st_sub_part s)) 2%positive)
               (mkRef (lattice (st_film_part s)) 3%positive)
               (st_interface_height s) interfacial_distance,
   <[1%positive := sites (st_interface s)]>
     (<[2%positive := sites (st_sub_part s)]>
        (<[3%positive := sites (st_film_part s)]> ∅))).

Inductive exn : Type := ValueError | LinAlgError.

Inductive outcome (A : Type) : Type :=
  | Returned (a : A)
  | Raised (e : exn).
Arguments Returned {A} a.
Arguments Raised {A} e.

(** The state a call leaves behind: the attributes of the object and the
    store. *)
Record Result : Type := mkResult {
  res_outcome : outcome (option StructureRef);
  res_self : Interface;
  res_store : gmap loc (list PeriodicSite)
}.

(** Lines 273-281: the fractional shift, or the exception. *)
Definition frac_shift_of (self : Interface) (shift : vec3) (fractional : bool)
  : outcome vec3 :=
  if fractional then Returned shift
  else if Qltb (vz shift + interfacial_distance self) (1 # 2) then Raised ValueError
  else match get_fractional_coords (ref_lattice (interface self)) shift with
       | Some f => Returned f
       | None => Raised LinAlgError
       end.

(** Line 283: the mask
    [(frac_coords[:,-1] > interface_height) & (frac_coords[:,-1] < 0.99)]
    and the indices it selects. *)
Definition film_mask (self : Interface) (x : PeriodicSite) : bool :=
  Qltb (interface_height self) (site_z x) && Qltb (site_z x) (99 # 100).

Definition film_ind (self : Interface) (sigma : gmap loc (list PeriodicSite)) : list nat :=
  np_where (film_mask self) (rows_of sigma (interface self)).

(** [shift_film(shift, fractional, inplace)]. *)
Definition shift_film (shift : vec3) (fractional inplace : bool)
  (self : Interface) (sigma : gmap loc (list PeriodicSite)) : Result :=
  match frac_shift_of self shift fractional with
  | Raised e => mkResult (Raised e) self sigma
  | Returned frac_shift =>
      let ind := film_ind self sigma in
      if inplace then
        let sigma1 := translate_sites_at (interface self) ind frac_shift sigma in
        let all_film := seq 0 (length (rows_of sigma1 (film_part self))) in
        let sigma2 := translate_sites_at (film_part self) all_film frac_shift sigma1 in
        mkResult (Returned None)
                 (mkInterface (interface self) (sub_part self) (film_part self)
                              (interface_height self + vz frac_shift / 2)
                              (interfacial_distance self + vz shift))
                 sigma2
      else
        let shifted_interface := copy_copy (interface self) in
        let sigma1 := translate_sites_at shifted_interface ind frac_shift sigma in
        mkResult (Returned (Some shifted_interface)) self sigma1
  end.

Definition raised (r : Result) : bool :=
  match res_outcome r with Raised _ => true | Returned _ => false end.

End Surfaces.

(* ===================================================================== *)
(** * Part V: the registration landscape and its ranking ([surfaces.py]) *)
(* ===================================================================== *)

Module Landscape.
Import Num Pmg.
Local Open Scope Q_scope.

(** A double that may be [nan]. *)
Inductive npfloat : Type :=
  | Fin (q : Q)
  | NaN.

Definition nf_map (f : Q -> Q) (x : npfloat) : npfloat :=
  match x with Fin q => Fin (f q) | NaN => NaN end.

Definition nf_map2 (f : Q -> Q -> Q) (x y : npfloat) : npfloat :=
  match x, y with Fin a, Fin b => Fin (f a b) | _, _ => NaN end.

(** Division of doubles.  A zero divisor gives [nan] or an infinity in
    NumPy; both are rendered by [NaN]. *)
Definition nf_div (x y : npfloat) : npfloat :=
  match x, y with
  | Fin a, Fin b => if Qeq_bool b 0 then NaN else Fin (a / b)
  | _, _ => NaN
  end.

(** [a.max()]: [nan] if any entry is [nan]. *)
Definition nf_max2 (x y : npfloat) : npfloat :=
  match x, y with Fin a, Fin b => Fin (Qmax' a b) | _, _ => NaN end.

Definition nf_max (col : list npfloat) : option npfloat :=
  match col with
  | [] => None
  | x :: rest => Some (fold_left nf_max2 rest x)
  end.

(** The wrap of lines 808-811: [s[s < 0] += 1; s[s > 1] -= 1]. *)
Definition wrap01 (s : Q) : Q :=
  let s1 := if Qltb s 0 then s + 1 else s in
  if Qltb 1 s1 then s1 - 1 else s1.

(** The nine periodic images, in the order of the two [np.concatenate]. *)
Definition image_offsets : list (Q * Q) :=
  [(-1, -1); (-1, 0); (-1, 1); (0, -1); (0, 0); (0, 1); (1, -1); (1, 0); (1, 1)].

(** One row of the arrays built for a substrate index and a film index. *)
Record pair_row : Type := mkPair {
  pr_shift : vec3;
  pr_r1 : Q;
  pr_r2 : Q
}.

(** Parameters of one Gaussian. *)
Record gaussian : Type := mkGaussian {
  mu : Q * Q;
  sigma : npfloat;
  scale : npfloat
}.

(** [d > r1 + r2] for one row, [d] being the vertical cartesian
    separation. *)
Definition out_of_contact (M : Lattice) (p : pair_row) : Prop :=
  pr_r1 p + pr_r2 p < Qabs (vz (get_cartesian_coords M (pr_shift p))).

Section ScoreFunction.

(** [np.sqrt] on the non-negative doubles, [np.pi] and [np.exp]. *)
Variable sqrt_nonneg : Q -> Q.
Variable pi : Q.
Variable exp : Q -> Q.

(** [np.sqrt]: [nan] below zero. *)
Definition np_sqrt (x : Q) : npfloat :=
  if Qltb x 0 then NaN else Fin (sqrt_nonneg x).

(** Lines 792-811 for one pair [(s, f)] of [np.repeat(si, len(fi))] and
    [np.tile(fi, len(si))]; [None] is an index outside the arrays. *)
Definition pair_of (coords : list vec3) (r : list Q) (sub_z_shift film_z_shift : Q)
  (sf : nat * nat) : option pair_row :=
  c1 ← coords !! fst sf;
  c2 ← coords !! snd sf;
  r1 ← r !! fst sf;
  r2 ← r !! snd sf;
  Some (mkPair (wrap01 (vx c1 - vx c2), wrap01 (vy c1 - vy c2),
                (vz c1 + sub_z_shift) - (vz c2 + film_z_shift))
               r1 r2).

Definition index_pairs (si fi : list nat) : list (nat * nat) :=
  s ← si; f ← fi; [(s, f)].

(** Lines 813-837: the rows of the nine images, image by image. *)
Definition image_rows (pairs : list pair_row) : list pair_row :=
  off ← image_offsets;
  (fun p => mkPair (vx (pr_shift p) + fst off, vy (pr_shift p) + snd off, vz (pr_shift p))
                   (pr_r1 p) (pr_r2 p)) <$> pairs.

(** Lines 839-841 for one row. *)
Definition overlap_r (M : Lattice) (p : pair_row) : npfloat :=
  let cart := get_cartesian_coords M (pr_shift p) in
  np_sqrt ((pr_r1 p + pr_r2 p) ^ 2 - vz cart ^ 2).

Definition mu_of (M : Lattice) (p : pair_row) : Q * Q :=
  let cart := get_cartesian_coords M (pr_shift p) in (vx cart, vy cart).

(** Lines 843-846 over the rows: [sigmas = overlap_r / 3],
    [scales = (4/3) * np.pi * overlap_r**3], [scales /= scales.max()]. *)
Definition raw_scale (o : npfloat) : npfloat :=
  nf_map (fun x => (4 # 3) * pi * x ^ 3) o.

Definition params_of_rows (M : Lattice) (rows : list pair_row) : option (list gaussian) :=
  let scales := map (fun p => raw_scale (overlap_r M p)) rows in
  m ← nf_max scales;
  Some (map (fun p => mkGaussian (mu_of M p)
                                 (nf_map (fun x => x / 3) (overlap_r M p))
                                 (nf_div (raw_scale (overlap_r M p)) m))
            rows).

(** [_get_score_function_params(si, fi, r, sub_z_shift, film_z_shift)]. *)
Definition get_score_function_params (coords : list vec3) (M : Lattice)
  (si fi : list nat) (r : list Q) (sub_z_shift film_z_shift : Q) : option (list gaussian) :=
  pairs ← mapM (pair_of coords r sub_z_shift film_z_shift) (index_pairs si fi);
  params_of_rows M (image_rows pairs).

(** The sphere-sphere overlap volume of lines 915-921, with
    [np.divide(..., out=zeros, where=(d != 0))]. *)
Definition lens_volume (r1 r2 d : Q) : Q :=
  if Qeq_bool d 0 then 0
  else (pi * (r1 + r2 - d) ^ 2
        * (d ^ 2 + 2 * d * r1 + 2 * d * r2 + 6 * r1 * r2 - 3 * r1 ^ 2 - 3 * r2 ^ 2))
       / (12 * d).

(** Lines 908-933 for one row of [_get_score_function_params_old]:
    [scales = volume / max_pes] with [max_pes = 1 / (2 * np.pi * sigmas**2)]. *)
Definition old_gaussian (M : Lattice) (p : pair_row) : gaussian :=
  let cart := get_cartesian_coords M (pr_shift p) in
  let sigmas := nf_map (fun x => x / 3) (overlap_r M p) in
  let d := Qabs (vz cart) in
  let max_pes := nf_div (Fin 1) (nf_map (fun s => 2 * pi * s ^ 2) sigmas) in
  mkGaussian (mu_of M p) sigmas
             (nf_div (Fin (lens_volume (pr_r1 p) (pr_r2 p) d)) max_pes).

Definition get_score_function_params_old (coords : list vec3) (M : Lattice)
  (si fi : list nat) (r : list Q) (sub_z_shift film_z_shift : Q) : option (list gaussian) :=
  pairs ← mapM (pair_of coords r sub_z_shift film_z_shift) (index_pairs si fi);
  Some (map (old_gaussian M) (image_rows pairs)).

(** One row of the array returned by [_generate_PES] at the point [(x, y)]:
    the value the Gaussian adds to the landscape there. *)
Definition generate_PES_row (x y : Q) (g : gaussian) : npfloat :=
  let e := nf_map (fun s => exp (- ((x - fst (mu g)) ^ 2 + (y - snd (mu g)) ^ 2)
                                  / (2 * s ^ 2))) (sigma g) in
  let pref := nf_div (Fin 1) (nf_map (fun s => 2 * pi * s ^ 2) (sigma g)) in
  nf_map2 Qmult (nf_map2 Qmult (scale g) pref) e.

(** [overlap_film_sub_single] at one grid point: here a pair out of
    contact is set to zero ([d[d - r1 - r2 > 0] = 0] and the guarded
    [np.divide]). *)
Definition overlap_film_sub_single_at (d r1 r2 : Q) : Q :=
  let d1 := if Qle_bool d (Qabs (r1 - r2)) then Qabs (r1 - r2) else d in
  let d2 := if Qltb 0 (d1 - r1 - r2) then 0 else d1 in
  lens_volume r1 r2 d2.

End ScoreFunction.

(** ** The ranking block of [run_surface_matching] (lines 1612-1625) *)

(** Row [i] of the parallel arrays [all_centers_orig], [PES_values_orig],
    [PES_values_sub] and [PES_values_film]. *)
Record basin : Type := mkBasin {
  center : Q * Q;
  PES_orig : Q;
  PES_sub : Q;
  PES_film : Q
}.

Definition rank_1 (b : basin) : Q := round4 (PES_orig b).
Definition rank_2 (b : basin) : Q := round4 (PES_orig b + PES_sub b + PES_film b).

(** [np.linalg.norm(c)] is the square root of [dist_sq c]; the rows are
    compared by [dist_sq]. *)
Definition dist_sq (b : basin) : Q := fst (center b) ^ 2 + snd (center b) ^ 2.

(** [np.unique]: the sorted distinct values. *)
Fixpoint insert_unique (x : Q) (sorted_vals : list Q) : list Q :=
  match sorted_vals with
  | [] => [x]
  | y :: rest =>
      if Qltb x y then x :: y :: rest
      else if Qeq_bool x y then y :: rest
      else y :: insert_unique x rest
  end.

Definition np_unique (vals : list Q) : list Q := fold_right insert_unique [] vals.

(** [np.argmin] / [np.argmax]: the first index of the extremum. *)
Fixpoint argmin_from (best_i : nat) (best : Q) (i : nat) (vals : list Q) : nat :=
  match vals with
  | [] => best_i
  | x :: rest =>
      if Qltb x best then argmin_from i x (S i) rest
      else argmin_from best_i best (S i) rest
  end.

Definition np_argmin (vals : list Q) : option nat :=
  match vals with
  | [] => None
  | x :: rest => Some (argmin_from 0 x 1 rest)
  end.

Fixpoint argmax_from (best_i : nat) (best : Q) (i : nat) (vals : list Q) : nat :=
  match vals with
  | [] => best_i
  | x :: rest =>
      if Qltb best x then argmax_from i x (S i) rest
      else argmax_from best_i best (S i) rest
  end.

Definition np_argmax (vals : list Q) : option nat :=
  match vals with
  | [] => None
  | x :: rest => Some (argmax_from 0 x 1 rest)
  end.

(** [a[idx]] for a list of indices. *)
Definition take_rows {A : Type} (a : list A) (idx : list nat) : option (list A) :=
  mapM (fun i => a !! i) idx.

(** Lines 1612-1618: the rows whose rounded primary value is the least. *)
Definition degenerate_min_rows (basins : list basin) : option (list basin) :=
  u ← head (np_unique (map rank_1 basins));
  Some (List.filter (fun b => Qeq_bool (rank_1 b) u) basins).

(** Line 1622 for one group [u] of indices. *)
Definition nearest_in_group (min_centers : list basin) (u : list nat) : option nat :=
  rows ← take_rows min_centers u;
  j ← np_argmin (map dist_sq rows);
  u !! j.

(** Lines 1612-1625: the row [min_center_orig] that the method returns. *)
Definition min_center_orig (basins : list basin) : option basin :=
  min_centers ← degenerate_min_rows basins;
  let PES_rank_values_2 := map rank_2 min_centers in
  let unique_PES_values_2 := np_unique PES_rank_values_2 in
  let unique_inds :=
    map (fun u => np_where (fun b => Qeq_bool (rank_2 b) u) min_centers)
        unique_PES_values_2 in
  unique_shift_inds ← mapM (nearest_in_group min_centers) unique_inds;
  picked ← take_rows PES_rank_values_2 unique_shift_inds;
  j ← np_argmax picked;
  min_shift_inds ← unique_shift_inds !! j;
  min_centers !! min_shift_inds.

(** What line 1622 asks of the index [i] chosen in a group [g] of row
    indices: a row of the group that is nearest to the origin. *)
Definition nearest_ok (mc : list basin) (g : list nat) (i : nat) : Prop :=
  In i g
  /\ exists r, mc !! i = Some r
               /\ forall k b, In k g -> mc !! k = Some b -> dist_sq r <= dist_sq b.

(** The order of the claim: rounded primary value, then rounded sum, then
    distance to the origin, all ascending. *)
Definition ranks_below (a b : basin) : Prop :=
  rank_1 a < rank_1 b
  \/ (rank_1 a == rank_1 b /\ rank_2 a < rank_2 b)
  \/ (rank_1 a == rank_1 b /\ rank_2 a == rank_2 b /\ dist_sq a < dist_sq b).

End Landscape.

(* ===================================================================== *)
(** * Concrete inputs used in the evaluations below *)
(* ===================================================================== *)

Module Examples.
Import Num Pmg Surfaces Landscape.
Import String.StringSyntax.
Local Open Scope Q_scope.
Local Open Scope string_scope.

(** A cubic cell of edge 1 and a cell 10 units high. *)
Definition unit_lattice : Lattice := mkLattice (1, 0, 0) (0, 1, 0) (0, 0, 1).
Definition tall_lattice : Lattice := mkLattice (1, 0, 0) (0, 1, 0) (0, 0, 10).

Definition si_site : PeriodicSite := mkSite "Si" (0, 0, 1 # 5).
Definition al_site : PeriodicSite := mkSite "Al" (0, 0, 7 # 10).

(** A finalized interface of two sites: silicon below [interface_height]
    [= 1/2], aluminium above. *)
Definition two_site_stack : Stacked :=
  mkStacked (mkStructure unit_lattice [si_site; al_site])
            (mkStructure unit_lattice [si_site])
            (mkStructure unit_lattice [al_site])
            (1 # 2).

(** The object built from it with [interfacial_distance = 2]. *)
Definition self_2 : Interface := fst (new_interface two_site_stack 2).
Definition store_2 : gmap loc (list PeriodicSite) := snd (new_interface two_site_stack 2).

(** The same with [interfacial_distance = 0.3]. *)
Definition self_03 : Interface := fst (new_interface two_site_stack (3 # 10)).

(** A structure with a site exactly at the height [1/2]. *)
Definition mid_site : PeriodicSite := mkSite "O" (0, 0, 1 # 2).
Definition boundary_structure : Structure :=
  mkStructure unit_lattice [si_site; mid_site; al_site].

(** A substrate atom and a film atom of radius 1, three units apart
    vertically. *)
Definition far_coords : list vec3 := [(0, 0, 1 # 5); (0, 0, 1 # 2)].
Definition far_radii : list Q := [1; 1].

(** Two basins with the same primary value and different sums. *)
Definition basin_low : basin := mkBasin (1, 0) (1 # 2) (1 # 10) 0.
Definition basin_high : basin := mkBasin (2, 0) (1 # 2) (3 # 10) 0.

End Examples.

(* ===================================================================== *)
(** * Further code of [miller.py]: plane reduction and class collapsing *)
(* ===================================================================== *)

Module MillerReduce.
Import Miller Num.
Local Open Scope Z_scope.

(** The defaults [rtol=1e-05] and [atol=1e-08] of [_float_gcd]. *)
Definition rtol : Q := 1 # 100000.
Definition atol : Q := 1 # 100000000.

(** The loop test [abs(b) > rtol * t + atol]. *)
Definition above_tolerance (b t : Z) : bool :=
  Qltb (rtol * inject_Z t + atol)%Q (inject_Z (Z.abs b)).

(** The loop [while abs(b) > rtol * t + atol: a, b = b, a % b] on Python
    integers, [return a]; [None] stands for a loop that has not ended
    within [fuel] turns. *)
Fixpoint float_gcd_loop (fuel : nat) (t a b : Z) : option Z :=
  match fuel with
  | O => None
  | S fuel' =>
      if above_tolerance b t then float_gcd_loop fuel' t b (a mod b)
      else Some a
  end.

(** [_float_gcd(a, b)]: [t = min(abs(a), abs(b))], then the loop. *)
Definition float_gcd (a b : Z) : option Z :=
  float_gcd_loop (S (Z.to_nat (Z.abs b))) (Z.min (Z.abs a) (Z.abs b)) a b.

(** [reduce(self._float_gcd, plane)] for a triple. *)
Definition reduce_float_gcd (p : plane) : option Z :=
  g ← float_gcd (h_of p) (k_of p);
  float_gcd g (l_of p).

(** Lines 159-160: [gcd = np.abs(reduce(...))] and
    [tuple((plane / gcd).astype(int))].  The cast truncates towards zero.
    With [gcd = 0] NumPy divides by zero and the cast has no meaning
    ([None]). *)
Definition reduced_plane (p : plane) : option plane :=
  g ← reduce_float_gcd p;
  let gcd := Z.abs g in
  if gcd =? 0 then None
  else Some (Z.quot (h_of p) gcd, Z.quot (k_of p) gcd, Z.quot (l_of p) gcd).

(** [range(-max_index, max_index + 1)]. *)
Definition index_range (max_index : Z) : list Z :=
  map (fun i => Z.of_nat i - max_index) (seq 0 (Z.to_nat (2 * max_index + 1))).

(** Lines 154-155: the triples of [product(range(...), repeat=3)] without
    the origin. *)
Definition all_planes (max_index : Z) : list plane :=
  List.filter (fun p => negb ((h_of p =? 0) && (k_of p =? 0) && (l_of p =? 0)))
    (h ← index_range max_index;
     k ← index_range max_index;
     l ← index_range max_index;
     [(h, k, l)]).

(** The greatest common divisor of the three components. *)
Definition gcd3 (p : plane) : Z := Z.gcd (Z.gcd (h_of p) (k_of p)) (l_of p).

Section Collapse.

(** The reduced images [point_out] of a plane under the point-group
    operations, in the order of [symmops] (lines 168-178). *)
Variable images : plane -> list plane.

(** Lines 179-182 for one image. *)
Definition record_image (pl : plane) (d : gmap plane (list plane)) (point_out : plane)
  : gmap plane (list plane) :=
  let d1 := alter (fun l => l ++ [point_out]) pl d in
  if decide (point_out = pl) then d1
  else if decide (is_Some (d1 !! point_out)) then delete point_out d1
  else d1.

(** Lines 167-182 for one plane of [reduced_planes]. *)
Definition visit_plane (d : gmap plane (list plane)) (pl : plane)
  : gmap plane (list plane) :=
  if decide (is_Some (d !! pl)) then fold_left (record_image pl) (images pl) d
  else d.

(** Line 165: [{p: [] for p in reduced_planes}]. *)
Definition initial_dict (reduced_planes : list plane) : gmap plane (list plane) :=
  list_to_map (map (fun p => (p, [])) reduced_planes).

(** [planes_dict] after the loop of lines 167-182. *)
Definition planes_dict (reduced_planes : list plane) : gmap plane (list plane) :=
  fold_left visit_plane reduced_planes (initial_dict reduced_planes).

End Collapse.

Section Classes.

Variable images : plane -> list plane.

(** [list(set(l))]: the rows of [l] in the iteration order of the Python
    set built from them, an order given by the hashes of the rows. *)
Variable list_of_set : list plane -> list plane.

(** The arrays [equivalent_planes] of line 187,
    [np.array(list(set(planes_dict[k])))], for the keys left in
    [planes_dict], in the order of their insertion. *)
Definition equivalent_classes (reduced_planes : list plane) : list (list plane) :=
  omap (fun p => list_of_set <$> planes_dict images reduced_planes !! p) reduced_planes.

End Classes.

End MillerReduce.

(* ===================================================================== *)
(** * Further code of [surfaces.py] *)
(* ===================================================================== *)

Module SurfaceBasis.
Import Num Pmg.
Local Open Scope Z_scope.

Definition zvec : Type := (Z * Z * Z)%type.

Definition zdot (u v : zvec) : Z :=
  fst (fst u) * fst (fst v) + snd (fst u) * snd (fst v) + snd u * snd v.

(** The determinant of the matrix of rows [c1], [c2], [c3]. *)
Definition zdet (c1 c2 c3 : zvec) : Z :=
  let '(a, b, c) := c1 in
  let '(d, e, f) := c2 in
  let '(g, h, i) := c3 in
  a * (e * i - f * h) - b * (d * i - f * g) + c * (d * h - e * g).

Definition qvec (k : Z) (v : vec3) : vec3 := vscale (inject_Z k) v.
Definition vsub (u v : vec3) : vec3 := vadd u (vneg v).

(** [tol=1e-10]. *)
Definition tol : Q := 1 # 10000000000.

Section Directions.

(** [ase.build.general_surface.ext_gcd]. *)
Variable ext_gcd : Z -> Z -> Z * Z.

(** [Surface._get_crystallographic_directions] for the Miller index
    [(h, k, l)] and the rows [a1, a2, a3] of [self.bulk_ase.cell]; [None]
    is the [ValueError] of line 192. *)
Definition get_crystallographic_directions (cell : Lattice) (indices : zvec)
  : option (zvec * zvec * zvec) :=
  let '(h, k, l) := indices in
  let h0 := h =? 0 in
  let k0 := k =? 0 in
  let l0 := l =? 0 in
  if h0 && k0 && l0 then None
  else if (h0 && k0) || (h0 && l0) || (k0 && l0) then
    let c : option (zvec * zvec * zvec) := None in
    let c := if negb h0 then Some ((0, 1, 0), (0, 0, 1), (1, 0, 0)) else c in
    let c := if negb k0 then Some ((0, 0, 1), (1, 0, 0), (0, 1, 0)) else c in
    let c := if negb l0 then Some ((1, 0, 0), (0, 1, 0), (0, 0, 1)) else c in
    c
  else
    let '(p, q) := ext_gcd k l in
    let a1 := row_a cell in
    let a2 := row_b cell in
    let a3 := row_c cell in
    let u := vsub (qvec k a1) (qvec h a2) in
    let v := vsub (qvec l a1) (qvec h a3) in
    let w := vsub (qvec l a2) (qvec k a3) in
    let k1 := vdot (vadd (qvec p u) (qvec q v)) w in
    let k2 := vdot (vsub (qvec l u) (qvec k v)) w in
    let '(p, q) :=
      if Qltb tol (Qabs k2)
      then let i := - rint (k1 / k2)%Q in (p + i * l, q - i * k)
      else (p, q) in
    let '(a, b) := ext_gcd (p * k + q * l) h in
    let g := Z.abs (Z.gcd l k) in
    Some ((p * k + q * l, - p * h, - q * h),
          (0 / g, l / g, (- k) / g),
          (b, a * p, a * q)).

End Directions.

End SurfaceBasis.

Module SurfacesMore.
Import Num Pmg Surfaces Landscape.
Local Open Scope Q_scope.

(** [_get_intercept(midpoint, vector)]. *)
Definition get_intercept (midpoint vector : Q * Q) : Q * Q :=
  if Qeq_bool (fst vector) 0 then (0, snd midpoint)
  else
    let slope := snd vector / fst vector in
    let f := (slope * snd midpoint + fst midpoint) / (slope ^ 2 + 1) in
    (f, slope * f).

(** [_ewald_sum(structure, shift, film_inds)] on the rows of [structure]:
    the energy returned and the rows the call leaves behind.
    [total_energy] is [EwaldSummation(structure).total_energy]; [None] is
    an exception raised by it.  The method has no [try]: the exception
    leaves the method before the second [translate_sites]. *)
Definition ewald_sum (total_energy : list PeriodicSite -> option Q)
  (rows : list PeriodicSite) (shift : vec3) (film_inds : list nat)
  : option Q * list PeriodicSite :=
  let rows1 := translate_rows film_inds shift rows in
  match total_energy rows1 with
  | Some E =>
      let rows2 := translate_rows film_inds (vneg shift) rows1 in
      (Some E, rows2)
  | None => (None, rows1)
  end.

(** Two sites with the same species and equal coordinates. *)
Definition same_site (s t : PeriodicSite) : Prop :=
  species s = species t
  /\ vx (frac_coords s) == vx (frac_coords t)
  /\ vy (frac_coords s) == vy (frac_coords t)
  /\ vz (frac_coords s) == vz (frac_coords t).

(** A site inside the unit cell: coordinates in [0, 1). *)
Definition in_unit_cell (s : PeriodicSite) : Prop :=
  (0 <= vx (frac_coords s) /\ vx (frac_coords s) < 1)
  /\ (0 <= vy (frac_coords s) /\ vy (frac_coords s) < 1)
  /\ (0 <= vz (frac_coords s) /\ vz (frac_coords s) < 1).

(** The heights averaged at lines 540-548 for the species of [own] that
    are not in [other]. *)
Definition exclusive_heights (own other : list String.string) (s : Structure) : list Q :=
  let species_in_both :=
    snd (get_unique_species own other) in
  map site_z
    (List.filter
       (fun x => existsb (String.eqb (species x)) (delete_shared species_in_both own))
       (sites s)).

(** The species of [film_species] that are also substrate species, as
    removed from [film_species] at line 538. *)
Definition film_exclusive_heights (substrate_species film_species : list String.string)
  (s : Structure) : list Q :=
  let species_in_both := snd (get_unique_species substrate_species film_species) in
  map site_z
    (List.filter
       (fun x => existsb (String.eqb (species x))
                         (delete_shared species_in_both film_species))
       (sites s)).

End SurfacesMore.

Module Examples2.
Import Num Pmg Surfaces Landscape.
Import String.StringSyntax.
Local Open Scope Q_scope.
Local Open Scope string_scope.

(** An instance of [ext_gcd]: the recursion of
    [ase.build.general_surface.ext_gcd], [abs(b) + 1] calls deep. *)
Fixpoint ext_gcd_calls (calls : nat) (a b : Z) : Z * Z :=
  match calls with
  | O => (1%Z, 0%Z)
  | S calls' =>
      if (b =? 0)%Z then (1%Z, 0%Z)
      else if (a mod b =? 0)%Z then (0%Z, 1%Z)
      else let '(x, y) := ext_gcd_calls calls' b (a mod b)%Z in
           (y, (x - y * (a / b))%Z)
  end.

Definition ext_gcd_ase (a b : Z) : Z * Z :=
  ext_gcd_calls (S (Z.to_nat (Z.abs b))) a b.

(** The images of a plane under the identity and the inversion. *)
Definition inversion_images (p : Miller.plane) : list Miller.plane :=
  [p; Miller.negate p].

(** A substrate slab and a film slab of two sites each in a cell 10 high. *)
Definition sub_slab : Structure :=
  mkStructure Examples.tall_lattice [mkSite "Si" (0, 0, 1 # 5); mkSite "Si" (0, 0, 2 # 5)].
Definition film_slab : Structure :=
  mkStructure Examples.tall_lattice [mkSite "Al" (0, 0, 7 # 10); mkSite "Al" (0, 0, 9 # 10)].

(** The length of a vector along the third axis. *)
Definition norm_z (v : vec3) : Q := Qabs (vz v).

(** The species of a silicon substrate and of an aluminium film. *)
Definition si_species : list String.string := ["Si"].
Definition al_species : list String.string := ["Al"].

(** An interface whose film lies below its substrate. *)
Definition upside_down : Structure :=
  mkStructure Examples.unit_lattice [mkSite "Al" (0, 0, 1 # 5); mkSite "Si" (0, 0, 7 # 10)].

End Examples2.

(* ===================================================================== *)
(** * Part V-c: scan geometry, radii and the ionic matcher *)
(* ===================================================================== *)

Module ScanSetup.
Import Num Pmg Landscape.
Import String.StringSyntax.
Local Open Scope Q_scope.

(** ** [Interface._get_ratio] ([surfaces.py], lines 680-688) *)

Section GetRatio.

(** The vectors and [np.linalg.norm] on them. *)
Variable V : Type.
Variable norm : V -> Q.

(** [ratio_array = np.ones(2)], then
    [ratio_array[np.argmin([a_norm, b_norm])] = max / min]. *)
Definition get_ratio (a b : V) : list npfloat :=
  let a_norm := norm a in
  let b_norm := norm b in
  let ratio_array := [Fin 1; Fin 1] in
  let min_ind := argmin_from 0 a_norm 1 [b_norm] in
  let ratio := nf_div (Fin (Qmax' a_norm b_norm)) (Fin (Qmin' a_norm b_norm)) in
  <[min_ind := ratio]> ratio_array.

End GetRatio.

(** ** [Interface._get_radii] ([surfaces.py], lines 626-668) *)

(** The property [_metallic_elements], entry by entry. *)
Definition metallic_elements : list String.string :=
  ["Li"; "Be"; "Na"; "Mg"; "Al"; "K"; "Ca"; "Sc"; "Ti"; "V"; "Cr"; "Mn"; "Fe"; "Co";
   "Ni"; "Cu"; "Zn"; "Ga"; "Rb"; "Sr"; "Y"; "Zr"; "Nb"; "Mo"; "Tc"; "Ru"; "Rh"; "Pd";
   "Ag"; "Cd"; "In"; "Sn"; "Cs"; "Ba"; "La"; "Ce"; "Pr"; "Nd"; "Pm"; "Sm"; "Eu"; "Gd";
   "Tb"; "Dy"; "Ho"; "Er"; "Tm"; "Yb"; "Lu"; "Hf"; "Ta"; "W"; "Re"; "Os"; "Ir"; "Pt";
   "Au"; "Hg"; "Tl"; "Pb"; "Bi"; "Rn"; "Fr"; "Ra"; "Ac"; "Th"; "Pa"; "U"; "Np"; "Pu";
   "Am"; "Cm"; "Bk"; "Cf"; "Es"; "Fm"; "Md"; "No"; "Lr"; "Rf"; "Db"; "Sg"; "Bh"; "Hs";
   "Mt"; "Ds "; "Rg "; "Cn "; "Nh"; "Fl"; "Mc"; "Lv"].

Section GetRadii.

(** The tables of pymatgen: [Element(s).metallic_radius],
    [Element(s).average_ionic_radius], [CovalentRadius.radius[s]] with
    values in [R], and the electronegativity [Element(s).X]. *)
Variable R : Type.
Variable metallic_radius : String.string -> R.
Variable average_ionic_radius : String.string -> R.
Variable covalent_radius : String.string -> R.
Variable X : String.string -> npfloat.

(** [np.isin(species, self._metallic_elements)] for one entry. *)
Definition np_isin (s : String.string) (elements : list String.string) : bool :=
  existsb (String.eqb s) elements.

(** [itertools.combinations(xs, 2)]. *)
Fixpoint combinations {A : Type} (xs : list A) : list (A * A) :=
  match xs with
  | [] => []
  | x :: rest => map (pair x) rest ++ combinations rest
  end.

(** [X_diff = np.abs([c[0] - c[1] for c in combinations(Xs, 2)])]. *)
Definition X_diff (species : list String.string) : list npfloat :=
  map (fun c => nf_map Qabs (nf_map2 Qminus (fst c) (snd c)))
      (combinations (map X species)).

(** One entry of [X_diff >= 1.7]; a comparison with [nan] is false. *)
Definition at_least_17 (x : npfloat) : bool :=
  match x with Fin q => Qle_bool (17 # 10) q | NaN => false end.

(** The dictionary built for the species of one bulk. *)
Definition species_dict (species : list String.string) : gmap String.string R :=
  if forallb (fun s => np_isin s metallic_elements) species then
    list_to_map (map (fun s => (s, metallic_radius s)) species)
  else if existsb at_least_17 (X_diff species) then
    list_to_map (map (fun s => (s, average_ionic_radius s)) species)
  else
    list_to_map (map (fun s => (s, covalent_radius s)) species).

(** [sub_dict.update(film_dict); return sub_dict], on the arrays
    [np.unique(bulk.species)] of the two bulks. *)
Definition get_radii (sub_species film_species : list String.string)
  : gmap String.string R :=
  species_dict film_species ∪ species_dict sub_species.

End GetRadii.

End ScanSetup.

Module SurfaceMatch.
Import Num Pmg.
Local Open Scope Q_scope.

(** [IonicSurfaceMatcher.__init__] ([surface_match.py], lines 25-30): the
    pair [(self.matrix, self._vol)]. *)
Definition matcher_matrix (matrix : Lattice) : Lattice * Q :=
  let vol := det matrix in
  if Qltb vol 0
  then (mkLattice (vscale (-1) (row_a matrix)) (vscale (-1) (row_b matrix))
                  (vscale (-1) (row_c matrix)),
        vol * -1)
  else (matrix, vol).

End SurfaceMatch.

Module Examples3.
Import Num Pmg Landscape.
Import String.StringSyntax.
Local Open Scope Q_scope.
Local Open Scope string_scope.

(** Entries of the tables for aluminium and arsenic. *)
Definition is_Al (s : String.string) : bool := String.eqb s "Al".

Definition metallic_radius (s : String.string) : option Q :=
  if is_Al s then Some (143 # 100) else None.
Definition average_ionic_radius (s : String.string) : option Q :=
  if is_Al s then Some (675 # 1000) else Some (6 # 10).
Definition covalent_radius (s : String.string) : option Q :=
  if is_Al s then Some (121 # 100) else Some (119 # 100).
Definition X (s : String.string) : npfloat :=
  if is_Al s then Fin (161 # 100) else Fin (218 # 100).

Definition Al : String.string := "Al".
Definition aluminium : list String.string := ["Al"].
Definition aluminium_arsenide : list String.string := ["Al"; "As"].

(** A left-handed cell. *)
Definition left_handed : Lattice := mkLattice (1, 0, 0) (0, 1, 0) (0, 0, -10).

End Examples3.

(* ===================================================================== *)
(** * Part VI: properties of the Miller-index canonicalisation *)
(* ===================================================================== *)

Section MillerFacts.
Import Miller.
Local Open Scope Z_scope.

Variable key : plane -> Z.

Lemma np_max_fold_ge (rows : list plane) (m0 : Z) :
  m0 <= fold_left (fun m q => Z.max m (key q)) rows m0.
Proof.
  revert m0; induction rows as [|q rows IH]; intros m0; simpl; [lia|].
  specialize (IH (Z.max m0 (key q))); lia.
Qed.

Lemma np_max_fold_upper (rows : list plane) (m0 : Z) (q : plane) :
  In q rows -> key q <= fold_left (fun m q => Z.max m (key q)) rows m0.
Proof.
  revert m0; induction rows as [|x rows IH]; intros m0 Hin; simpl in *; [tauto|].
  destruct Hin as [->|Hin].
  - pose proof (np_max_fold_ge rows (Z.max m0 (key q))); lia.
  - now apply IH.
Qed.

Lemma np_max_fold_attained (rows : list plane) (m0 : Z) :
  fold_left (fun m q => Z.max m (key q)) rows m0 = m0
  \/ exists q, In q rows /\ key q = fold_left (fun m q => Z.max m (key q)) rows m0.
Proof.
  revert m0; induction rows as [|x rows IH]; intros m0; simpl; [now left|].
  destruct (IH (Z.max m0 (key x))) as [Heq|(q & Hq & Hk)].
  - rewrite Heq. destruct (Z.max_spec m0 (key x)) as [[_ ->]|[_ ->]].
    + right; exists x; auto.
    + now left.
  - right; exists q; auto.
Qed.

Lemma np_max_upper (p : plane) (rest : list plane) (q : plane) :
  In q (p :: rest) -> key q <= np_max key p rest.
Proof.
  unfold np_max; intros [->|Hin].
  - apply np_max_fold_ge.
  - now apply np_max_fold_upper.
Qed.

Lemma np_max_attained (p : plane) (rest : list plane) :
  exists q, In q (p :: rest) /\ key q = np_max key p rest.
Proof.
  unfold np_max. destruct (np_max_fold_attained rest (key p)) as [Heq|(q & Hq & Hk)].
  - exists p; split; [now left | now rewrite Heq].
  - exists q; split; [now right | assumption].
Qed.

(** The rows kept by the mask are the rows at which the key is greatest. *)
Lemma rows_at_max_spec (rows : list plane) (q : plane) :
  In q (rows_at_max key rows)
  <-> In q rows /\ forall q', In q' rows -> key q' <= key q.
Proof.
  destruct rows as [|p rest]; [simpl; tauto|].
  unfold rows_at_max. rewrite filter_In, Z.eqb_eq. split.
  - intros [Hin Hk]; split; [assumption|].
    intros q' Hq'. rewrite Hk. now apply np_max_upper.
  - intros [Hin Hub]; split; [assumption|].
    destruct (np_max_attained p rest) as (w & Hw & Hkw).
    pose proof (np_max_upper p rest q Hin). specialize (Hub w Hw). lia.
Qed.

Lemma rows_at_max_nonempty (rows : list plane) :
  rows <> [] -> rows_at_max key rows <> [].
Proof.
  destruct rows as [|p rest]; [congruence|]; intros _ Hnil.
  destruct (np_max_attained p rest) as (w & Hw & Hkw).
  assert (Hin : In w (rows_at_max key (p :: rest))).
  { unfold rows_at_max. apply filter_In; split; [assumption | now apply Z.eqb_eq]. }
  rewrite Hnil in Hin; contradiction.
Qed.

Lemma rows_at_max_singleton (p : plane) : rows_at_max key [p] = [p].
Proof. simpl. unfold np_max; simpl. now rewrite Z.eqb_refl. Qed.

Lemma argmax_from_spec (rows : list plane) (best : plane) :
  In (argmax_from key best rows) (best :: rows)
  /\ forall q, In q (best :: rows) -> key q <= key (argmax_from key best rows).
Proof.
  revert best; induction rows as [|x rows IH]; intros best; simpl.
  - split; [now left|]. intros q [->|[]]; lia.
  - destruct (Z.ltb_spec (key best) (key x)) as [Hlt|Hge].
    + destruct (IH x) as [Hin Hub]. split.
      * simpl in Hin; tauto.
      * intros q [->|[->|Hq]].
        -- specialize (Hub x (or_introl eq_refl)); lia.
        -- apply Hub; now left.
        -- apply Hub; now right.
    + destruct (IH best) as [Hin Hub]. split.
      * simpl in Hin; tauto.
      * intros q [->|[->|Hq]].
        -- apply Hub; now left.
        -- specialize (Hub best (or_introl eq_refl)); lia.
        -- apply Hub; now right.
Qed.

(** [np.argmax] returns the first row at which the key is greatest: the
    rows before it have a smaller key. *)
Lemma argmax_from_first (rows : list plane) (best : plane) :
  exists pre post,
    best :: rows = pre ++ argmax_from key best rows :: post
    /\ forall q, In q pre -> key q < key (argmax_from key best rows).
Proof.
  assert (G : forall rows best,
             key best <= key (argmax_from key best rows)
             /\ (argmax_from key best rows = best
                 \/ exists pre post,
                      rows = pre ++ argmax_from key best rows :: post
                      /\ key best < key (argmax_from key best rows)
                      /\ forall q, In q pre -> key q < key (argmax_from key best rows))).
  { clear rows best. induction rows as [|x rows IH]; intros best; simpl.
    - split; [lia | now left].
    - destruct (Z.ltb_spec (key best) (key x)) as [Hlt|Hge].
      + destruct (IH x) as [Hle [Heq|(pre & post & Hs & Hk & Hpre)]].
        * split; [lia|]. right. exists [], rows. rewrite Heq.
          split; [reflexivity|]. split; [assumption|]. intros q [].
        * split; [lia|]. right. exists (x :: pre), post.
          split; [simpl; now f_equal|]. split; [lia|].
          intros q [<-|Hq]; [assumption | now apply Hpre].
      + destruct (IH best) as [Hle [Heq|(pre & post & Hs & Hk & Hpre)]].
        * split; [assumption | now left].
        * split; [assumption|]. right. exists (x :: pre), post.
          split; [simpl; now f_equal|]. split; [assumption|].
          intros q [<-|Hq]; [lia | now apply Hpre]. }
  destruct (G rows best) as [_ [Heq|(pre & post & Hs & Hk & Hpre)]].
  - exists [], rows. rewrite Heq. split; [reflexivity | intros q []].
  - exists (best :: pre), post. split; [simpl; now f_equal|].
    intros q [<-|Hq]; [assumption | now apply Hpre].
Qed.

(** The mask keeps the rows whose key is the key of any row it keeps. *)
Lemma rows_at_max_filter (rows : list plane) (r : plane) :
  In r (rows_at_max key rows) ->
  rows_at_max key rows = List.filter (fun q => key q =? key r) rows.
Proof.
  destruct rows as [|p rest]; [intros []|].
  unfold rows_at_max. intros Hin. apply filter_In in Hin. destruct Hin as [_ Hk].
  apply Z.eqb_eq in Hk. now rewrite Hk.
Qed.

Lemma rows_at_max_tied_pair (p q : plane) :
  key q = key p -> rows_at_max key [p; q] = [p; q].
Proof.
  intros Hk. unfold rows_at_max, np_max. simpl. rewrite Hk, Z.max_id, Z.eqb_refl.
  reflexivity.
Qed.

End MillerFacts.

Section FilterFacts.

(** A boolean mask keeps the order of the rows: a row kept by the mask
    splits the array where it splits the masked array. *)
Lemma filter_split_mid {A : Type} (f : A -> bool) (l pre' post' : list A) (r : A) :
  List.filter f l = pre' ++ r :: post' ->
  exists pre post, l = pre ++ r :: post /\ List.filter f pre = pre'.
Proof.
  revert pre'; induction l as [|a l IH]; intros pre' H; simpl in H.
  - destruct pre'; discriminate.
  - destruct (f a) eqn:Ea.
    + destruct pre' as [|b pre'']; simpl in H; inversion H; subst.
      * exists [], l. split; reflexivity.
      * destruct (IH pre'' H2) as (pre & post & -> & Hf).
        exists (b :: pre), post. split; [reflexivity|]. simpl. now rewrite Ea, Hf.
    + destruct (IH pre' H) as (pre & post & -> & Hf).
      exists (a :: pre), post. split; [reflexivity|]. simpl. now rewrite Ea.
Qed.

End FilterFacts.

Section MillerChain.
Import Miller.
Local Open Scope Z_scope.

(** The early exits of the loop body change nothing: a mask applied to a
    single row keeps it, and so does [np.argmax]. *)
Lemma select_unique_plane_chain (equivalent_planes : list plane) :
  select_unique_plane equivalent_planes = chain_unique_plane equivalent_planes.
Proof.
  unfold select_unique_plane, chain_unique_plane.
  destruct equivalent_planes as [|p0 rest0]; [reflexivity|].
  generalize (rows_at_max diff (p0 :: rest0)); intros S1.
  destruct S1 as [|a [|b S1']]; [reflexivity | | ].
  { now rewrite !rows_at_max_singleton. }
  generalize (rows_at_max abs_first (a :: b :: S1')); intros S2.
  destruct S2 as [|c [|d S2']]; [reflexivity | | ].
  { now rewrite !rows_at_max_singleton. }
  generalize (rows_at_max abs_second (c :: d :: S2')); intros S3.
  destruct S3 as [|e [|f S3']]; reflexivity.
Qed.

Lemma negate_keys (p : plane) :
  diff (negate p) = diff p
  /\ abs_first (negate p) = abs_first p
  /\ abs_second (negate p) = abs_second p
  /\ sign_sum (negate p) = - sign_sum p.
Proof.
  destruct p as [[h k] l].
  unfold diff, abs_first, abs_second, sign_sum, negate, h_of, k_of, l_of; simpl.
  rewrite !Z.sgn_opp, !Z.abs_opp.
  repeat split; try reflexivity; try lia.
Qed.

End MillerChain.

Section MillerSort.
Import Miller.
Local Open Scope Z_scope.

Lemma plane_leb_order (p q : plane) : plane_leb p q = true <-> miller_order p q.
Proof.
  unfold plane_leb, key_leb, sort_key, miller_order; simpl.
  rewrite orb_true_iff, andb_true_iff, Z.ltb_lt, Z.eqb_eq, Z.leb_le.
  split; (intros [H|[H1 H2]]; [left; assumption | right; split; [assumption | lia]]).
Qed.

Lemma plane_leb_total (p q : plane) : plane_leb p q = false -> miller_order q p.
Proof.
  intros Hf. unfold miller_order.
  destruct (Z.lt_trichotomy (norm_sq p) (norm_sq q)) as [Hlt|[Heq|Hgt]].
  - assert (plane_leb p q = true) by (apply plane_leb_order; left; exact Hlt).
    congruence.
  - destruct (Z.le_gt_cases (sign_sum p) (sign_sum q)) as [Hle|Hgt].
    + right; split; [symmetry; assumption | assumption].
    + assert (plane_leb p q = true)
        by (apply plane_leb_order; right; split; [assumption | lia]).
      congruence.
  - left; lia.
Qed.

Lemma miller_order_trans (p q r : plane) :
  miller_order p q -> miller_order q r -> miller_order p r.
Proof. unfold miller_order; intros [H1|[H1 H1']] [H2|[H2 H2']]; lia. Qed.

Lemma insert_plane_perm (p : plane) (rows : list plane) :
  Permutation (p :: rows) (insert_plane p rows).
Proof.
  induction rows as [|q rows IH]; simpl; [reflexivity|].
  destruct (plane_leb p q); [reflexivity|].
  rewrite perm_swap. now apply perm_skip.
Qed.

Lemma insert_plane_sorted (p : plane) (rows : list plane) :
  StronglySorted miller_order rows -> StronglySorted miller_order (insert_plane p rows).
Proof.
  induction rows as [|q rows IH]; intros Hs; simpl.
  - constructor; [constructor | constructor].
  - inversion Hs as [|? ? Hs' Hall]; subst.
    destruct (plane_leb p q) eqn:E.
    + apply plane_leb_order in E. constructor; [assumption|].
      constructor; [assumption|].
      eapply List.Forall_impl; [|exact Hall].
      intros r Hr; eapply miller_order_trans; eassumption.
    + apply plane_leb_total in E. constructor; [now apply IH|].
      eapply Permutation_Forall; [apply insert_plane_perm|].
      constructor; assumption.
Qed.

Lemma sorted_planes_perm (rows : list plane) : Permutation rows (sorted_planes rows).
Proof.
  induction rows as [|p rows IH]; simpl; [reflexivity|].
  etransitivity; [apply perm_skip, IH | apply insert_plane_perm].
Qed.

Lemma sorted_planes_sorted (rows : list plane) :
  StronglySorted miller_order (sorted_planes rows).
Proof.
  induction rows as [|p rows IH]; simpl; [constructor|].
  now apply insert_plane_sorted.
Qed.

Lemma select_unique_plane_total (c : list plane) :
  c <> [] -> exists r, select_unique_plane c = Some r.
Proof.
  intros Hne. rewrite select_unique_plane_chain. unfold chain_unique_plane.
  pose proof (rows_at_max_nonempty abs_second _
                (rows_at_max_nonempty abs_first _
                   (rows_at_max_nonempty diff _ Hne))) as H3.
  destruct (rows_at_max abs_second _) as [|e S3]; [congruence|].
  simpl; eauto.
Qed.

Lemma collect_unique_planes_total (classes : list (list plane)) :
  List.Forall (fun c => c <> []) classes ->
  exists ups, collect_unique_planes classes = Some ups /\ length ups = length classes.
Proof.
  induction 1 as [|c classes Hc _ IH]; simpl; [eauto|].
  destruct (select_unique_plane_total c Hc) as [r ->].
  destruct IH as (ups & -> & Hlen). exists (r :: ups); simpl; auto.
Qed.

End MillerSort.

Section MillerClaims.
Import Miller.
Local Open Scope Z_scope.

(** C4 (as the code has it).  For a non-empty array of equivalent planes the
    loop body returns a row [r] of the array chosen by the chain: (i) the
    absolute value of the sum of the component signs is greatest, (ii) among
    those the absolute first component is greatest, (iii) then the absolute
    second component, (iv) then the sum of the component signs, and among
    the rows still tied the one that comes first in the array: every row
    before [r] that ties with it on (i)-(iii) has a smaller sum of signs.
    A plane and its negation have the same keys (i)-(iii) and opposite sums
    of signs: of the two, rule (iv) returns the one whose sum of signs is
    positive, and the first row when the sum is zero. *)
Theorem canonical_plane_tie_break (equivalent_planes : list plane) :
  equivalent_planes <> [] ->
  (exists r pre post,
      select_unique_plane equivalent_planes = Some r
      /\ equivalent_planes = pre ++ r :: post
      /\ (forall q, In q equivalent_planes -> diff q <= diff r)
      /\ (forall q, In q equivalent_planes -> diff q = diff r ->
                    abs_first q <= abs_first r)
      /\ (forall q, In q equivalent_planes -> diff q = diff r ->
                    abs_first q = abs_first r -> abs_second q <= abs_second r)
      /\ (forall q, In q equivalent_planes -> diff q = diff r ->
                    abs_first q = abs_first r -> abs_second q = abs_second r ->
                    sign_sum q <= sign_sum r)
      /\ (forall q, In q pre -> diff q = diff r ->
                    abs_first q = abs_first r -> abs_second q = abs_second r ->
                    sign_sum q < sign_sum r))
  /\ (forall p, diff (negate p) = diff p
                /\ abs_first (negate p) = abs_first p
                /\ abs_second (negate p) = abs_second p
                /\ sign_sum (negate p) = - sign_sum p)
  /\ (forall p, select_unique_plane [p; negate p]
                = Some (if sign_sum p <? 0 then negate p else p)).
Proof.
  intros Hne. split; [|split; [apply negate_keys|]].
  - rewrite select_unique_plane_chain. unfold chain_unique_plane.
    set (S1 := rows_at_max diff equivalent_planes).
    set (S2 := rows_at_max abs_first S1).
    set (S3 := rows_at_max abs_second S2).
    assert (H3 : S3 <> []) by (repeat apply rows_at_max_nonempty; assumption).
    destruct S3 as [|e rest] eqn:E3; [congruence|]. simpl.
    destruct (argmax_from_spec sign_sum rest e) as [Hin Hub].
    destruct (argmax_from_first sign_sum rest e) as (pre3 & post3 & Hsplit3 & Hpre3).
    set (r := argmax_from sign_sum e rest) in *.
    rewrite <- E3 in Hin, Hub, Hsplit3.
    assert (Hr3 := proj1 (rows_at_max_spec abs_second S2 r) Hin).
    destruct Hr3 as [Hr2in Hr2ub].
    assert (Hr2 := proj1 (rows_at_max_spec abs_first S1 r) Hr2in).
    destruct Hr2 as [Hr1in Hr1ub].
    assert (Hr1 := proj1 (rows_at_max_spec diff equivalent_planes r) Hr1in).
    destruct Hr1 as [Hr0in Hr0ub].
    assert (In1 : forall q, In q equivalent_planes -> diff q = diff r -> In q S1).
    { intros q Hq Hd. apply rows_at_max_spec; split; [assumption|].
      intros q' Hq'. rewrite Hd. now apply Hr0ub. }
    assert (In2 : forall q, In q S1 -> abs_first q = abs_first r -> In q S2).
    { intros q Hq Hd. apply rows_at_max_spec; split; [assumption|].
      intros q' Hq'. rewrite Hd. now apply Hr1ub. }
    assert (In3 : forall q, In q S2 -> abs_second q = abs_second r -> In q S3).
    { intros q Hq Hd. apply rows_at_max_spec; split; [assumption|].
      intros q' Hq'. rewrite Hd. now apply Hr2ub. }
    assert (F3 : S3 = List.filter (fun q => abs_second q =? abs_second r) S2)
      by (apply rows_at_max_filter; assumption).
    assert (F2 : S2 = List.filter (fun q => abs_first q =? abs_first r) S1)
      by (apply rows_at_max_filter; assumption).
    assert (F1 : S1 = List.filter (fun q => diff q =? diff r) equivalent_planes)
      by (apply rows_at_max_filter; assumption).
    rewrite F3 in Hsplit3.
    destruct (filter_split_mid _ _ _ _ _ Hsplit3) as (pre2 & post2 & Hsplit2 & Hf3).
    rewrite F2 in Hsplit2.
    destruct (filter_split_mid _ _ _ _ _ Hsplit2) as (pre1 & post1 & Hsplit1 & Hf2).
    rewrite F1 in Hsplit1.
    destruct (filter_split_mid _ _ _ _ _ Hsplit1) as (pre & post & Hsplit & Hf1).
    exists r, pre, post. repeat split; auto.
    intros q Hq Hd Ha Hb. apply Hpre3.
    rewrite <- Hf3. apply filter_In. split; [|now apply Z.eqb_eq].
    rewrite <- Hf2. apply filter_In. split; [|now apply Z.eqb_eq].
    rewrite <- Hf1. apply filter_In. split; [assumption | now apply Z.eqb_eq].
  - intros p. destruct (negate_keys p) as (Hd & Ha & Hb & Hs).
    rewrite select_unique_plane_chain. unfold chain_unique_plane.
    rewrite !rows_at_max_tied_pair by assumption. simpl. rewrite Hs.
    destruct (Z.ltb_spec (sign_sum p) (- sign_sum p)) as [H1|H1],
             (Z.ltb_spec (sign_sum p) 0) as [H2|H2]; try reflexivity; lia.
Qed.

Lemma canonical_plane_tie_break_witness :
  [(1, -1, 0); (-1, 1, 0); (1, 1, 0)] <> []
  /\ (exists r pre post,
        select_unique_plane [(1, -1, 0); (-1, 1, 0); (1, 1, 0)] = Some r
        /\ [(1, -1, 0); (-1, 1, 0); (1, 1, 0)] = pre ++ r :: post
        /\ (forall q, In q [(1, -1, 0); (-1, 1, 0); (1, 1, 0)] -> diff q <= diff r)
        /\ (forall q, In q pre -> diff q = diff r ->
                      abs_first q = abs_first r -> abs_second q = abs_second r ->
                      sign_sum q < sign_sum r))
  /\ select_unique_plane [(1, -1, 0); (-1, 1, 0)] = Some (1, -1, 0)
  /\ select_unique_plane [(-1, 1, 0); (1, -1, 0)] = Some (-1, 1, 0).
Proof.
  assert (H : [(1, -1, 0); (-1, 1, 0); (1, 1, 0)] <> ([] : list plane)) by discriminate.
  split; [exact H|].
  destruct (canonical_plane_tie_break [(1, -1, 0); (-1, 1, 0); (1, 1, 0)] H)
    as [(r & pre & post & H1 & H2 & H3 & _ & _ & _ & H7) [_ Hpair]].
  split; [exists r, pre, post; repeat split; assumption|].
  split; [exact (Hpair (1, -1, 0)) | exact (Hpair (-1, 1, 0))].
Defined.

(** C4 as stated fails.  Rule (i) of the code keeps both [(1,1,1)] and
    [(-1,-1,-1)]; the pair is only separated by rule (iv).  And for the
    class [{(1,1,-1), (-1,-1,-1)}] (a two-fold axis along the third index)
    the code returns [(-1,-1,-1)], which has fewer non-negative components
    than [(1,1,-1)], the plane the chain of the claim selects. *)
Lemma canonical_plane_counterexample :
  rows_at_max diff [(1, 1, 1); (-1, -1, -1)] = [(1, 1, 1); (-1, -1, -1)]
  /\ rows_at_max abs_second
       (rows_at_max abs_first (rows_at_max diff [(1, 1, 1); (-1, -1, -1)]))
     = [(1, 1, 1); (-1, -1, -1)]
  /\ select_unique_plane [(1, 1, -1); (-1, -1, -1)] = Some (-1, -1, -1)
  /\ nonneg_count (-1, -1, -1) < nonneg_count (1, 1, -1)
  /\ spec_unique_plane [(1, 1, -1); (-1, -1, -1)] = Some (1, 1, -1).
Proof. repeat split. Qed.

(** C7.  When every array of equivalent planes is non-empty, the
    enumerator returns exactly when there is at least one array; the list
    returned holds the selected representatives, one per class, ordered by
    ascending norm and, at equal norm, by descending sum of the component
    signs.  Without any array ([max_index = 0]) the [np.vstack] of line 213
    raises. *)
Theorem unique_miller_indices_sorted (classes : list (list plane)) :
  List.Forall (fun c => c <> []) classes ->
  match get_unique_miller_indices classes with
  | Some out =>
      classes <> []
      /\ exists ups,
           collect_unique_planes classes = Some ups
           /\ Permutation ups out
           /\ length out = length classes
           /\ StronglySorted miller_order out
  | None => classes = []
  end.
Proof.
  intros Hall.
  destruct (collect_unique_planes_total classes Hall) as (ups & Hc & Hlen).
  unfold get_unique_miller_indices; rewrite Hc.
  destruct ups as [|u ups'].
  - destruct classes; [reflexivity | discriminate].
  - split; [intros ->; discriminate|].
    exists (u :: ups'). repeat split.
    + apply sorted_planes_perm.
    + rewrite <- Hlen. symmetry. apply Permutation_length, sorted_planes_perm.
    + apply sorted_planes_sorted.
Qed.

Lemma unique_miller_indices_sorted_witness :
  List.Forall (fun c : list plane => c <> [])
              [[(1, 1, 0); (-1, -1, 0)]; [(1, 0, 0); (-1, 0, 0)]; [(1, -1, 0); (-1, 1, 0)]]
  /\ get_unique_miller_indices
       [[(1, 1, 0); (-1, -1, 0)]; [(1, 0, 0); (-1, 0, 0)]; [(1, -1, 0); (-1, 1, 0)]]
     = Some [(1, 0, 0); (1, 1, 0); (1, -1, 0)]
  /\ match get_unique_miller_indices
             [[(1, 1, 0); (-1, -1, 0)]; [(1, 0, 0); (-1, 0, 0)]; [(1, -1, 0); (-1, 1, 0)]]
     with
     | Some out =>
         [[(1, 1, 0); (-1, -1, 0)]; [(1, 0, 0); (-1, 0, 0)]; [(1, -1, 0); (-1, 1, 0)]]
         <> ([] : list (list plane))
         /\ exists ups,
              collect_unique_planes
                [[(1, 1, 0); (-1, -1, 0)]; [(1, 0, 0); (-1, 0, 0)];
                 [(1, -1, 0); (-1, 1, 0)]] = Some ups
              /\ Permutation ups out
              /\ length out = 3%nat
              /\ StronglySorted miller_order out
     | None =>
         [[(1, 1, 0); (-1, -1, 0)]; [(1, 0, 0); (-1, 0, 0)]; [(1, -1, 0); (-1, 1, 0)]]
         = ([] : list (list plane))
     end.
Proof.
  assert (H : List.Forall (fun c : list plane => c <> [])
                [[(1, 1, 0); (-1, -1, 0)]; [(1, 0, 0); (-1, 0, 0)];
                 [(1, -1, 0); (-1, 1, 0)]])
    by (repeat constructor; discriminate).
  split; [exact H|]. split; [reflexivity|].
  exact (unique_miller_indices_sorted _ H).
Defined.

End MillerClaims.

(* ===================================================================== *)
(** * Part VII: properties of [shift_film] *)
(* ===================================================================== *)

Section NumFacts.
Import Num.
Local Open Scope Q_scope.

Lemma Qltb_lt (x y : Q) : Qltb x y = true <-> x < y.
Proof.
  unfold Qltb. rewrite negb_true_iff. split.
  - intros Hf. apply Qnot_le_lt. intros Hle.
    apply Qle_bool_iff in Hle. congruence.
  - intros Hlt. destruct (Qle_bool y x) eqn:E; [|reflexivity].
    apply Qle_bool_iff in E. exfalso. now apply (Qlt_not_le x y).
Qed.

Lemma Qltb_ge (x y : Q) : Qltb x y = false <-> y <= x.
Proof.
  unfold Qltb. rewrite negb_false_iff. apply Qle_bool_iff.
Qed.

End NumFacts.

Section ListFacts.

Lemma lookup_map_Some {A B : Type} (f : A -> B) (l : list A) (j : nat) (y : B) :
  map f l !! j = Some y <-> exists x, l !! j = Some x /\ y = f x.
Proof.
  revert j; induction l as [|a l IH]; intros j; simpl.
  - split; [discriminate | intros (x & Hx & _); discriminate].
  - destruct j as [|j]; simpl.
    + split.
      * intros H; inversion H; subst. eauto.
      * intros (x & Hx & ->). inversion Hx; subst. reflexivity.
    + apply IH.
Qed.

End ListFacts.

Section ShiftFilm.
Import Num Pmg Surfaces.
Local Open Scope Q_scope.

Lemma get_fractional_coords_nonsingular (L : Lattice) (c : vec3) :
  nonsingular L -> exists f, get_fractional_coords L c = Some f.
Proof.
  intros Hns. unfold get_fractional_coords.
  destruct (Qeq_bool (det L) 0) eqn:E; [|eauto].
  apply Qeq_bool_iff in E. contradiction.
Qed.

Lemma get_fractional_coords_singular (L : Lattice) (c f : vec3) :
  get_fractional_coords L c = Some f -> nonsingular L.
Proof.
  unfold get_fractional_coords, nonsingular.
  destruct (Qeq_bool (det L) 0) eqn:E; [discriminate|].
  intros _ Hz. apply Qeq_bool_iff in Hz. congruence.
Qed.

(** A cartesian call raises exactly when the guard of line 278 fires,
    provided the lattice can be inverted. *)
Lemma frac_shift_of_cartesian (self : Interface) (shift : vec3) :
  nonsingular (ref_lattice (interface self)) ->
  (vz shift + interfacial_distance self < 1 # 2
   /\ frac_shift_of self shift false = Raised ValueError)
  \/ (~ vz shift + interfacial_distance self < 1 # 2
      /\ exists f, get_fractional_coords (ref_lattice (interface self)) shift = Some f
                   /\ frac_shift_of self shift false = Returned f).
Proof.
  intros Hns. unfold frac_shift_of.
  destruct (Qltb (vz shift + interfacial_distance self) (1 # 2)) eqn:E.
  - left. split; [now apply Qltb_lt | reflexivity].
  - right. split.
    + intros Hlt. apply Qltb_lt in Hlt. congruence.
    + destruct (get_fractional_coords_nonsingular _ shift Hns) as [f Hf].
      exists f. now rewrite Hf.
Qed.

(** C2.  On an interface whose lattice can be inverted, a cartesian
    [shift_film] raises if and only if [shift[-1] + interfacial_distance]
    is below 0.5, the exception is the [ValueError] of line 279, and the
    call then leaves the attributes of the object and the store of site
    lists as they were: coordinates, [interfacial_distance] and
    [interface_height] are those of before the call. *)
Theorem shift_film_cartesian_guard (self : Interface)
  (sigma : gmap loc (list PeriodicSite)) (shift : vec3) (inplace : bool) :
  nonsingular (ref_lattice (interface self)) ->
  let r := shift_film shift false inplace self sigma in
  (raised r = true <-> vz shift + interfacial_distance self < 1 # 2)
  /\ (raised r = true ->
      res_outcome r = Raised ValueError
      /\ res_self r = self
      /\ res_store r = sigma
      /\ frac_coords_of (res_store r) (interface (res_self r))
         = frac_coords_of sigma (interface self)
      /\ interfacial_distance (res_self r) = interfacial_distance self
      /\ interface_height (res_self r) = interface_height self).
Proof.
  intros Hns r. subst r. unfold shift_film, raised.
  destruct (frac_shift_of_cartesian self shift Hns) as [[Hlt ->]|[Hge (f & _ & ->)]].
  - simpl. repeat split; auto.
  - destruct inplace; simpl; (split; [split; [discriminate | contradiction] | discriminate]).
Qed.

Lemma shift_film_cartesian_guard_witness :
  nonsingular (ref_lattice (interface Examples.self_2))
  /\ (raised (shift_film (0, 0, -2) false true Examples.self_2 Examples.store_2) = true
      <-> vz (0, 0, -2) + interfacial_distance Examples.self_2 < 1 # 2).
Proof.
  assert (H : nonsingular (ref_lattice (interface Examples.self_2)))
    by (unfold nonsingular; vm_compute; discriminate).
  split; [exact H|].
  exact (proj1 (shift_film_cartesian_guard Examples.self_2 Examples.store_2
                  (0, 0, -2) true H)).
Defined.

(** Translating at the indices of a mask moves the masked rows and no
    other. *)
Lemma fold_alter_filter_seq (f : PeriodicSite -> PeriodicSite) (g : nat -> bool)
  (n a : nat) (rows : list PeriodicSite) (j : nat) :
  fold_left (fun acc i => alter f i acc) (List.filter g (seq a n)) rows !! j
  = if (a <=? j)%nat && (j <? a + n)%nat && g j then f <$> rows !! j else rows !! j.
Proof.
  revert a rows; induction n as [|n IH]; intros a rows.
  - simpl. destruct (Nat.leb_spec a j), (Nat.ltb_spec j (a + 0)); simpl; try reflexivity; lia.
  - cbn [seq List.filter].
    assert (Hcond : j <> a ->
              ((S a <=? j)%nat && (j <? S a + n)%nat) = ((a <=? j)%nat && (j <? a + S n)%nat)).
    { intros Hne.
      destruct (Nat.leb_spec (S a) j), (Nat.ltb_spec j (S a + n)),
               (Nat.leb_spec a j), (Nat.ltb_spec j (a + S n)); simpl; try reflexivity; lia. }
    destruct (Nat.eq_dec j a) as [->|Hne].
    + assert (Hout : ((S a <=? a)%nat && (a <? S a + n)%nat) = false).
      { destruct (Nat.leb_spec (S a) a); simpl; [lia | reflexivity]. }
      assert (Hin : ((a <=? a)%nat && (a <? a + S n)%nat) = true).
      { destruct (Nat.leb_spec a a), (Nat.ltb_spec a (a + S n)); simpl; try reflexivity; lia. }
      destruct (g a) eqn:Ega; cbn [fold_left]; rewrite IH, Hout, Hin; simpl.
      * now rewrite list_lookup_alter_eq.
      * reflexivity.
    + destruct (g a) eqn:Ega; cbn [fold_left]; rewrite IH, (Hcond Hne).
      * rewrite list_lookup_alter_ne by congruence. reflexivity.
      * reflexivity.
Qed.

Lemma translate_rows_np_where (mask : PeriodicSite -> bool) (vector : vec3)
  (rows : list PeriodicSite) :
  translate_rows (np_where mask rows) vector rows
  = map (fun s => if mask s then translate_site vector s else s) rows.
Proof.
  apply list_eq; intros j. unfold translate_rows, np_where.
  rewrite fold_alter_filter_seq, list_lookup_fmap. simpl.
  destruct (rows !! j) as [r|] eqn:E; simpl.
  - apply lookup_lt_Some in E.
    destruct (Nat.ltb_spec j (length rows)); [|lia]. simpl.
    destruct (mask r); reflexivity.
  - now rewrite andb_false_r.
Qed.

Lemma translate_rows_all (vector : vec3) (rows : list PeriodicSite) :
  translate_rows (seq 0 (length rows)) vector rows = map (translate_site vector) rows.
Proof.
  apply list_eq; intros j. unfold translate_rows.
  assert (Hf : List.filter (fun _ : nat => true) (seq 0 (length rows)) = seq 0 (length rows)).
  { induction (seq 0 (length rows)) as [|x l IH]; simpl; [reflexivity | now rewrite IH]. }
  rewrite <- Hf, fold_alter_filter_seq, list_lookup_fmap. simpl.
  destruct (rows !! j) as [r|] eqn:E; simpl.
  - apply lookup_lt_Some in E.
    destruct (Nat.ltb_spec j (length rows)); [reflexivity | lia].
  - destruct (j <? length rows)%nat; reflexivity.
Qed.

Lemma rows_of_translate_same (s : StructureRef) (indices : list nat) (vector : vec3)
  (sigma : gmap loc (list PeriodicSite)) :
  (forall rows, translate_rows indices vector [] = rows -> rows = []) ->
  rows_of (translate_sites_at s indices vector sigma) s
  = translate_rows indices vector (rows_of sigma s).
Proof.
  intros Hnil. unfold rows_of, translate_sites_at. rewrite lookup_alter_eq.
  destruct (sigma !! ref_sites s) as [rows|]; simpl; [reflexivity|].
  symmetry. now apply Hnil.
Qed.

Lemma translate_rows_nil (indices : list nat) (vector : vec3) :
  translate_rows indices vector [] = [].
Proof. unfold translate_rows. induction indices as [|i l IH]; simpl; auto. Qed.

Lemma rows_of_translate_other (s t : StructureRef) (indices : list nat) (vector : vec3)
  (sigma : gmap loc (list PeriodicSite)) :
  ref_sites s <> ref_sites t ->
  rows_of (translate_sites_at s indices vector sigma) t = rows_of sigma t.
Proof.
  intros Hne. unfold rows_of, translate_sites_at. now rewrite lookup_alter_ne.
Qed.

(** What a call that does not raise does to the rows behind
    [self.interface]: the rows under the mask of line 283 are translated,
    whether the call is in place or not. *)
Lemma shift_film_interface_rows (self : Interface) (sigma : gmap loc (list PeriodicSite))
  (shift frac_shift : vec3) (fractional inplace : bool) :
  ref_sites (interface self) <> ref_sites (film_part self) ->
  frac_shift_of self shift fractional = Returned frac_shift ->
  rows_of (res_store (shift_film shift fractional inplace self sigma)) (interface self)
  = map (fun s => if film_mask self s then translate_site frac_shift s else s)
        (rows_of sigma (interface self)).
Proof.
  intros Hsep Hfs. unfold shift_film. rewrite Hfs.
  destruct inplace; simpl.
  - rewrite rows_of_translate_other by congruence.
    rewrite rows_of_translate_same by (intros ? <-; apply translate_rows_nil).
    apply translate_rows_np_where.
  - change (copy_copy (interface self)) with
      (mkRef (ref_lattice (interface self)) (ref_sites (interface self))).
    unfold rows_of at 1, translate_sites_at; simpl. rewrite lookup_alter_eq.
    unfold film_ind, rows_of.
    destruct (sigma !! ref_sites (interface self)) as [rows|]; simpl.
    + apply translate_rows_np_where.
    + reflexivity.
Qed.

(** The mask of line 283, as a proposition. *)
Lemma film_mask_true (self : Interface) (x : PeriodicSite) :
  film_mask self x = true <-> interface_height self < site_z x /\ site_z x < 99 # 100.
Proof.
  unfold film_mask. rewrite andb_true_iff, !Qltb_lt. reflexivity.
Qed.

(** C10.  A fractional [shift_film] never reaches the guard: whatever the
    shift, in place or not, the call returns without an exception, and
    the translation is applied.  Every row of the interface above
    [interface_height] and below 0.99 gets the coordinates
    [c + shift - floor(c + shift)], component by component; the other rows
    stay.  In place, all rows of [film_part] are translated in the same
    way and [interfacial_distance] moves by the third component of the
    shift, with no lower bound; not in place, the structure returned holds
    the translated rows and the attributes of the object stay. *)
Theorem shift_film_fractional_unchecked (self : Interface)
  (sigma : gmap loc (list PeriodicSite)) (shift : vec3) :
  ref_sites (interface self) <> ref_sites (film_part self) ->
  let r_in := shift_film shift true true self sigma in
  let r_out := shift_film shift true false self sigma in
  let wrap := fun c : Q => c - inject_Z (Qfloor c) in
  let moved_site := fun x : PeriodicSite =>
    mkSite (species x)
           (wrap (vx (frac_coords x) + vx shift),
            wrap (vy (frac_coords x) + vy shift),
            wrap (vz (frac_coords x) + vz shift)) in
  let under_mask := fun x : PeriodicSite =>
    interface_height self < site_z x /\ site_z x < 99 # 100 in
  let applied := fun rows' : list PeriodicSite =>
    length rows' = length (rows_of sigma (interface self))
    /\ forall i x, rows_of sigma (interface self) !! i = Some x ->
         (under_mask x -> rows' !! i = Some (moved_site x))
         /\ (~ under_mask x -> rows' !! i = Some x) in
  res_outcome r_in = Returned None
  /\ interface (res_self r_in) = interface self
  /\ interfacial_distance (res_self r_in) = interfacial_distance self + vz shift
  /\ applied (rows_of (res_store r_in) (interface self))
  /\ rows_of (res_store r_in) (film_part self)
     = map moved_site (rows_of sigma (film_part self))
  /\ (exists s, res_outcome r_out = Returned (Some s)
                /\ res_self r_out = self
                /\ applied (rows_of (res_store r_out) s)).
Proof.
  intros Hsep r_in r_out wrap moved_site under_mask applied.
  assert (Hfs : frac_shift_of self shift true = Returned shift) by reflexivity.
  assert (Happ : forall rows',
             rows' = map (fun s => if film_mask self s then translate_site shift s else s)
                         (rows_of sigma (interface self)) ->
             applied rows').
  { intros rows' ->. split; [apply length_map|].
    intros i x Hx. split.
    - intros Hm. apply lookup_map_Some. exists x. split; [assumption|].
      apply film_mask_true in Hm. rewrite Hm. reflexivity.
    - intros Hm. apply lookup_map_Some. exists x. split; [assumption|].
      destruct (film_mask self x) eqn:E; [|reflexivity].
      apply film_mask_true in E. contradiction. }
  split; [reflexivity|]. split; [reflexivity|]. split; [reflexivity|]. split; [|split].
  - apply Happ.
    apply (shift_film_interface_rows self sigma shift shift true true Hsep Hfs).
  - subst r_in. unfold shift_film; simpl.
    rewrite rows_of_translate_same by (intros ? <-; apply translate_rows_nil).
    rewrite translate_rows_all.
    now rewrite rows_of_translate_other by assumption.
  - exists (copy_copy (interface self)). split; [reflexivity|]. split; [reflexivity|].
    apply Happ.
    apply (shift_film_interface_rows self sigma shift shift true false Hsep Hfs).
Qed.

Lemma shift_film_fractional_unchecked_witness :
  ref_sites (interface Examples.self_2) <> ref_sites (film_part Examples.self_2)
  /\ res_outcome (shift_film (1 # 10, 0, -19 # 10) true true Examples.self_2 Examples.store_2)
     = Returned None
  /\ interfacial_distance
       (res_self (shift_film (1 # 10, 0, -19 # 10) true true Examples.self_2 Examples.store_2))
     = interfacial_distance Examples.self_2 + vz (1 # 10, 0, -19 # 10)
  /\ interfacial_distance Examples.self_2 + vz (1 # 10, 0, -19 # 10) < 1 # 2
  /\ rows_of (res_store (shift_film (1 # 10, 0, -19 # 10) true true
                           Examples.self_2 Examples.store_2))
             (interface Examples.self_2) !! 1%nat
     = Some (mkSite (species Examples.al_site)
               (vx (frac_coords Examples.al_site) + (1 # 10)
                - inject_Z (Qfloor (vx (frac_coords Examples.al_site) + (1 # 10))),
                vy (frac_coords Examples.al_site) + 0
                - inject_Z (Qfloor (vy (frac_coords Examples.al_site) + 0)),
                vz (frac_coords Examples.al_site) + (-19 # 10)
                - inject_Z (Qfloor (vz (frac_coords Examples.al_site) + (-19 # 10)))))
  /\ vx (frac_coords Examples.al_site) + (1 # 10)
     - inject_Z (Qfloor (vx (frac_coords Examples.al_site) + (1 # 10))) == 1 # 10
  /\ vz (frac_coords Examples.al_site) + (-19 # 10)
     - inject_Z (Qfloor (vz (frac_coords Examples.al_site) + (-19 # 10))) == 4 # 5.
Proof.
  assert (H : ref_sites (interface Examples.self_2) <> ref_sites (film_part Examples.self_2))
    by (vm_compute; discriminate).
  pose proof (shift_film_fractional_unchecked Examples.self_2 Examples.store_2
                (1 # 10, 0, -19 # 10) H)
    as (H1 & _ & H3 & (_ & H4) & _).
  assert (Hx : rows_of Examples.store_2 (interface Examples.self_2) !! 1%nat
               = Some Examples.al_site) by reflexivity.
  assert (Hm : interface_height Examples.self_2 < site_z Examples.al_site
               /\ site_z Examples.al_site < 99 # 100) by (split; reflexivity).
  split; [exact H|]. split; [exact H1|]. split; [exact H3|].
  split; [reflexivity|].
  split; [exact (proj1 (H4 1%nat Examples.al_site Hx) Hm)|].
  split; reflexivity.
Defined.

End ShiftFilm.

Section ShiftFilmCopies.
Import Num Pmg Surfaces.
Local Open Scope Q_scope.

(** C3 (evaluation at the failing input).  On the two-site interface, the
    call [shift_film([0.1, 0, 0], fractional=False, inplace=False)] returns a
    structure and leaves [interface_height], [interfacial_distance] and
    [film_part] alone, but the returned structure is a [copy.copy]: it
    shares the site list of [self.interface], and [translate_sites] has
    moved the aluminium site of the caller's interface as well. *)
Theorem shift_film_copy_shares_sites :
  let r := shift_film (1 # 10, 0, 0) false false Examples.self_2 Examples.store_2 in
  res_outcome r = Returned (Some (copy_copy (interface Examples.self_2)))
  /\ interface_height (res_self r) = interface_height Examples.self_2
  /\ interfacial_distance (res_self r) = interfacial_distance Examples.self_2
  /\ rows_of (res_store r) (film_part (res_self r))
     = rows_of Examples.store_2 (film_part Examples.self_2)
  /\ frac_coords_of (res_store r) (interface (res_self r))
     = [(0, 0, 1 # 5); (1 # 10, 0 # 10, 70 # 100)]
  /\ frac_coords_of Examples.store_2 (interface Examples.self_2)
     = [(0, 0, 1 # 5); (0, 0, 7 # 10)]
  /\ ~ Forall2 (fun u v => vx u == vx v)
         (frac_coords_of (res_store r) (interface (res_self r)))
         (frac_coords_of Examples.store_2 (interface Examples.self_2))
  /\ frac_coords_of (res_store r) (interface (res_self r))
     <> frac_coords_of Examples.store_2 (interface Examples.self_2).
Proof.
  cbv zeta. repeat split; try (vm_compute; reflexivity).
  - intros H. vm_compute in H.
    inversion H as [|? ? ? ? _ Hrest]; subst.
    inversion Hrest as [|? ? ? ? Hx _]; subst.
    vm_compute in Hx. discriminate.
  - intros H. vm_compute in H. discriminate.
Qed.

(** An accepted cartesian in-place call keeps the lattice and adds the
    third component of the shift to [interfacial_distance]. *)
Lemma shift_film_inplace_accepted (self : Interface)
  (sigma : gmap loc (list PeriodicSite)) (v : vec3) :
  raised (shift_film v false true self sigma) = false ->
  nonsingular (ref_lattice (interface self))
  /\ ~ vz v + interfacial_distance self < 1 # 2
  /\ interface (res_self (shift_film v false true self sigma)) = interface self
  /\ interfacial_distance (res_self (shift_film v false true self sigma))
     = interfacial_distance self + vz v.
Proof.
  unfold shift_film, frac_shift_of, raised.
  destruct (Qltb (vz v + interfacial_distance self) (1 # 2)) eqn:Eg;
    [intros Hacc; discriminate Hacc|].
  destruct (get_fractional_coords (ref_lattice (interface self)) v) as [f|] eqn:Ef;
    [|intros Hacc; discriminate Hacc].
  intros _. simpl. repeat split.
  - eapply get_fractional_coords_singular; eassumption.
  - intros Hlt. apply Qltb_lt in Hlt. congruence.
Qed.

(** C8 (as the code has it).  After an accepted cartesian in-place shift
    [v], the shift by [-v] goes through the guard of line 278 again, now
    on the updated distance: it raises exactly when
    [-v[-1] + interfacial_distance] is below 0.5.  When it is accepted,
    [interfacial_distance] is back at its value of before the two calls;
    when it raises, [interfacial_distance] stays at the shifted value. *)
Theorem shift_film_round_trip (self : Interface)
  (sigma : gmap loc (list PeriodicSite)) (v : vec3) :
  raised (shift_film v false true self sigma) = false ->
  let r1 := shift_film v false true self sigma in
  let r2 := shift_film (vneg v) false true (res_self r1) (res_store r1) in
  (raised r2 = true <-> - vz v + interfacial_distance (res_self r1) < 1 # 2)
  /\ (raised r2 = false ->
      interfacial_distance (res_self r2) == interfacial_distance self)
  /\ (raised r2 = true ->
      res_outcome r2 = Raised ValueError
      /\ interfacial_distance (res_self r2) = interfacial_distance self + vz v).
Proof.
  intros Hacc r1 r2. subst r2 r1.
  destruct (shift_film_inplace_accepted self sigma v Hacc) as (Hns & _ & Hi & Hd1).
  generalize dependent (shift_film v false true self sigma). intros r1 _ Hi Hd1.
  assert (Hns1 : nonsingular (ref_lattice (interface (res_self r1)))) by now rewrite Hi.
  destruct (frac_shift_of_cartesian (res_self r1) (vneg v) Hns1)
    as [[Hlt Hf]|[Hge (f & _ & Hf)]];
    unfold vneg, vz in Hlt || unfold vneg, vz in Hge; cbn [snd] in *;
    unfold shift_film, raised; rewrite Hf; cbn.
  - split; [split; [intros _; exact Hlt | reflexivity]|].
    split; [discriminate|]. intros _. split; [reflexivity | exact Hd1].
  - split; [split; [discriminate | intros Hlt; contradiction]|].
    split; [|discriminate]. intros _. rewrite Hd1. unfold vneg, vz; cbn [snd]. ring.
Qed.

Lemma shift_film_round_trip_witness :
  raised (shift_film (0, 0, 1) false true Examples.self_2 Examples.store_2) = false
  /\ raised
       (shift_film (vneg (0, 0, 1)) false true
          (res_self (shift_film (0, 0, 1) false true Examples.self_2 Examples.store_2))
          (res_store (shift_film (0, 0, 1) false true Examples.self_2 Examples.store_2)))
     = false
  /\ interfacial_distance
       (res_self
          (shift_film (vneg (0, 0, 1)) false true
             (res_self (shift_film (0, 0, 1) false true Examples.self_2 Examples.store_2))
             (res_store (shift_film (0, 0, 1) false true Examples.self_2 Examples.store_2))))
     == interfacial_distance Examples.self_2.
Proof.
  assert (H1 : raised (shift_film (0, 0, 1) false true Examples.self_2 Examples.store_2)
               = false) by (vm_compute; reflexivity).
  assert (H2 : raised
                 (shift_film (vneg (0, 0, 1)) false true
                    (res_self (shift_film (0, 0, 1) false true
                                 Examples.self_2 Examples.store_2))
                    (res_store (shift_film (0, 0, 1) false true
                                  Examples.self_2 Examples.store_2)))
               = false) by (vm_compute; reflexivity).
  split; [exact H1|]. split; [exact H2|].
  exact (proj1 (proj2 (shift_film_round_trip Examples.self_2 Examples.store_2
                         (0, 0, 1) H1)) H2).
Defined.

(** C8 as stated fails.  With [interfacial_distance = 0.3] the shift
    [[0, 0, 1]] is accepted (the distance becomes 1.3), the shift back is
    refused by the guard (it would give 0.3), and [interfacial_distance]
    stays at 1.3. *)
Lemma shift_film_round_trip_counterexample :
  let r1 := shift_film (0, 0, 1) false true Examples.self_03 Examples.store_2 in
  let r2 := shift_film (vneg (0, 0, 1)) false true (res_self r1) (res_store r1) in
  raised r1 = false
  /\ res_outcome r2 = Raised ValueError
  /\ interfacial_distance (res_self r2) == 13 # 10
  /\ ~ interfacial_distance (res_self r2) == interfacial_distance Examples.self_03.
Proof.
  cbv zeta. repeat split; try (vm_compute; reflexivity).
  intros H. vm_compute in H. discriminate.
Qed.

End ShiftFilmCopies.

(* ===================================================================== *)
(** * Part VIII: properties of [_stack_interface] *)
(* ===================================================================== *)

Section SplitViews.
Import Num Pmg Surfaces.
Local Open Scope Q_scope.

Lemma remove_rows_from_mask (mask : PeriodicSite -> bool) (indices : list nat)
  (rows : list PeriodicSite) (i : nat) :
  (forall k r, rows !! k = Some r -> existsb (Nat.eqb (i + k)) indices = mask r) ->
  remove_rows_from i indices rows = List.filter (fun r => negb (mask r)) rows.
Proof.
  revert i; induction rows as [|s rows IH]; intros i Hmask; simpl; [reflexivity|].
  pose proof (Hmask 0%nat s eq_refl) as H0. rewrite Nat.add_0_r in H0. rewrite H0.
  assert (Hrest : remove_rows_from (S i) indices rows
                  = List.filter (fun r => negb (mask r)) rows).
  { apply IH. intros k r Hk. rewrite <- (Hmask (S k) r Hk).
    now replace (S i + k)%nat with (i + S k)%nat by lia. }
  destruct (mask s); simpl; now rewrite Hrest.
Qed.

Lemma np_where_existsb (mask : PeriodicSite -> bool) (rows : list PeriodicSite)
  (k : nat) (r : PeriodicSite) :
  rows !! k = Some r -> existsb (Nat.eqb k) (np_where mask rows) = mask r.
Proof.
  intros Hk. unfold np_where.
  destruct (mask r) eqn:Em.
  - apply existsb_exists. exists k. split; [|apply Nat.eqb_refl].
    apply filter_In. split.
    + apply in_seq. apply lookup_lt_Some in Hk. lia.
    + now rewrite Hk.
  - destruct (existsb _ _) eqn:Ee; [|reflexivity].
    apply existsb_exists in Ee. destruct Ee as (j & Hj & Hjk).
    apply Nat.eqb_eq in Hjk; subst j.
    apply filter_In in Hj. destruct Hj as [_ Hj]. rewrite Hk in Hj. congruence.
Qed.

Lemma remove_sites_np_where (mask : PeriodicSite -> bool) (s : Structure) :
  sites (remove_sites (np_where mask (sites s)) s)
  = List.filter (fun r => negb (mask r)) (sites s).
Proof.
  unfold remove_sites; simpl. apply remove_rows_from_mask.
  intros k r Hk. simpl. now apply np_where_existsb.
Qed.

(** The two views of lines 562-571 as masks. *)
Lemma split_views_spec (h : Q) (s : Structure) :
  sites (primitive_film h s)
  = List.filter (fun x => negb (Qltb (site_z x) h)) (sites s)
  /\ sites (primitive_sub h s)
     = List.filter (fun x => negb (Qltb h (site_z x))) (sites s)
  /\ (forall x, In x (sites (primitive_film h s)) <-> In x (sites s) /\ h <= site_z x)
  /\ (forall x, In x (sites (primitive_sub h s)) <-> In x (sites s) /\ site_z x <= h).
Proof.
  assert (Hf : sites (primitive_film h s)
               = List.filter (fun x => negb (Qltb (site_z x) h)) (sites s))
    by apply remove_sites_np_where.
  assert (Hs : sites (primitive_sub h s)
               = List.filter (fun x => negb (Qltb h (site_z x))) (sites s))
    by apply remove_sites_np_where.
  split; [exact Hf|]. split; [exact Hs|]. split.
  - intros x. rewrite Hf, filter_In, negb_true_iff, Qltb_ge. reflexivity.
  - intros x. rewrite Hs, filter_In, negb_true_iff, Qltb_ge. reflexivity.
Qed.

(** X26.  The views of lines 562-571 are built by removal: [film_part] is
    the interface without the sites strictly below [interface_height], and
    [sub_part] the interface without the sites strictly above it.  Every
    site of the interface is in at least one view, and it is in both
    exactly when its height equals [interface_height]. *)
Theorem split_views_cover (h : Q) (s : Structure) :
  sites (primitive_film h s)
  = List.filter (fun x => negb (Qltb (site_z x) h)) (sites s)
  /\ sites (primitive_sub h s)
     = List.filter (fun x => negb (Qltb h (site_z x))) (sites s)
  /\ (forall x, In x (sites (primitive_film h s)) <-> In x (sites s) /\ h <= site_z x)
  /\ (forall x, In x (sites (primitive_sub h s)) <-> In x (sites s) /\ site_z x <= h)
  /\ (forall x, In x (sites s) ->
        In x (sites (primitive_film h s)) \/ In x (sites (primitive_sub h s)))
  /\ (forall x, In x (sites s) ->
        (In x (sites (primitive_film h s)) /\ In x (sites (primitive_sub h s))
         <-> site_z x == h)).
Proof.
  destruct (split_views_spec h s) as (Hf & Hs & Hfin & Hsin).
  repeat split; try assumption; try (now apply Hfin); try (now apply Hsin).
  - intros x Hx. rewrite Hfin, Hsin.
    destruct (Qlt_le_dec (site_z x) h) as [Hlt|Hge].
    + right. split; [assumption | now apply Qlt_le_weak].
    + left. split; assumption.
  - rewrite Hfin, Hsin. intros [[_ H1] [_ H2]]. now apply Qle_antisym.
  - apply Hfin. split; [assumption|]. rewrite H0. apply Qle_refl.
  - apply Hsin. split; [assumption|]. rewrite H0. apply Qle_refl.
Qed.

(** A site exactly at the height is kept in both views: with
    [interface_height = 1/2] the oxygen site at height [1/2] is neither
    strictly above nor strictly below the boundary. *)
Lemma boundary_site_in_both_views :
  In Examples.mid_site (sites Examples.boundary_structure)
  /\ ~ (1 # 2 < site_z Examples.mid_site)
  /\ ~ (site_z Examples.mid_site < 1 # 2)
  /\ In Examples.mid_site (sites (primitive_film (1 # 2) Examples.boundary_structure))
  /\ In Examples.mid_site (sites (primitive_sub (1 # 2) Examples.boundary_structure)).
Proof.
  repeat split.
  - simpl; tauto.
  - vm_compute. discriminate.
  - vm_compute. discriminate.
  - vm_compute. tauto.
  - vm_compute. tauto.
Qed.

End SplitViews.

Section StackCounts.
Import Num Pmg Surfaces.
Local Open Scope Q_scope.

Variable norm : vec3 -> Q.
Variable get_reduced_structure : Structure -> Structure.
Variable get_conventional_standard_structure : Structure -> Structure.
Variable get_primitive_structure : Structure -> Structure.

(** The stacked structure of line 516 holds the sites of the two strained
    slabs. *)
Lemma stacked_structure_num_sites (strained_sub strained_film : Structure)
  (vacuum d : Q) (s : Structure) (h : Q) :
  stacked_structure norm strained_sub strained_film vacuum d = Some (s, h) ->
  num_sites s = (num_sites strained_sub + num_sites strained_film)%nat.
Proof.
  unfold stacked_structure.
  repeat (match goal with
          | |- context [np_min ?l] => destruct (np_min l); simpl; [|discriminate]
          | |- context [np_max ?l] => destruct (np_max l); simpl; [|discriminate]
          end).
  intros H; inversion H; subst; clear H.
  unfold make_structure, num_sites; simpl.
  rewrite length_zip_with. rewrite !length_app, !length_map. lia.
Qed.

Lemma flip_structure_num_sites (s : Structure) :
  num_sites (flip_structure s) = num_sites s.
Proof. unfold flip_structure, num_sites; simpl. apply length_map. Qed.

Lemma orient_num_sites (sub_sp film_sp : list String.string) (s : Structure) :
  num_sites (orient sub_sp film_sp s) = num_sites s.
Proof.
  unfold orient; simpl.
  destruct (nan_ltb _ _); [apply flip_structure_num_sites | reflexivity].
Qed.

Lemma translate_rows_length (indices : list nat) (vector : vec3) (rows : list PeriodicSite) :
  length (translate_rows indices vector rows) = length rows.
Proof.
  unfold translate_rows. revert rows.
  induction indices as [|i l IH]; intros rows; simpl; [reflexivity|].
  now rewrite IH, length_alter.
Qed.

Lemma recenter_num_sites (center : bool) (h : Q) (s : Structure) :
  num_sites (fst (recenter center h s)) = num_sites s.
Proof.
  unfold recenter. destruct center; simpl; [|reflexivity].
  unfold num_sites; simpl. apply translate_rows_length.
Qed.

(** The site count of the finalized interface is the count that the three
    pymatgen reductions of lines 523-527 give back on the stacked
    structure: stacking, orientation and centring keep every site. *)
Lemma stack_interface_num_sites (strained_sub strained_film : Structure)
  (sub_sp film_sp : list String.string) (vacuum d : Q) (center : bool) (st : Stacked) :
  stack_interface norm get_reduced_structure get_conventional_standard_structure
                  get_primitive_structure strained_sub strained_film sub_sp film_sp
                  vacuum d center = Some st ->
  exists s h,
    stacked_structure norm strained_sub strained_film vacuum d = Some (s, h)
    /\ num_sites s = (num_sites strained_sub + num_sites strained_film)%nat
    /\ num_sites (st_interface st)
       = num_sites (refine get_reduced_structure get_conventional_standard_structure
                           get_primitive_structure s).
Proof.
  unfold stack_interface.
  destruct (stacked_structure norm strained_sub strained_film vacuum d)
    as [[s h]|] eqn:E; simpl; [|discriminate].
  destruct (recenter center h _) as [p h'] eqn:Er.
  intros H; inversion H; subst; clear H. simpl.
  exists s, h. split; [reflexivity|]. split.
  - eapply stacked_structure_num_sites; eassumption.
  - change p with (fst (p, h')). rewrite <- Er.
    now rewrite recenter_num_sites, orient_num_sites.
Qed.

(** The views returned by [_stack_interface] are the views of the
    finalized interface at the final [interface_height]. *)
Lemma stack_interface_views (strained_sub strained_film : Structure)
  (sub_sp film_sp : list String.string) (vacuum d : Q) (center : bool) (st : Stacked) :
  stack_interface norm get_reduced_structure get_conventional_standard_structure
                  get_primitive_structure strained_sub strained_film sub_sp film_sp
                  vacuum d center = Some st ->
  st_sub_part st = primitive_sub (st_interface_height st) (st_interface st)
  /\ st_film_part st = primitive_film (st_interface_height st) (st_interface st).
Proof.
  unfold stack_interface.
  destruct (stacked_structure norm strained_sub strained_film vacuum d)
    as [[s h]|]; simpl; [|discriminate].
  destruct (recenter center h _) as [p h'].
  intros H; inversion H; subst; clear H. simpl. auto.
Qed.

End StackCounts.

(* ===================================================================== *)
(** * Part IX: properties of the registration landscape *)
(* ===================================================================== *)

Section ScoreParams.
Import Num Pmg Landscape.
Local Open Scope Q_scope.

Variable sqrt_nonneg : Q -> Q.
Variable pi : Q.
Variable exp : Q -> Q.

(** A pair whose vertical separation exceeds the sum of its radii gets
    [nan] from line 841: the argument of [np.sqrt] is negative. *)
Lemma overlap_r_out_of_contact (M : Lattice) (p : pair_row) :
  0 <= pr_r1 p + pr_r2 p ->
  out_of_contact M p ->
  overlap_r sqrt_nonneg M p = NaN.
Proof.
  unfold out_of_contact, overlap_r, np_sqrt. intros Hr Hout.
  set (z := vz (get_cartesian_coords M (pr_shift p))) in *.
  set (r := pr_r1 p + pr_r2 p) in *.
  assert (Hneg : r ^ 2 - z ^ 2 < 0).
  { revert Hout. apply Qabs_case; intros Hz Hout.
    - assert (0 < (z - r) * (z + r)) by (apply Qmult_lt_0_compat; lra).
      simpl. lra.
    - assert (0 < (- z - r) * (- z + r)) by (apply Qmult_lt_0_compat; lra).
      simpl. lra. }
  apply Qltb_lt in Hneg. now rewrite Hneg.
Qed.

(** A pair in contact gets the finite radius of the contact disc. *)
Lemma overlap_r_in_contact (M : Lattice) (p : pair_row) :
  0 <= (pr_r1 p + pr_r2 p) ^ 2 - vz (get_cartesian_coords M (pr_shift p)) ^ 2 ->
  overlap_r sqrt_nonneg M p
  = Fin (sqrt_nonneg ((pr_r1 p + pr_r2 p) ^ 2
                      - vz (get_cartesian_coords M (pr_shift p)) ^ 2)).
Proof.
  intros H. unfold overlap_r, np_sqrt.
  apply Qltb_ge in H. now rewrite H.
Qed.

Lemma nf_max_fold_nan (col : list npfloat) : fold_left nf_max2 col NaN = NaN.
Proof. induction col as [|x col IH]; simpl; [reflexivity | exact IH]. Qed.

Lemma nf_max_fold_poisoned (col : list npfloat) (x0 : npfloat) :
  In NaN col -> fold_left nf_max2 col x0 = NaN.
Proof.
  revert x0; induction col as [|x col IH]; intros x0; simpl; [tauto|].
  intros [->|Hin].
  - destruct x0; simpl; apply nf_max_fold_nan.
  - now apply IH.
Qed.

Lemma nf_max_poisoned (col : list npfloat) (m : npfloat) :
  In NaN col -> nf_max col = Some m -> m = NaN.
Proof.
  destruct col as [|x col]; simpl; [tauto|].
  intros [->|Hin] H; inversion H; subst.
  - apply nf_max_fold_nan.
  - now apply nf_max_fold_poisoned.
Qed.

(** One [nan] poisons the whole array: [scales.max()] is [nan], and so is
    every amplitude after [scales /= scales.max()]. *)
Lemma params_of_rows_poisoned (M : Lattice) (rows : list pair_row) (p : pair_row)
  (gs : list gaussian) :
  In p rows ->
  overlap_r sqrt_nonneg M p = NaN ->
  params_of_rows sqrt_nonneg pi M rows = Some gs ->
  List.Forall (fun g => scale g = NaN) gs.
Proof.
  intros Hin Hnan. unfold params_of_rows.
  destruct (nf_max _) as [m|] eqn:Em; simpl; [|discriminate].
  assert (m = NaN).
  { eapply nf_max_poisoned; [|exact Em].
    apply in_map_iff. exists p. split; [|assumption].
    now rewrite Hnan. }
  subst m. intros H; inversion H; subst; clear H.
  apply List.Forall_forall. intros g Hg. apply in_map_iff in Hg.
  destruct Hg as (q & <- & _). simpl.
  destruct (raw_scale pi (overlap_r sqrt_nonneg M q)); reflexivity.
Qed.

End ScoreParams.

Section ScoreClaims.
Import Num Pmg Landscape.
Local Open Scope Q_scope.

(** C6 (evaluation at the failing input).  For a substrate atom and a film
    atom of radius 1 whose heights differ by 3, [_get_score_function_params]
    returns nine Gaussians (one per periodic image) whose width and
    amplitude are [nan], and the row each adds to the landscape is [nan] at
    every point, not zero; [_get_score_function_params_old] gives [nan] as
    well.  [overlap_film_sub_single] sets the same pair to zero. *)
Theorem out_of_contact_pair_is_nan (sqrt_nonneg : Q -> Q) (pi : Q) (exp : Q -> Q) :
  exists gs gs_old,
    get_score_function_params sqrt_nonneg pi Examples.far_coords Examples.tall_lattice
                              [0%nat] [1%nat] Examples.far_radii 0 0 = Some gs
    /\ get_score_function_params_old sqrt_nonneg pi Examples.far_coords
         Examples.tall_lattice [0%nat] [1%nat] Examples.far_radii 0 0 = Some gs_old
    /\ length gs = 9%nat
    /\ List.Forall (fun g => sigma g = NaN /\ scale g = NaN
                             /\ forall x y, generate_PES_row pi exp x y g = NaN
                             /\ generate_PES_row pi exp x y g <> Fin 0) gs
    /\ List.Forall (fun g => sigma g = NaN /\ scale g = NaN) gs_old
    /\ overlap_film_sub_single_at pi 3 1 1 = 0.
Proof.
  eexists. eexists.
  split; [vm_compute; reflexivity|].
  split; [vm_compute; reflexivity|].
  split; [reflexivity|].
  split; [|split].
  - repeat constructor; discriminate.
  - repeat constructor.
  - reflexivity.
Qed.

End ScoreClaims.

(* ===================================================================== *)
(** * Part X: properties of the ranking of the basins *)
(* ===================================================================== *)

Section UniqueFacts.
Import Num Landscape.
Local Open Scope Q_scope.

Lemma Qeq_bool_refl (x : Q) : Qeq_bool x x = true.
Proof. apply Qeq_bool_iff. reflexivity. Qed.

Lemma insert_unique_In (x : Q) (l : list Q) (u : Q) :
  In u (insert_unique x l) -> u = x \/ In u l.
Proof.
  induction l as [|y l IH]; simpl.
  - intros [<-|[]]; auto.
  - destruct (Qltb x y); [simpl; intros [<-|H]; auto|].
    destruct (Qeq_bool x y); [simpl; auto|].
    simpl. intros [<-|H]; auto. destruct (IH H); auto.
Qed.

Lemma insert_unique_keeps (x : Q) (l : list Q) (y : Q) :
  In y l -> In y (insert_unique x l).
Proof.
  induction l as [|z l IH]; simpl; [tauto|].
  intros Hy. destruct (Qltb x z); [simpl; auto|].
  destruct (Qeq_bool x z); [exact Hy|].
  destruct Hy as [->|Hy]; simpl; auto.
Qed.

Lemma insert_unique_has (x : Q) (l : list Q) :
  exists u, In u (insert_unique x l) /\ u == x.
Proof.
  induction l as [|y l IH]; simpl.
  - exists x; split; [now left | reflexivity].
  - destruct (Qltb x y) eqn:E1; [exists x; split; [now left | reflexivity]|].
    destruct (Qeq_bool x y) eqn:E2.
    + apply Qeq_bool_iff in E2. exists y; split; [now left | now symmetry].
    + destruct IH as (u & Hu & Hux). exists u; split; [now right | assumption].
Qed.

Lemma insert_unique_sorted (x : Q) (l : list Q) :
  StronglySorted Qle l -> StronglySorted Qle (insert_unique x l).
Proof.
  induction l as [|y l IH]; intros Hs; simpl.
  - repeat constructor.
  - inversion Hs as [|? ? Hs' Hall]; subst.
    destruct (Qltb x y) eqn:E1.
    + apply Qltb_lt in E1. constructor; [assumption|].
      constructor; [now apply Qlt_le_weak|].
      eapply List.Forall_impl; [|exact Hall].
      intros z Hz. apply Qle_trans with y; [now apply Qlt_le_weak | assumption].
    + destruct (Qeq_bool x y); [assumption|].
      apply Qltb_ge in E1. constructor; [now apply IH|].
      apply List.Forall_forall. intros z Hz.
      destruct (insert_unique_In _ _ _ Hz) as [->|Hz']; [assumption|].
      rewrite List.Forall_forall in Hall. now apply Hall.
Qed.

Lemma np_unique_sorted (vals : list Q) : StronglySorted Qle (np_unique vals).
Proof.
  induction vals as [|x vals IH]; simpl; [constructor|].
  now apply insert_unique_sorted.
Qed.

Lemma np_unique_In (vals : list Q) (u : Q) : In u (np_unique vals) -> In u vals.
Proof.
  induction vals as [|x vals IH]; simpl; [tauto|].
  intros H. destruct (insert_unique_In _ _ _ H) as [->|H']; auto.
Qed.

Lemma np_unique_has (vals : list Q) (x : Q) :
  In x vals -> exists u, In u (np_unique vals) /\ u == x.
Proof.
  induction vals as [|y vals IH]; simpl; [tauto|].
  intros [->|Hx].
  - apply insert_unique_has.
  - destruct (IH Hx) as (u & Hu & Hux).
    exists u; split; [now apply insert_unique_keeps | assumption].
Qed.

(** [unique[0]] is the least of the values. *)
Lemma np_unique_head_min (vals : list Q) (u : Q) :
  head (np_unique vals) = Some u ->
  In u vals /\ forall x, In x vals -> u <= x.
Proof.
  intros Hh. pose proof (np_unique_sorted vals) as Hs.
  destruct (np_unique vals) as [|u' l] eqn:E; [discriminate|].
  simpl in Hh; inversion Hh; subst u'; clear Hh.
  split.
  - apply np_unique_In. rewrite E. now left.
  - intros x Hx. destruct (np_unique_has vals x Hx) as (w & Hw & Hwx).
    rewrite E in Hw. inversion Hs as [|? ? _ Hall]; subst.
    destruct Hw as [<-|Hw].
    + rewrite Hwx. apply Qle_refl.
    + rewrite List.Forall_forall in Hall. rewrite <- Hwx. now apply Hall.
Qed.

Lemma np_unique_head_some (vals : list Q) :
  vals <> [] -> exists u, head (np_unique vals) = Some u.
Proof.
  destruct vals as [|x vals]; [congruence|]. intros _.
  destruct (insert_unique_has x (np_unique vals)) as (u & Hu & _).
  simpl. destruct (insert_unique x (np_unique vals)) as [|w l]; [contradiction|].
  eauto.
Qed.

Lemma argmin_from_spec (vals : list Q) (best_i : nat) (best : Q) (i : nat) :
  exists v,
    ((argmin_from best_i best i vals = best_i /\ v = best)
     \/ exists k, argmin_from best_i best i vals = (i + k)%nat /\ vals !! k = Some v)
    /\ v <= best
    /\ forall x, In x vals -> v <= x.
Proof.
  revert best_i best i; induction vals as [|x vals IH]; intros best_i best i; simpl.
  - exists best. split; [left; auto|]. split; [apply Qle_refl | tauto].
  - destruct (Qltb x best) eqn:E.
    + apply Qltb_lt in E.
      destruct (IH i x (S i)) as (v & Hpos & Hvx & Hall).
      exists v. split; [|split].
      * right. destruct Hpos as [[H1 ->]|(k & H1 & H2)].
        -- exists 0%nat. rewrite Nat.add_0_r. auto.
        -- exists (S k). rewrite H1. split; [lia | exact H2].
      * lra.
      * intros y [<-|Hy]; auto.
    + apply Qltb_ge in E.
      destruct (IH best_i best (S i)) as (v & Hpos & Hvb & Hall).
      exists v. split; [|split].
      * destruct Hpos as [H1|(k & H1 & H2)]; [left; exact H1|].
        right. exists (S k). rewrite H1. split; [lia | exact H2].
      * assumption.
      * intros y [<-|Hy]; [lra | auto].
Qed.

Lemma np_argmin_spec (vals : list Q) :
  vals <> [] ->
  exists j v, np_argmin vals = Some j /\ vals !! j = Some v
              /\ forall x, In x vals -> v <= x.
Proof.
  destruct vals as [|x vals]; [congruence|]. intros _.
  destruct (argmin_from_spec vals 0 x 1) as (v & Hpos & Hvx & Hall).
  exists (argmin_from 0 x 1 vals), v. split; [reflexivity|]. split.
  - destruct Hpos as [[-> ->]|(k & -> & Hk)]; [reflexivity | exact Hk].
  - intros y [<-|Hy]; auto.
Qed.

Lemma argmax_from_spec_Q (vals : list Q) (best_i : nat) (best : Q) (i : nat) :
  exists v,
    ((Landscape.argmax_from best_i best i vals = best_i /\ v = best)
     \/ exists k, Landscape.argmax_from best_i best i vals = (i + k)%nat
                  /\ vals !! k = Some v)
    /\ best <= v
    /\ forall x, In x vals -> x <= v.
Proof.
  revert best_i best i; induction vals as [|x vals IH]; intros best_i best i; simpl.
  - exists best. split; [left; auto|]. split; [apply Qle_refl | tauto].
  - destruct (Qltb best x) eqn:E.
    + apply Qltb_lt in E.
      destruct (IH i x (S i)) as (v & Hpos & Hvx & Hall).
      exists v. split; [|split].
      * right. destruct Hpos as [[H1 ->]|(k & H1 & H2)].
        -- exists 0%nat. rewrite Nat.add_0_r. auto.
        -- exists (S k). rewrite H1. split; [lia | exact H2].
      * lra.
      * intros y [<-|Hy]; auto.
    + apply Qltb_ge in E.
      destruct (IH best_i best (S i)) as (v & Hpos & Hvb & Hall).
      exists v. split; [|split].
      * destruct Hpos as [H1|(k & H1 & H2)]; [left; exact H1|].
        right. exists (S k). rewrite H1. split; [lia | exact H2].
      * assumption.
      * intros y [<-|Hy]; [lra | auto].
Qed.

Lemma np_argmax_spec (vals : list Q) :
  vals <> [] ->
  exists j v, np_argmax vals = Some j /\ vals !! j = Some v
              /\ forall x, In x vals -> x <= v.
Proof.
  destruct vals as [|x vals]; [congruence|]. intros _.
  destruct (argmax_from_spec_Q vals 0 x 1) as (v & Hpos & Hvx & Hall).
  exists (Landscape.argmax_from 0 x 1 vals), v. split; [reflexivity|]. split.
  - destruct Hpos as [[-> ->]|(k & -> & Hk)]; [reflexivity | exact Hk].
  - intros y [<-|Hy]; auto.
Qed.

End UniqueFacts.

Section RankingFacts.
Import Num Pmg Landscape.
Local Open Scope Q_scope.

Lemma In_lookup {A : Type} (l : list A) (x : A) :
  In x l <-> exists i, l !! i = Some x.
Proof. rewrite <- list_elem_of_In. apply list_elem_of_lookup. Qed.

Lemma np_where_In {A : Type} (mask : A -> bool) (rows : list A) (k : nat) :
  In k (np_where mask rows) <-> exists r, rows !! k = Some r /\ mask r = true.
Proof.
  unfold np_where. rewrite filter_In, in_seq. split.
  - intros [_ H]. destruct (rows !! k) as [r|]; [eauto | discriminate].
  - intros (r & Hr & Hm). split.
    + apply lookup_lt_Some in Hr. lia.
    + now rewrite Hr.
Qed.

Lemma nearest_in_group_spec (mc : list basin) (g : list nat) :
  g <> [] ->
  (forall k, In k g -> is_Some (mc !! k)) ->
  exists i, nearest_in_group mc g = Some i /\ nearest_ok mc g i.
Proof.
  intros Hne Hvalid. unfold nearest_in_group, take_rows.
  assert (Hsome : is_Some (mapM (fun i => mc !! i) g)).
  { apply mapM_is_Some_2. apply List.Forall_forall. intros k Hk. now apply Hvalid. }
  destruct Hsome as [rows Hrows]. rewrite Hrows. cbn [mbind option_bind].
  pose proof (mapM_Some_1 _ _ _ Hrows) as HF2.
  assert (Hrne : map dist_sq rows <> []).
  { pose proof (Forall2_length _ _ _ HF2) as Hlen.
    destruct rows; [destruct g; [congruence | discriminate] | discriminate]. }
  destruct (np_argmin_spec _ Hrne) as (j & v & Hj & Hjv & Hmin).
  rewrite Hj. cbn [mbind option_bind].
  apply lookup_map_Some in Hjv. destruct Hjv as (r & Hr & ->).
  destruct (Forall2_lookup_r _ _ _ _ _ HF2 Hr) as (i & Hi & Hmi).
  exists i. split; [exact Hi|]. split.
  - apply In_lookup. eauto.
  - exists r. split; [exact Hmi|].
    intros k b Hk Hb. apply In_lookup in Hk. destruct Hk as [p Hp].
    destruct (Forall2_lookup_l _ _ _ _ _ HF2 Hp) as (b' & Hb' & Hkb').
    rewrite Hb in Hkb'. inversion Hkb'; subst b'.
    apply Hmin. apply in_map. apply In_lookup. eauto.
Qed.

End RankingFacts.

Section RankingClaims.
Import Num Pmg Landscape.
Local Open Scope Q_scope.

(** The rows kept by lines 1612-1618. *)
Lemma degenerate_min_rows_spec (basins : list basin) :
  basins <> [] ->
  exists u mc,
    degenerate_min_rows basins = Some mc
    /\ mc <> []
    /\ (forall b, In b basins -> u <= rank_1 b)
    /\ (forall b, In b mc <-> In b basins /\ rank_1 b == u).
Proof.
  intros Hne. unfold degenerate_min_rows.
  assert (Hm : map rank_1 basins <> []) by (destruct basins; [congruence | discriminate]).
  destruct (np_unique_head_some _ Hm) as [u Hu]. rewrite Hu. cbn [mbind option_bind].
  destruct (np_unique_head_min _ _ Hu) as [Hin Hmin].
  exists u, (List.filter (fun b => Qeq_bool (rank_1 b) u) basins).
  assert (Hspec : forall b, In b (List.filter (fun b => Qeq_bool (rank_1 b) u) basins)
                            <-> In b basins /\ rank_1 b == u).
  { intros b. rewrite filter_In, Qeq_bool_iff. reflexivity. }
  split; [reflexivity|]. split; [|split].
  - apply in_map_iff in Hin. destruct Hin as (b0 & Hb0 & Hb0in).
    intros Hnil. assert (In b0 (List.filter (fun b => Qeq_bool (rank_1 b) u) basins)).
    { apply Hspec. split; [assumption|]. rewrite Hb0. reflexivity. }
    rewrite Hnil in H. contradiction.
  - intros b Hb. apply Hmin. now apply in_map.
  - exact Hspec.
Qed.

(** Lines 1619-1625 on the kept rows. *)
Lemma pick_in_min_rows (mc : list basin) :
  mc <> [] ->
  exists r,
    (unique_shift_inds ←
       mapM (nearest_in_group mc)
            (map (fun u => np_where (fun b => Qeq_bool (rank_2 b) u) mc)
                 (np_unique (map rank_2 mc)));
     picked ← take_rows (map rank_2 mc) unique_shift_inds;
     j ← np_argmax picked;
     min_shift_inds ← unique_shift_inds !! j;
     mc !! min_shift_inds) = Some r
    /\ In r mc
    /\ (forall b, In b mc -> rank_2 b <= rank_2 r)
    /\ (forall b, In b mc -> rank_2 b == rank_2 r -> dist_sq r <= dist_sq b).
Proof.
  intros Hne.
  set (vals2 := map rank_2 mc).
  set (U := np_unique vals2).
  set (grp := fun u => np_where (fun b => Qeq_bool (rank_2 b) u) mc).
  set (groups := map grp U).
  (* every group is non-empty and holds valid indices *)
  assert (Hgroup : forall u, In u U ->
            exists i, nearest_in_group mc (grp u) = Some i /\ nearest_ok mc (grp u) i).
  { intros u Hu. apply nearest_in_group_spec.
    - apply np_unique_In in Hu. apply in_map_iff in Hu.
      destruct Hu as (b & Hb & Hbin). apply In_lookup in Hbin. destruct Hbin as [k Hk].
      intros Hnil. assert (Hin : In k (grp u)).
      { apply np_where_In. exists b. split; [assumption|].
        rewrite Hb. apply Qeq_bool_refl. }
      rewrite Hnil in Hin. contradiction.
    - intros k Hk. apply np_where_In in Hk. destruct Hk as (r & Hr & _). eauto. }
  assert (Hsome : is_Some (mapM (nearest_in_group mc) groups)).
  { apply mapM_is_Some_2. apply List.Forall_forall. intros g Hg.
    apply in_map_iff in Hg. destruct Hg as (u & <- & Hu).
    destruct (Hgroup u Hu) as (i & Hi & _). simpl. eauto. }
  destruct Hsome as [usi Husi]. rewrite Husi. cbn [mbind option_bind].
  pose proof (mapM_Some_1 _ _ _ Husi) as HF2.
  (* what is known of the index chosen at position [p] *)
  assert (Hpos : forall p i, usi !! p = Some i ->
            exists u, U !! p = Some u /\ nearest_ok mc (grp u) i).
  { intros p i Hp.
    destruct (Forall2_lookup_r _ _ _ _ _ HF2 Hp) as (g & Hg & Hgi).
    apply lookup_map_Some in Hg. destruct Hg as (u & Hu & ->).
    exists u. split; [assumption|].
    destruct (Hgroup u) as (i' & Hi' & Hok); [apply In_lookup; eauto|].
    rewrite Hgi in Hi'. inversion Hi'; subst. assumption. }
  assert (Hrank : forall p i u, usi !! p = Some i -> U !! p = Some u ->
            exists c, mc !! i = Some c /\ rank_2 c == u
                      /\ forall k b, In k (grp u) -> mc !! k = Some b ->
                                     dist_sq c <= dist_sq b).
  { intros p i u Hp Hu. destruct (Hpos p i Hp) as (u' & Hu' & Hin & c & Hc & Hnear).
    rewrite Hu in Hu'. inversion Hu'; subst u'.
    exists c. split; [assumption|]. split; [|assumption].
    apply np_where_In in Hin. destruct Hin as (c' & Hc' & Hm).
    rewrite Hc in Hc'. inversion Hc'; subst c'. now apply Qeq_bool_iff. }
  (* the values picked at the chosen indices *)
  assert (Hpick : is_Some (take_rows vals2 usi)).
  { apply mapM_is_Some_2. apply List.Forall_forall. intros i Hi.
    apply In_lookup in Hi. destruct Hi as [p Hp].
    destruct (Hpos p i Hp) as (u & _ & _ & c & Hc & _). simpl.
    exists (rank_2 c). apply lookup_map_Some. eauto. }
  destruct Hpick as [picked Hpicked]. rewrite Hpicked. cbn [mbind option_bind].
  pose proof (mapM_Some_1 _ _ _ Hpicked) as HP2.
  assert (Hpne : picked <> []).
  { pose proof (Forall2_length _ _ _ HP2) as L1.
    pose proof (Forall2_length _ _ _ HF2) as L2.
    unfold groups in L2. rewrite length_map in L2.
    assert (HU : U <> []).
    { unfold U, vals2. destruct mc as [|b mc']; [congruence|].
      destruct (insert_unique_has (rank_2 b) (np_unique (map rank_2 mc'))) as (w & Hw & _).
      simpl. intros Hnil. rewrite Hnil in Hw. contradiction. }
    destruct U; [congruence|]. destruct usi; [discriminate|].
    destruct picked; [discriminate | discriminate]. }
  destruct (np_argmax_spec _ Hpne) as (j & v & Hj & Hjv & Hmax).
  rewrite Hj. cbn [mbind option_bind].
  destruct (Forall2_lookup_r _ _ _ _ _ HP2 Hjv) as (i & Hi & Hvi).
  rewrite Hi. cbn [mbind option_bind].
  destruct (Hpos j i Hi) as (uj & Huj & _).
  destruct (Hrank j i uj Hi Huj) as (r & Hr & Hruj & Hnear).
  assert (Hv : v = rank_2 r).
  { apply lookup_map_Some in Hvi. destruct Hvi as (r' & Hr' & ->).
    rewrite Hr in Hr'. now inversion Hr'. }
  exists r. split; [exact Hr|]. split; [apply In_lookup; eauto|]. split.
  - intros b Hb.
    destruct (np_unique_has vals2 (rank_2 b)) as (u & Hu & Hub); [now apply in_map|].
    apply In_lookup in Hu. destruct Hu as [p Hp].
    assert (Hg : groups !! p = Some (grp u)) by (apply lookup_map_Some; eauto).
    destruct (Forall2_lookup_l _ _ _ _ _ HF2 Hg) as (ip & Hip & _).
    destruct (Hrank p ip u Hip Hp) as (c & Hc & Hcu & _).
    destruct (Forall2_lookup_l _ _ _ _ _ HP2 Hip) as (x & Hx & Hxi).
    apply lookup_map_Some in Hxi. destruct Hxi as (c' & Hc' & ->).
    rewrite Hc in Hc'. inversion Hc'; subst c'.
    assert (rank_2 c <= v) by (apply Hmax; apply In_lookup; eauto).
    rewrite <- Hub, <- Hcu, <- Hv. assumption.
  - intros b Hb Hbr. apply In_lookup in Hb. destruct Hb as [k Hk].
    apply (Hnear k b); [|assumption].
    apply np_where_In. exists b. split; [assumption|].
    apply Qeq_bool_iff. rewrite Hbr. assumption.
Qed.

(** C5 (as the code has it).  On a non-empty array of basin
    representatives the ranking block returns a row [r]: its rounded primary
    value is the least; among the rows of least rounded primary value its
    rounded sum of primary and depth-corrected values is the greatest
    ([np.argmax] of line 1624); and among those it is nearest to the
    origin. *)
Theorem registration_ranking (basins : list basin) :
  basins <> [] ->
  exists r,
    min_center_orig basins = Some r
    /\ In r basins
    /\ (forall b, In b basins -> rank_1 r <= rank_1 b)
    /\ (forall b, In b basins -> rank_1 b == rank_1 r -> rank_2 b <= rank_2 r)
    /\ (forall b, In b basins -> rank_1 b == rank_1 r -> rank_2 b == rank_2 r ->
                  dist_sq r <= dist_sq b).
Proof.
  intros Hne.
  destruct (degenerate_min_rows_spec basins Hne) as (u & mc & Hmc & Hmcne & Hmin & Hin).
  destruct (pick_in_min_rows mc Hmcne) as (r & Hr & Hrin & Hmax & Hnear).
  unfold min_center_orig. rewrite Hmc. cbn [mbind option_bind].
  exists r. split; [exact Hr|].
  apply Hin in Hrin. destruct Hrin as [Hrb Hru].
  split; [assumption|]. split; [|split].
  - intros b Hb. rewrite Hru. now apply Hmin.
  - intros b Hb Hb1. apply Hmax. apply Hin. split; [assumption|].
    rewrite Hb1. assumption.
  - intros b Hb Hb1 Hb2. apply Hnear; [|assumption].
    apply Hin. split; [assumption|]. rewrite Hb1. assumption.
Qed.

Lemma registration_ranking_witness :
  [Examples.basin_low; Examples.basin_high] <> []
  /\ exists r,
       min_center_orig [Examples.basin_low; Examples.basin_high] = Some r
       /\ In r [Examples.basin_low; Examples.basin_high]
       /\ (forall b, In b [Examples.basin_low; Examples.basin_high] ->
                     rank_1 r <= rank_1 b)
       /\ (forall b, In b [Examples.basin_low; Examples.basin_high] ->
                     rank_1 b == rank_1 r -> rank_2 b <= rank_2 r)
       /\ (forall b, In b [Examples.basin_low; Examples.basin_high] ->
                     rank_1 b == rank_1 r -> rank_2 b == rank_2 r ->
                     dist_sq r <= dist_sq b).
Proof.
  split; [discriminate|].
  apply (registration_ranking [Examples.basin_low; Examples.basin_high]). discriminate.
Defined.

(** C5 as stated fails.  Of two basins with the same rounded primary value
    0.5 and rounded sums 0.6 and 0.8, the first is the lower one in the
    order of the claim, and the code returns the second. *)
Lemma registration_ranking_counterexample :
  ranks_below Examples.basin_low Examples.basin_high
  /\ ~ ranks_below Examples.basin_high Examples.basin_low
  /\ min_center_orig [Examples.basin_low; Examples.basin_high] = Some Examples.basin_high
  /\ min_center_orig [Examples.basin_high; Examples.basin_low] = Some Examples.basin_high.
Proof.
  split; [|split; [|split]].
  - right. left. split; vm_compute; reflexivity.
  - intros [H|[[_ H]|[_ [H _]]]]; vm_compute in H; discriminate.
  - vm_compute. reflexivity.
  - vm_compute. reflexivity.
Qed.

End RankingClaims.

(* ===================================================================== *)
(** * Part XI: the reduction of planes ([_float_gcd], lines 154-161) *)
(* ===================================================================== *)

Section FloatGcd.
Import Miller Num MillerReduce.
Local Open Scope Z_scope.

Lemma above_tolerance_zero (t : Z) : 0 <= t -> above_tolerance 0 t = false.
Proof.
  intros Ht. unfold above_tolerance. apply Qltb_ge.
  rewrite Zle_Qle in Ht. unfold rtol, atol.
  change (inject_Z (Z.abs 0)) with 0%Q. change (inject_Z 0) with 0%Q in Ht. lra.
Qed.

Lemma above_tolerance_nonzero (b t : Z) :
  0 <= t -> above_tolerance b t = true -> b <> 0.
Proof.
  intros Ht Hb ->. rewrite above_tolerance_zero in Hb by assumption. discriminate.
Qed.

(** Below [t = 10^5] the tolerance is less than 1: the loop test is
    [b != 0]. *)
Lemma above_tolerance_small (b t : Z) :
  0 <= t < 100000 -> above_tolerance b t = negb (b =? 0).
Proof.
  intros [Ht0 Ht]. destruct (Z.eqb_spec b 0) as [->|Hb]; simpl.
  - now apply above_tolerance_zero.
  - unfold above_tolerance. apply Qltb_lt.
    assert (H1 : 1 <= Z.abs b) by lia.
    assert (H2 : t <= 99999) by lia.
    rewrite Zle_Qle in H1. rewrite Zle_Qle in H2. rewrite Zle_Qle in Ht0.
    unfold rtol, atol.
    change (inject_Z 1) with 1%Q in H1. change (inject_Z 99999) with 99999%Q in H2.
    change (inject_Z 0) with 0%Q in Ht0. lra.
Qed.

Lemma float_gcd_loop_total (fuel : nat) (t a b : Z) :
  0 <= t -> Z.abs b < Z.of_nat fuel ->
  exists g, float_gcd_loop fuel t a b = Some g.
Proof.
  revert a b; induction fuel as [|fuel IH]; intros a b Ht Hb; [lia|].
  simpl. destruct (above_tolerance b t) eqn:E; [|eauto].
  apply IH; [assumption|].
  pose proof (above_tolerance_nonzero b t Ht E) as Hnz.
  pose proof (Z.mod_bound_abs a b Hnz). lia.
Qed.

Lemma float_gcd_loop_gcd (fuel : nat) (t a b g : Z) :
  0 <= t < 100000 ->
  float_gcd_loop fuel t a b = Some g -> Z.abs g = Z.gcd a b.
Proof.
  intros Ht. revert a b; induction fuel as [|fuel IH]; intros a b; simpl; [discriminate|].
  rewrite above_tolerance_small by assumption.
  destruct (Z.eqb_spec b 0) as [->|Hb]; simpl.
  - intros H; inversion H; subst. now rewrite Z.gcd_0_r.
  - intros H. apply IH in H. rewrite H.
    rewrite (Z.gcd_comm b (a mod b)), Z.gcd_mod by assumption. apply Z.gcd_comm.
Qed.

(** X1.  The loop of [_float_gcd] ends on all integers: [abs(b)] shrinks
    at every turn, so [abs(b) + 1] turns are enough. *)
Theorem float_gcd_terminates (a b : Z) : exists g, float_gcd a b = Some g.
Proof.
  unfold float_gcd. apply float_gcd_loop_total; lia.
Qed.

(** X2.  When the smaller of [abs(a)], [abs(b)] is below [10^5] the
    tolerance never cuts the loop short, and [_float_gcd] returns the
    greatest common divisor up to its sign. *)
Theorem float_gcd_is_gcd (a b : Z) :
  Z.min (Z.abs a) (Z.abs b) < 100000 ->
  exists g, float_gcd a b = Some g /\ Z.abs g = Z.gcd a b.
Proof.
  intros Ht. destruct (float_gcd_terminates a b) as [g Hg].
  exists g. split; [assumption|].
  unfold float_gcd in Hg. eapply float_gcd_loop_gcd; [|exact Hg]. lia.
Qed.

Lemma float_gcd_is_gcd_witness :
  Z.min (Z.abs 12) (Z.abs (-18)) < 100000
  /\ exists g, float_gcd 12 (-18) = Some g /\ Z.abs g = Z.gcd 12 (-18).
Proof.
  assert (H : Z.min (Z.abs 12) (Z.abs (-18)) < 100000) by (vm_compute; reflexivity).
  split; [exact H | exact (float_gcd_is_gcd 12 (-18) H)].
Defined.

Lemma gcd3_pos (p : plane) : p <> (0, 0, 0) -> 0 < gcd3 p.
Proof.
  destruct p as [[h k] l]. unfold gcd3, h_of, k_of, l_of; simpl. intros Hne.
  pose proof (Z.gcd_nonneg (Z.gcd h k) l).
  destruct (Z.eq_dec (Z.gcd (Z.gcd h k) l) 0) as [E|E]; [|lia].
  apply Z.gcd_eq_0 in E. destruct E as [E ->].
  apply Z.gcd_eq_0 in E. destruct E as [-> ->]. congruence.
Qed.

Lemma quot_exact_mul (x g : Z) : 0 < g -> (g | x) -> x = g * Z.quot x g.
Proof.
  intros Hg [c ->]. rewrite Z.quot_mul by lia. ring.
Qed.

Lemma gcd3_divides (p : plane) :
  (gcd3 p | h_of p) /\ (gcd3 p | k_of p) /\ (gcd3 p | l_of p).
Proof.
  unfold gcd3. repeat split.
  - eapply Z.divide_trans; [apply Z.gcd_divide_l | apply Z.gcd_divide_l].
  - eapply Z.divide_trans; [apply Z.gcd_divide_l | apply Z.gcd_divide_r].
  - apply Z.gcd_divide_r.
Qed.

(** X3.  For a plane other than the origin with components below [10^5]
    in absolute value, lines 159-160 give the plane divided by the greatest
    common divisor of its components: the reduced plane is primitive and the
    plane is that multiple of it. *)
Theorem reduced_plane_primitive (p : plane) :
  p <> (0, 0, 0) ->
  Z.abs (h_of p) < 100000 -> Z.abs (k_of p) < 100000 -> Z.abs (l_of p) < 100000 ->
  exists r,
    reduced_plane p = Some r
    /\ h_of p = gcd3 p * h_of r
    /\ k_of p = gcd3 p * k_of r
    /\ l_of p = gcd3 p * l_of r
    /\ gcd3 r = 1.
Proof.
  intros Hne Hh Hk Hl.
  destruct (float_gcd_is_gcd (h_of p) (k_of p)) as (g1 & Hg1 & Hg1v); [lia|].
  destruct (float_gcd_is_gcd g1 (l_of p)) as (g2 & Hg2 & Hg2v); [lia|].
  assert (Hg : Z.abs g2 = gcd3 p).
  { rewrite Hg2v. unfold gcd3. rewrite <- Hg1v. symmetry. apply Z.gcd_abs_l. }
  pose proof (gcd3_pos p Hne) as Hpos.
  destruct (gcd3_divides p) as (Dh & Dk & Dl).
  unfold reduced_plane, reduce_float_gcd. rewrite Hg1. cbn [mbind option_bind].
  rewrite Hg2. cbn [mbind option_bind]. rewrite Hg.
  destruct (Z.eqb_spec (gcd3 p) 0) as [E|_]; [lia|].
  eexists. split; [reflexivity|].
  unfold h_of at 2, k_of at 2, l_of at 2; cbn [fst snd].
  pose proof (quot_exact_mul _ _ Hpos Dh) as Eh.
  pose proof (quot_exact_mul _ _ Hpos Dk) as Ek.
  pose proof (quot_exact_mul _ _ Hpos Dl) as El.
  repeat split; try assumption.
  assert (Hmul : gcd3 p = gcd3 p * gcd3 (Z.quot (h_of p) (gcd3 p),
                                         Z.quot (k_of p) (gcd3 p),
                                         Z.quot (l_of p) (gcd3 p))).
  { unfold gcd3 at 1. rewrite Eh at 1. rewrite Ek at 1. rewrite El at 1.
    rewrite !Z.gcd_mul_mono_l_nonneg by lia. reflexivity. }
  set (r := gcd3 _) in *. nia.
Qed.

Lemma reduced_plane_primitive_witness :
  (2, -4, 6) <> (0, 0, 0)
  /\ exists r, reduced_plane (2, -4, 6) = Some r /\ gcd3 r = 1.
Proof.
  assert (H0 : ((2, -4, 6) : plane) <> (0, 0, 0)) by discriminate.
  destruct (reduced_plane_primitive (2, -4, 6) H0) as (r & Hr & _ & _ & _ & Hg);
    try (vm_compute; reflexivity).
  split; [exact H0|]. exists r. split; [exact Hr | exact Hg].
Defined.

End FloatGcd.

Section AllPlanes.
Import Miller Num MillerReduce.
Local Open Scope Z_scope.

Lemma index_range_In (m x : Z) : In x (index_range m) <-> - m <= x <= m.
Proof.
  unfold index_range. rewrite in_map_iff. split.
  - intros (i & <- & Hi). apply in_seq in Hi. lia.
  - intros Hx. exists (Z.to_nat (x + m)). split; [lia|]. apply in_seq. lia.
Qed.

Lemma all_planes_In (m : Z) (p : plane) :
  In p (all_planes m)
  <-> (- m <= h_of p <= m /\ - m <= k_of p <= m /\ - m <= l_of p <= m)
      /\ p <> (0, 0, 0).
Proof.
  unfold all_planes. rewrite filter_In, <- list_elem_of_In.
  rewrite list_elem_of_bind.
  assert (Hbox : (exists h, p ∈ (k ← index_range m; l ← index_range m; [(h, k, l)])
                            /\ h ∈ index_range m)
                 <-> (- m <= h_of p <= m /\ - m <= k_of p <= m /\ - m <= l_of p <= m)).
  { split.
    - intros (h & Hp & Hh). apply list_elem_of_bind in Hp. destruct Hp as (k & Hp & Hk).
      apply list_elem_of_bind in Hp. destruct Hp as (l & Hp & Hl).
      apply list_elem_of_singleton in Hp. subst p. unfold h_of, k_of, l_of; simpl.
      rewrite list_elem_of_In in Hh, Hk, Hl.
      apply index_range_In in Hh, Hk, Hl. auto.
    - intros (Hh & Hk & Hl). destruct p as [[h k] l]. unfold h_of, k_of, l_of in *.
      simpl in *. exists h. split; [|apply list_elem_of_In, index_range_In; assumption].
      apply list_elem_of_bind. exists k.
      split; [|apply list_elem_of_In, index_range_In; assumption].
      apply list_elem_of_bind. exists l.
      split; [|apply list_elem_of_In, index_range_In; assumption].
      apply list_elem_of_singleton. reflexivity. }
  rewrite Hbox. clear Hbox.
  assert (Hz : negb ((h_of p =? 0) && (k_of p =? 0) && (l_of p =? 0)) = true
               <-> p <> (0, 0, 0)).
  { destruct p as [[h k] l]. unfold h_of, k_of, l_of; simpl.
    rewrite negb_true_iff. split.
    - intros Hb E. inversion E; subst. discriminate.
    - intros Hne. destruct (Z.eqb_spec h 0), (Z.eqb_spec k 0), (Z.eqb_spec l 0);
        simpl; try reflexivity. subst. congruence. }
  rewrite Hz. reflexivity.
Qed.

(** X4.  For [max_index] below [10^5], every triple enumerated at lines
    154-155 reduces (lines 158-161) to a primitive plane that is itself one
    of the enumerated triples: the set of reduced planes is a subset of the
    raw planes, and none of its members is the origin. *)
Theorem enumerated_planes_reduce (max_index : Z) (p : plane) :
  max_index < 100000 ->
  In p (all_planes max_index) ->
  exists r,
    reduced_plane p = Some r /\ gcd3 r = 1 /\ In r (all_planes max_index).
Proof.
  intros Hm Hp. apply all_planes_In in Hp. destruct Hp as [(Hh & Hk & Hl) Hne].
  destruct (reduced_plane_primitive p Hne) as (r & Hr & Eh & Ek & El & Hg); try lia.
  exists r. split; [assumption|]. split; [assumption|].
  pose proof (gcd3_pos p Hne) as Hpos.
  apply all_planes_In. split.
  - repeat split; nia.
  - intros ->. vm_compute in Hg. discriminate.
Qed.

Lemma enumerated_planes_reduce_witness :
  2 < 100000
  /\ In (2, -2, 0) (all_planes 2)
  /\ exists r, reduced_plane (2, -2, 0) = Some r /\ gcd3 r = 1 /\ In r (all_planes 2).
Proof.
  assert (H1 : 2 < 100000) by reflexivity.
  assert (H2 : In ((2, -2, 0) : plane) (all_planes 2)).
  { apply all_planes_In. vm_compute. repeat split; discriminate. }
  split; [exact H1|]. split; [exact H2|].
  exact (enumerated_planes_reduce 2 (2, -2, 0) H1 H2).
Defined.

End AllPlanes.

(* ===================================================================== *)
(** * Part XII: the collapsing of equivalent planes (lines 165-182) *)
(* ===================================================================== *)

Section CollapseFacts.
Import Miller MillerReduce.

Variable images : plane -> list plane.

Lemma initial_dict_lookup (rp : list plane) (k : plane) :
  initial_dict rp !! k = if decide (k ∈ rp) then Some [] else None.
Proof.
  unfold initial_dict. induction rp as [|p rp IH]; simpl.
  - rewrite lookup_empty. destruct (decide (k ∈ [])) as [H|H]; [|reflexivity].
    inversion H.
  - destruct (decide (p = k)) as [->|Hne].
    + rewrite lookup_insert_eq. destruct (decide (k ∈ k :: rp)) as [_|H]; [reflexivity|].
      exfalso. apply H. left.
    + rewrite lookup_insert_ne by assumption. rewrite IH.
      destruct (decide (k ∈ rp)) as [H|H], (decide (k ∈ p :: rp)) as [H'|H'];
        try reflexivity.
      * exfalso. apply H'. now right.
      * apply elem_of_cons in H'. destruct H' as [->|H']; [congruence | contradiction].
Qed.

Lemma record_image_lookup (pl q k : plane) (d : gmap plane (list plane))
  (l0 : list plane) :
  d !! pl = Some l0 ->
  record_image pl d q !! k
  = if decide (k = pl) then Some (l0 ++ [q])
    else if decide (k = q) then None else d !! k.
Proof.
  intros Hpl. unfold record_image.
  destruct (decide (q = pl)) as [->|Hq].
  - destruct (decide (k = pl)) as [->|Hk].
    + now rewrite lookup_alter_eq, Hpl.
    + rewrite lookup_alter_ne by congruence. reflexivity.
  - destruct (decide (is_Some (alter (fun l => l ++ [q]) pl d !! q))) as [Hs|Hs].
    + destruct (decide (k = pl)) as [->|Hk].
      * rewrite lookup_delete_ne by assumption. now rewrite lookup_alter_eq, Hpl.
      * destruct (decide (k = q)) as [->|Hkq].
        -- apply lookup_delete_eq.
        -- rewrite lookup_delete_ne by congruence.
           rewrite lookup_alter_ne by congruence. reflexivity.
    + destruct (decide (k = pl)) as [->|Hk].
      * now rewrite lookup_alter_eq, Hpl.
      * destruct (decide (k = q)) as [->|Hkq].
        -- destruct (alter _ pl d !! q) eqn:E; [|reflexivity].
           exfalso. apply Hs. eauto.
        -- rewrite lookup_alter_ne by congruence. reflexivity.
Qed.

(** The inner loop over the images of [pl]: the images are appended to the
    entry of [pl], and every image other than [pl] is no longer a key. *)
Lemma record_images_lookup (pl : plane) (imgs : list plane) :
  forall (d : gmap plane (list plane)) (l0 : list plane) (k : plane),
    d !! pl = Some l0 ->
    fold_left (record_image pl) imgs d !! k
    = if decide (k = pl) then Some (l0 ++ imgs)
      else if decide (k ∈ imgs) then None else d !! k.
Proof.
  induction imgs as [|q imgs IH]; intros d l0 k Hpl; simpl.
  - destruct (decide (k = pl)) as [->|Hk].
    + now rewrite app_nil_r.
    + destruct (decide (k ∈ [])) as [H|_]; [inversion H | reflexivity].
  - assert (Hpl' : record_image pl d q !! pl = Some (l0 ++ [q])).
    { rewrite (record_image_lookup pl q pl d l0 Hpl).
      destruct (decide (pl = pl)); [reflexivity | congruence]. }
    rewrite (IH _ _ k Hpl').
    destruct (decide (k = pl)) as [->|Hk].
    + now rewrite <- app_assoc.
    + rewrite (record_image_lookup pl q k d l0 Hpl).
      destruct (decide (k = pl)) as [|_]; [congruence|].
      destruct (decide (k ∈ imgs)) as [Hin|Hin].
      * destruct (decide (k ∈ q :: imgs)) as [_|H]; [reflexivity|].
        exfalso. apply H. now right.
      * destruct (decide (k = q)) as [->|Hkq].
        -- destruct (decide (q ∈ q :: imgs)) as [_|H]; [reflexivity|].
           exfalso. apply H. left.
        -- destruct (decide (k ∈ q :: imgs)) as [H|_]; [|reflexivity].
           apply elem_of_cons in H. destruct H; [congruence | contradiction].
Qed.

Lemma visit_plane_lookup (d : gmap plane (list plane)) (pl k : plane) :
  visit_plane images d pl !! k
  = match d !! pl with
    | None => d !! k
    | Some l0 =>
        if decide (k = pl) then Some (l0 ++ images pl)
        else if decide (k ∈ images pl) then None else d !! k
    end.
Proof.
  unfold visit_plane. destruct (d !! pl) as [l0|] eqn:E.
  - destruct (decide (is_Some (Some l0))) as [_|H]; [|exfalso; apply H; eauto].
    now apply record_images_lookup.
  - destruct (decide (is_Some None)) as [[? H]|_]; [discriminate | reflexivity].
Qed.

(** The state of [planes_dict] after the planes [done] have been visited. *)
Lemma collapse_invariant (rp : list plane) :
  NoDup rp ->
  forall done todo, done ++ todo = rp ->
    (forall k l, fold_left (visit_plane images) done (initial_dict rp) !! k = Some l ->
       k ∈ rp /\ ((k ∈ done /\ l = images k) \/ ((k ∉ done) /\ l = [])))
    /\ (forall k q, k ∈ done ->
          is_Some (fold_left (visit_plane images) done (initial_dict rp) !! k) ->
          q ∈ images k -> q <> k ->
          fold_left (visit_plane images) done (initial_dict rp) !! q = None).
Proof.
  intros Hnd done. induction done as [|pl done IH] using rev_ind; intros todo Hsplit.
  - simpl. split.
    + intros k l Hk. rewrite initial_dict_lookup in Hk.
      destruct (decide (k ∈ rp)) as [Hin|]; [|discriminate].
      inversion Hk; subst. split; [assumption|]. right. split; [|reflexivity].
      intros H. inversion H.
    + intros k q Hk. inversion Hk.
  - rewrite <- app_assoc in Hsplit. specialize (IH _ Hsplit). destruct IH as [I1 I2].
    assert (Hfresh : pl ∉ done).
    { rewrite <- Hsplit in Hnd. apply NoDup_app in Hnd. destruct Hnd as (_ & Hd & _).
      intros Hin. apply (Hd pl Hin). left. }
    rewrite fold_left_app. simpl.
    set (d := fold_left (visit_plane images) done (initial_dict rp)) in *.
    split.
    + intros k l Hk. rewrite visit_plane_lookup in Hk.
      destruct (d !! pl) as [l0|] eqn:Epl.
      * destruct (I1 pl l0 Epl) as [Hplrp [[Hin _]|[_ ->]]]; [contradiction|].
        destruct (decide (k = pl)) as [->|Hne].
        -- inversion Hk; subst. split; [assumption|]. left.
           split; [apply elem_of_app; right; left | reflexivity].
        -- destruct (decide (k ∈ images pl)); [discriminate|].
           destruct (I1 k l Hk) as [Hkrp [[Hin ->]|[Hnin ->]]].
           ++ split; [assumption|]. left. split; [apply elem_of_app; now left | reflexivity].
           ++ split; [assumption|]. right. split; [|reflexivity].
              intros H. apply elem_of_app in H. destruct H as [H|H]; [contradiction|].
              apply list_elem_of_singleton in H. congruence.
      * assert (Hne : k <> pl) by (intros ->; congruence).
        destruct (I1 k l Hk) as [Hkrp [[Hin ->]|[Hnin ->]]].
        -- split; [assumption|]. left. split; [apply elem_of_app; now left | reflexivity].
        -- split; [assumption|]. right. split; [|reflexivity].
           intros H. apply elem_of_app in H. destruct H as [H|H]; [contradiction|].
           apply list_elem_of_singleton in H. congruence.
    + intros k q Hk Hsome Hq Hqk. rewrite visit_plane_lookup in Hsome |- *.
      apply elem_of_app in Hk.
      destruct (d !! pl) as [l0|] eqn:Epl.
      * destruct (decide (k = pl)) as [->|Hne].
        -- destruct (decide (q = pl)) as [|_]; [congruence|].
           destruct (decide (q ∈ images pl)) as [_|H]; [reflexivity | contradiction].
        -- destruct Hk as [Hk|Hk]; [|apply list_elem_of_singleton in Hk; congruence].
           destruct (decide (k ∈ images pl)) as [|_];
             [destruct Hsome as [? H]; discriminate|].
           pose proof (I2 k q Hk Hsome Hq Hqk) as Hnone.
           destruct (decide (q = pl)) as [->|_]; [congruence|].
           destruct (decide (q ∈ images pl)); [reflexivity | assumption].
      * destruct Hk as [Hk|Hk].
        -- now apply (I2 k q).
        -- apply list_elem_of_singleton in Hk. subst k.
           rewrite Epl in Hsome. destruct Hsome as [? H]. discriminate.
Qed.

(** Coverage, when the images are symmetric. *)
Lemma collapse_coverage (rp : list plane) :
  NoDup rp ->
  (forall p q, q ∈ images p -> p ∈ images q) ->
  forall done todo, done ++ todo = rp ->
    forall p, p ∈ rp ->
      is_Some (fold_left (visit_plane images) done (initial_dict rp) !! p)
      \/ exists k, k ∈ done
                   /\ is_Some (fold_left (visit_plane images) done (initial_dict rp) !! k)
                   /\ p ∈ images k.
Proof.
  intros Hnd Hsym done. induction done as [|pl done IH] using rev_ind;
    intros todo Hsplit p Hp.
  - left. simpl. rewrite initial_dict_lookup.
    destruct (decide (p ∈ rp)); [eauto | contradiction].
  - pose proof Hsplit as Hsplit'. rewrite <- app_assoc in Hsplit'.
    destruct (collapse_invariant rp Hnd done _ Hsplit') as [I1 I2].
    specialize (IH _ Hsplit' p Hp).
    rewrite fold_left_app. simpl.
    set (d := fold_left (visit_plane images) done (initial_dict rp)) in *.
    destruct (d !! pl) as [l0|] eqn:Epl.
    + destruct IH as [Hsome|(k & Hk & Hsome & Hpk)].
      * destruct (decide (p = pl)) as [->|Hne].
        -- left. rewrite visit_plane_lookup, Epl.
           destruct (decide (pl = pl)); [eauto | congruence].
        -- destruct (decide (p ∈ images pl)) as [Hin|Hnin].
           ++ right. exists pl. split; [apply elem_of_app; right; left|].
              split; [|assumption]. rewrite visit_plane_lookup, Epl.
              destruct (decide (pl = pl)); [eauto | congruence].
           ++ left. rewrite visit_plane_lookup, Epl.
              destruct (decide (p = pl)); [congruence|].
              destruct (decide (p ∈ images pl)); [contradiction | assumption].
      * right. exists k. split; [apply elem_of_app; now left|]. split; [|assumption].
        rewrite visit_plane_lookup, Epl.
        destruct (decide (k = pl)) as [->|Hne]; [eauto|].
        destruct (decide (k ∈ images pl)) as [Hin|_]; [|assumption].
        exfalso. apply Hsym in Hin.
        assert (Hnone : d !! pl = None) by (apply (I2 k pl); auto).
        congruence.
    + destruct IH as [Hsome|(k & Hk & Hsome & Hpk)].
      * left. now rewrite visit_plane_lookup, Epl.
      * right. exists k. split; [apply elem_of_app; now left|]. split; [|assumption].
        now rewrite visit_plane_lookup, Epl.
Qed.

End CollapseFacts.

Section CollapseClaims.
Import Miller MillerReduce.

Lemma planes_dict_entries_aux (images : plane -> list plane) (rp : list plane)
  (k : plane) (l : list plane) :
  NoDup rp ->
  planes_dict images rp !! k = Some l ->
  In k rp /\ l = images k.
Proof.
  intros Hnd Hk. unfold planes_dict in Hk.
  destruct (collapse_invariant images rp Hnd rp [] (app_nil_r rp)) as [I1 _].
  destruct (I1 k l Hk) as [Hin [[_ ->]|[Hnin _]]].
  - split; [now apply list_elem_of_In | reflexivity].
  - contradiction.
Qed.

(** X5.  Every key left in [planes_dict] after the loop of lines 167-182
    is one of the reduced planes, and its entry is the list of its images,
    one per symmetry operation, in their order (the planes being visited
    once each). *)
Theorem planes_dict_entries (images : plane -> list plane) (rp : list plane)
  (k : plane) (l : list plane) :
  NoDup rp ->
  planes_dict images rp !! k = Some l ->
  In k rp /\ l = images k.
Proof. apply planes_dict_entries_aux. Qed.

Lemma planes_dict_entries_witness :
  NoDup [(1, 0, 0); (-1, 0, 0); (0, 1, 0)]
  /\ planes_dict Examples2.inversion_images [(1, 0, 0); (-1, 0, 0); (0, 1, 0)] !! (1, 0, 0)
     = Some [(1, 0, 0); (-1, 0, 0)]
  /\ In (1, 0, 0) [(1, 0, 0); (-1, 0, 0); (0, 1, 0)]
  /\ [(1, 0, 0); (-1, 0, 0)] = Examples2.inversion_images (1, 0, 0).
Proof.
  assert (H1 : NoDup ([(1, 0, 0); (-1, 0, 0); (0, 1, 0)] : list plane))
    by (apply (bool_decide_unpack _); vm_compute; exact I).
  assert (H2 : planes_dict Examples2.inversion_images
                 [(1, 0, 0); (-1, 0, 0); (0, 1, 0)] !! ((1, 0, 0) : plane)
               = Some [(1, 0, 0); (-1, 0, 0)]) by (vm_compute; reflexivity).
  split; [exact H1|]. split; [exact H2|].
  exact (planes_dict_entries Examples2.inversion_images _ _ _ H1 H2).
Defined.

(** X6.  No key left in [planes_dict] is an image of another key left in
    it: an image that was still a key when its plane was visited has been
    deleted. *)
Theorem planes_dict_keys_independent (images : plane -> list plane) (rp : list plane)
  (k1 k2 : plane) :
  NoDup rp ->
  is_Some (planes_dict images rp !! k1) ->
  is_Some (planes_dict images rp !! k2) ->
  k1 <> k2 ->
  ~ In k2 (images k1).
Proof.
  intros Hnd H1 H2 Hne Hin. unfold planes_dict in *.
  destruct (collapse_invariant images rp Hnd rp [] (app_nil_r rp)) as [I1 I2].
  destruct H1 as [l1 Hl1].
  destruct (I1 k1 l1 Hl1) as [Hk1 _].
  assert (Hnone : fold_left (visit_plane images) rp (initial_dict rp) !! k2 = None).
  { apply (I2 k1 k2);
      [assumption | eauto | now apply list_elem_of_In | congruence]. }
  rewrite Hnone in H2. destruct H2 as [? H2]. discriminate.
Qed.

Lemma planes_dict_keys_independent_witness :
  NoDup [(1, 0, 0); (-1, 0, 0); (0, 1, 0)]
  /\ ~ In (0, 1, 0) (Examples2.inversion_images (1, 0, 0)).
Proof.
  assert (H1 : NoDup ([(1, 0, 0); (-1, 0, 0); (0, 1, 0)] : list plane))
    by (apply (bool_decide_unpack _); vm_compute; exact I).
  split; [exact H1|].
  apply (planes_dict_keys_independent Examples2.inversion_images
           [(1, 0, 0); (-1, 0, 0); (0, 1, 0)] (1, 0, 0) (0, 1, 0) H1).
  - vm_compute. eauto.
  - vm_compute. eauto.
  - discriminate.
Defined.

(** X7.  When the images are symmetric (a plane is an image of each of its
    images, as under a group of operations), every reduced plane is a key
    left in [planes_dict] or an image of such a key: the keys left are
    representatives of all the planes. *)
Theorem planes_dict_covers (images : plane -> list plane) (rp : list plane) (p : plane) :
  NoDup rp ->
  (forall a b, In b (images a) -> In a (images b)) ->
  In p rp ->
  exists k, is_Some (planes_dict images rp !! k) /\ (p = k \/ In p (images k)).
Proof.
  intros Hnd Hsym Hp. unfold planes_dict.
  assert (Hsym' : forall a b, b ∈ images a -> a ∈ images b).
  { intros a b H. apply list_elem_of_In. apply Hsym. now apply list_elem_of_In. }
  destruct (collapse_coverage images rp Hnd Hsym' rp [] (app_nil_r rp) p)
    as [Hsome|(k & _ & Hsome & Hpk)].
  - now apply list_elem_of_In.
  - exists p. split; [assumption | now left].
  - exists k. split; [assumption|]. right. now apply list_elem_of_In.
Qed.

Lemma inversion_images_symmetric (a b : plane) :
  In b (Examples2.inversion_images a) -> In a (Examples2.inversion_images b).
Proof.
  destruct a as [[h k] l]. unfold Examples2.inversion_images, negate, h_of, k_of, l_of.
  simpl. intros [<-|[<-|[]]]; simpl.
  - now left.
  - right. left. now rewrite !Z.opp_involutive.
Qed.

Lemma planes_dict_covers_witness :
  NoDup [(1, 0, 0); (-1, 0, 0); (0, 1, 0)]
  /\ In (-1, 0, 0) [(1, 0, 0); (-1, 0, 0); (0, 1, 0)]
  /\ exists k,
       is_Some (planes_dict Examples2.inversion_images
                  [(1, 0, 0); (-1, 0, 0); (0, 1, 0)] !! k)
       /\ ((-1, 0, 0) = k \/ In (-1, 0, 0) (Examples2.inversion_images k)).
Proof.
  assert (H1 : NoDup ([(1, 0, 0); (-1, 0, 0); (0, 1, 0)] : list plane))
    by (apply (bool_decide_unpack _); vm_compute; exact I).
  assert (H2 : In ((-1, 0, 0) : plane) [(1, 0, 0); (-1, 0, 0); (0, 1, 0)])
    by (simpl; tauto).
  split; [exact H1|]. split; [exact H2|].
  exact (planes_dict_covers Examples2.inversion_images _ _ H1
           inversion_images_symmetric H2).
Defined.

(** Some key is left: a key is deleted only during the visit of another
    key, which stays. *)
Lemma collapse_nonempty (images : plane -> list plane) (rp : list plane) :
  rp <> [] ->
  forall done, exists k, is_Some (fold_left (visit_plane images) done (initial_dict rp) !! k).
Proof.
  intros Hne done. induction done as [|pl done IH] using rev_ind.
  - destruct rp as [|p rp']; [congruence|]. exists p. simpl.
    rewrite initial_dict_lookup.
    destruct (decide (p ∈ p :: rp')) as [_|H]; [eauto|]. exfalso. apply H. left.
  - destruct IH as [k Hk]. rewrite fold_left_app. simpl.
    set (d := fold_left (visit_plane images) done (initial_dict rp)) in *.
    destruct (d !! pl) as [l0|] eqn:Epl.
    + exists pl. rewrite visit_plane_lookup, Epl.
      destruct (decide (pl = pl)); [eauto | congruence].
    + exists k. now rewrite visit_plane_lookup, Epl.
Qed.

(** X8.  When every plane has at least one image (the list of symmetry
    operations is not empty) and [list(set(...))] keeps the rows it is
    given, in whatever order, the rest of [_get_unique_miller_indices]
    returns exactly when there is at least one reduced plane: no array
    [equivalent_planes] of line 187 is empty, and the list returned has one
    index per key left in [planes_dict], at least one, in sorted order.
    Without any reduced plane ([max_index = 0]) the [np.vstack] of line 213
    raises. *)
Theorem enumerator_returns (images : plane -> list plane)
  (list_of_set : list plane -> list plane) (rp : list plane) :
  NoDup rp ->
  (forall p, images p <> []) ->
  (forall l x, In x (list_of_set l) <-> In x l) ->
  match get_unique_miller_indices (equivalent_classes images list_of_set rp) with
  | Some out =>
      rp <> []
      /\ List.Forall (fun c => c <> []) (equivalent_classes images list_of_set rp)
      /\ length out = length (equivalent_classes images list_of_set rp)
      /\ (0 < length out)%nat
      /\ StronglySorted miller_order out
  | None => rp = []
  end.
Proof.
  intros Hnd Himg Hset.
  assert (Hall : List.Forall (fun c => c <> []) (equivalent_classes images list_of_set rp)).
  { apply List.Forall_forall. intros c Hc. apply list_elem_of_In in Hc.
    unfold equivalent_classes in Hc. apply list_elem_of_omap in Hc.
    destruct Hc as (p & Hp & Hc).
    destruct (planes_dict images rp !! p) as [l|] eqn:E; [|discriminate].
    simpl in Hc. inversion Hc; subst c.
    destruct (planes_dict_entries_aux images rp p l Hnd E) as [_ ->].
    specialize (Himg p). destruct (images p) as [|x xs] eqn:Ei; [congruence|].
    intros Hnil. assert (Hx : In x (list_of_set (x :: xs))) by (apply Hset; now left).
    rewrite Hnil in Hx. destruct Hx. }
  assert (Hkey : rp <> [] -> equivalent_classes images list_of_set rp <> []).
  { intros Hne Hnil.
    destruct (collapse_nonempty images rp Hne rp) as [k [l Hk]].
    fold (planes_dict images rp) in Hk.
    destruct (planes_dict_entries_aux images rp k l Hnd Hk) as [Hin _].
    assert (Hc : list_of_set l ∈ equivalent_classes images list_of_set rp).
    { unfold equivalent_classes. apply list_elem_of_omap. exists k.
      split; [now apply list_elem_of_In | now rewrite Hk]. }
    rewrite Hnil in Hc. inversion Hc. }
  destruct (collect_unique_planes_total _ Hall) as (ups & Hc & Hlen).
  unfold get_unique_miller_indices. rewrite Hc.
  destruct ups as [|u ups'].
  - destruct rp as [|p rp']; [reflexivity|]. exfalso.
    assert (Hne : p :: rp' <> []) by discriminate.
    apply (Hkey Hne). simpl in Hlen.
    destruct (equivalent_classes images list_of_set (p :: rp')); [reflexivity | discriminate].
  - assert (Hl : length (sorted_planes (u :: ups'))
                 = length (equivalent_classes images list_of_set rp)).
    { rewrite <- Hlen. symmetry. apply Permutation_length, sorted_planes_perm. }
    split.
    { intros ->. unfold equivalent_classes in Hlen. simpl in Hlen. discriminate. }
    split; [assumption|]. split; [assumption|]. split.
    + rewrite Hl, <- Hlen. simpl. lia.
    + apply sorted_planes_sorted.
Qed.

End CollapseClaims.

Section CollapseWitness.
Import Miller MillerReduce.

Lemma enumerator_returns_witness :
  NoDup [(1, 0, 0); (-1, 0, 0); (0, 1, 0)]
  /\ (forall p, Examples2.inversion_images p <> [])
  /\ (forall (l : list plane) x, In x (rev (remove_dups l)) <-> In x l)
  /\ get_unique_miller_indices
       (equivalent_classes Examples2.inversion_images (fun l => rev (remove_dups l))
          [(1, 0, 0); (-1, 0, 0); (0, 1, 0)])
     = Some [(1, 0, 0); (0, 1, 0)]
  /\ match get_unique_miller_indices
             (equivalent_classes Examples2.inversion_images (fun l => rev (remove_dups l))
                [(1, 0, 0); (-1, 0, 0); (0, 1, 0)])
     with
     | Some out =>
         [(1, 0, 0); (-1, 0, 0); (0, 1, 0)] <> ([] : list plane)
         /\ List.Forall (fun c => c <> [])
              (equivalent_classes Examples2.inversion_images (fun l => rev (remove_dups l))
                 [(1, 0, 0); (-1, 0, 0); (0, 1, 0)])
         /\ length out
            = length (equivalent_classes Examples2.inversion_images
                        (fun l => rev (remove_dups l))
                        [(1, 0, 0); (-1, 0, 0); (0, 1, 0)])
         /\ (0 < length out)%nat
         /\ StronglySorted miller_order out
     | None => [(1, 0, 0); (-1, 0, 0); (0, 1, 0)] = ([] : list plane)
     end.
Proof.
  assert (H1 : NoDup ([(1, 0, 0); (-1, 0, 0); (0, 1, 0)] : list plane))
    by (apply (bool_decide_unpack _); vm_compute; exact I).
  assert (H2 : forall p, Examples2.inversion_images p <> []) by (intros p; discriminate).
  assert (H3 : forall (l : list plane) x, In x (rev (remove_dups l)) <-> In x l).
  { intros l x. rewrite <- in_rev, <- !list_elem_of_In. apply elem_of_remove_dups. }
  split; [exact H1|]. split; [exact H2|]. split; [exact H3|].
  split; [vm_compute; reflexivity|].
  exact (enumerator_returns Examples2.inversion_images (fun l => rev (remove_dups l))
           _ H1 H2 H3).
Defined.

End CollapseWitness.

(* ===================================================================== *)
(** * Part XIII: the in-plane basis ([_get_crystallographic_directions]) *)
(* ===================================================================== *)

Section Directions.
Import Num Pmg SurfaceBasis.
Local Open Scope Z_scope.

Variable ext_gcd : Z -> Z -> Z * Z.

(** The shape of the result outside the two special branches. *)
Lemma directions_general (cell : Lattice) (h k l : Z) :
  ((h =? 0) && (k =? 0) || (h =? 0) && (l =? 0) || (k =? 0) && (l =? 0)) = false ->
  exists p q a b,
    get_crystallographic_directions ext_gcd cell (h, k, l)
    = Some ((p * k + q * l, - p * h, - q * h),
            (0 / Z.abs (Z.gcd l k), l / Z.abs (Z.gcd l k), (- k) / Z.abs (Z.gcd l k)),
            (b, a * p, a * q))
    /\ p * k + q * l = fst (ext_gcd k l) * k + snd (ext_gcd k l) * l
    /\ a = fst (ext_gcd (p * k + q * l) h)
    /\ b = snd (ext_gcd (p * k + q * l) h).
Proof.
  intros Hc. unfold get_crystallographic_directions.
  assert (H0 : ((h =? 0) && (k =? 0) && (l =? 0)) = false).
  { destruct (h =? 0), (k =? 0), (l =? 0); simpl in *; congruence. }
  rewrite H0, Hc.
  destruct (ext_gcd k l) as [p q] eqn:E1. cbn [fst snd].
  match goal with
  | |- context [if ?c then _ else _] => destruct c
  end.
  - match goal with
    | |- context [ext_gcd ?x h] => destruct (ext_gcd x h) as [a b] eqn:E2
    end.
    match type of E2 with
    | ext_gcd (?p' * k + ?q' * l) h = _ => exists p', q', a, b
    end.
    rewrite E2. cbn [fst snd]. repeat split. ring.
  - destruct (ext_gcd (p * k + q * l) h) as [a b] eqn:E2.
    exists p, q, a, b. rewrite E2. cbn [fst snd]. repeat split.
Qed.

Lemma gcd_parts (k l : Z) :
  (k =? 0) && (l =? 0) = false ->
  exists g k' l', 0 < g /\ g = Z.abs (Z.gcd l k) /\ k = k' * g /\ l = l' * g.
Proof.
  intros Hkl. set (g := Z.gcd l k).
  assert (Hg : 0 < g).
  { pose proof (Z.gcd_nonneg l k). destruct (Z.eq_dec g 0) as [E|E]; [|subst g; lia].
    apply Z.gcd_eq_0 in E. destruct E as [-> ->]. discriminate. }
  destruct (Z.gcd_divide_r l k) as [k' Hk']. destruct (Z.gcd_divide_l l k) as [l' Hl'].
  exists g, k', l'. repeat split; try assumption. subst g. lia.
Qed.

(** X9.  The index [(0, 0, 0)] is refused (the [ValueError] of line 192),
    and it is the only one. *)
Theorem directions_refuse_zero (cell : Lattice) (indices : zvec) :
  get_crystallographic_directions ext_gcd cell indices = None <-> indices = (0, 0, 0).
Proof.
  destruct indices as [[h k] l]. split.
  - intros Hn.
    destruct (((h =? 0) && (k =? 0) || (h =? 0) && (l =? 0) || (k =? 0) && (l =? 0)))
      eqn:Hc.
    + unfold get_crystallographic_directions in Hn. rewrite Hc in Hn.
      destruct (Z.eqb_spec h 0), (Z.eqb_spec k 0), (Z.eqb_spec l 0);
        simpl in Hn; try discriminate. subst. reflexivity.
    + destruct (directions_general cell h k l Hc) as (p & q & a & b & Hr & _).
      rewrite Hr in Hn. discriminate.
  - intros E. inversion E; subst. reflexivity.
Qed.

(** X10.  For every other index the method returns three rows, and the
    first two lie in the plane: their dot products with [(h, k, l)] are
    zero, whatever [ext_gcd] and the cell are. *)
Theorem directions_in_plane (cell : Lattice) (indices : zvec) :
  indices <> (0, 0, 0) ->
  exists c1 c2 c3,
    get_crystallographic_directions ext_gcd cell indices = Some (c1, c2, c3)
    /\ zdot c1 indices = 0
    /\ zdot c2 indices = 0.
Proof.
  destruct indices as [[h k] l]. intros Hne.
  destruct (((h =? 0) && (k =? 0) || (h =? 0) && (l =? 0) || (k =? 0) && (l =? 0)))
    eqn:Hc.
  - unfold get_crystallographic_directions. rewrite Hc.
    destruct (Z.eqb_spec h 0), (Z.eqb_spec k 0), (Z.eqb_spec l 0);
      simpl in *; try discriminate; subst; try congruence;
      do 3 eexists; (split; [reflexivity|]); unfold zdot; simpl; split; ring.
  - destruct (directions_general cell h k l Hc) as (p & q & a & b & Hr & _).
    do 3 eexists. split; [exact Hr|].
    assert (Hkl : (k =? 0) && (l =? 0) = false).
    { destruct (h =? 0), (k =? 0), (l =? 0); simpl in *; congruence. }
    destruct (gcd_parts k l Hkl) as (g & k' & l' & Hg & Eg & Ek & El).
    rewrite <- Eg. unfold zdot; cbn [fst snd]. split; [ring|].
    rewrite Z.div_0_l by lia.
    replace (l / g) with l' by (rewrite El, Z.div_mul by lia; reflexivity).
    replace (- k / g) with (- k')
      by (rewrite Ek, <- Z.mul_opp_l, Z.div_mul by lia; reflexivity).
    rewrite Ek, El. ring.
Qed.

End Directions.

Section DirectionsWitness.
Import Num Pmg SurfaceBasis.
Local Open Scope Z_scope.

Lemma directions_in_plane_witness :
  ((1, 2, 3) : zvec) <> (0, 0, 0)
  /\ exists c1 c2 c3,
       get_crystallographic_directions Examples2.ext_gcd_ase Examples.unit_lattice (1, 2, 3)
       = Some (c1, c2, c3)
       /\ zdot c1 (1, 2, 3) = 0
       /\ zdot c2 (1, 2, 3) = 0.
Proof.
  assert (H : ((1, 2, 3) : zvec) <> (0, 0, 0)) by discriminate.
  split; [exact H|].
  exact (directions_in_plane Examples2.ext_gcd_ase Examples.unit_lattice (1, 2, 3) H).
Defined.

End DirectionsWitness.

Section Unimodular.
Import Num Pmg SurfaceBasis MillerReduce.
Local Open Scope Z_scope.

Lemma ext_gcd_calls_bezout (calls : nat) (a b : Z) :
  Z.abs b < Z.of_nat calls ->
  Z.abs (fst (Examples2.ext_gcd_calls calls a b) * a
         + snd (Examples2.ext_gcd_calls calls a b) * b) = Z.gcd a b.
Proof.
  revert a b; induction calls as [|calls IH]; intros a b Hb; [lia|].
  simpl. destruct (Z.eqb_spec b 0) as [->|Hnz]; simpl.
  - rewrite Z.gcd_0_r. f_equal. ring.
  - destruct (Z.eqb_spec (a mod b) 0) as [Hm|Hm]; simpl.
    + replace (0 * a + 1 * b) with b by ring.
      apply Z.mod_divide in Hm; [|assumption].
      rewrite Z.gcd_comm, <- Z.gcd_abs_l. symmetry.
      apply Z.divide_gcd_iff; [apply Z.abs_nonneg | now apply Z.divide_abs_l].
    + pose proof (Z.mod_bound_abs a b Hnz) as Hbd.
      specialize (IH b (a mod b)). 
      destruct (Examples2.ext_gcd_calls calls b (a mod b)) as [x y] eqn:E.
      cbn [fst snd] in *.
      rewrite (Z.gcd_comm b (a mod b)), Z.gcd_mod, Z.gcd_comm in IH by assumption.
      rewrite <- IH by lia. f_equal.
      rewrite (Z.mod_eq a b) by assumption. ring.
Qed.

Lemma ext_gcd_ase_bezout (x y : Z) :
  Z.abs (fst (Examples2.ext_gcd_ase x y) * x + snd (Examples2.ext_gcd_ase x y) * y)
  = Z.gcd x y.
Proof. unfold Examples2.ext_gcd_ase. apply ext_gcd_calls_bezout. lia. Qed.

(** X11.  When [ext_gcd] returns Bezout coefficients (of the greatest
    common divisor up to its sign) and the Miller index is primitive, the
    three rows form a unimodular basis, and the third row leaves the plane
    by one step: the determinant and the dot product of the third row with
    [(h, k, l)] are 1 or -1. *)
Theorem directions_unimodular (ext_gcd : Z -> Z -> Z * Z) (cell : Lattice)
  (indices : zvec) :
  (forall x y, Z.abs (fst (ext_gcd x y) * x + snd (ext_gcd x y) * y) = Z.gcd x y) ->
  gcd3 indices = 1 ->
  exists c1 c2 c3,
    get_crystallographic_directions ext_gcd cell indices = Some (c1, c2, c3)
    /\ Z.abs (zdet c1 c2 c3) = 1
    /\ Z.abs (zdot c3 indices) = 1.
Proof.
  destruct indices as [[h k] l]. intros Hbez Hprim.
  unfold gcd3, Miller.h_of, Miller.k_of, Miller.l_of in Hprim. cbn [fst snd] in Hprim.
  destruct (((h =? 0) && (k =? 0) || (h =? 0) && (l =? 0) || (k =? 0) && (l =? 0)))
    eqn:Hc.
  - unfold get_crystallographic_directions. rewrite Hc.
    destruct (Z.eqb_spec h 0), (Z.eqb_spec k 0), (Z.eqb_spec l 0);
      simpl in Hc; try discriminate; subst;
      rewrite ?Z.gcd_0_r, ?Z.gcd_0_l, ?Z.abs_idemp in Hprim;
      try (simpl in Hprim; discriminate);
      do 3 eexists; (split; [reflexivity|]); unfold zdet, zdot; cbn [fst snd];
      split; try reflexivity; lia.
  - destruct (directions_general ext_gcd cell h k l Hc) as (p & q & a & b & Hr & Hpq & Ha & Hb).
    do 3 eexists. split; [exact Hr|].
    assert (Hkl : (k =? 0) && (l =? 0) = false).
    { destruct (h =? 0), (k =? 0), (l =? 0); simpl in *; congruence. }
    destruct (gcd_parts k l Hkl) as (g & k' & l' & Hg & Eg & Ek & El).
    rewrite <- Eg.
    rewrite Z.div_0_l by lia.
    replace (l / g) with l' by (rewrite El, Z.div_mul by lia; reflexivity).
    replace (- k / g) with (- k')
      by (rewrite Ek, <- Z.mul_opp_l, Z.div_mul by lia; reflexivity).
    (* the first call: |p k + q l| = gcd k l = g *)
    pose proof (Hbez k l) as B1. rewrite <- Hpq in B1.
    assert (Egkl : Z.gcd k l = g).
    { rewrite Eg, (Z.gcd_comm k l). pose proof (Z.gcd_nonneg l k). lia. }
    rewrite Egkl in B1.
    set (s := p * k' + q * l').
    assert (Hs : p * k + q * l = s * g) by (subst s; rewrite Ek, El; ring).
    assert (Hs1 : Z.abs s = 1).
    { rewrite Hs, Z.abs_mul in B1. clear - B1 Hg. nia. }
    (* the second call: |a (p k + q l) + b h| = gcd (p k + q l) h = 1 *)
    pose proof (Hbez (p * k + q * l) h) as B2. rewrite <- Ha, <- Hb in B2.
    assert (Eg2 : Z.gcd (p * k + q * l) h = 1).
    { rewrite <- Z.gcd_abs_l, B1, <- Egkl, <- Hprim.
      rewrite (Z.gcd_comm (Z.gcd k l) h), Z.gcd_assoc. reflexivity. }
    rewrite Eg2 in B2.
    split.
    + replace (zdet (p * k + q * l, - p * h, - q * h) (0, l', - k') (b, a * p, a * q))
        with (s * (a * (p * k + q * l) + b * h))
        by (unfold zdet; rewrite Hs; subst s; ring).
      rewrite Z.abs_mul, Hs1, B2. reflexivity.
    + replace (zdot (b, a * p, a * q) (h, k, l)) with (a * (p * k + q * l) + b * h)
        by (unfold zdot; cbn [fst snd]; ring).
      exact B2.
Qed.

Lemma directions_unimodular_witness :
  (forall x y, Z.abs (fst (Examples2.ext_gcd_ase x y) * x
                      + snd (Examples2.ext_gcd_ase x y) * y) = Z.gcd x y)
  /\ gcd3 (1, 2, 3) = 1
  /\ exists c1 c2 c3,
       get_crystallographic_directions Examples2.ext_gcd_ase Examples.unit_lattice (1, 2, 3)
       = Some (c1, c2, c3)
       /\ Z.abs (zdet c1 c2 c3) = 1
       /\ Z.abs (zdot c3 (1, 2, 3)) = 1.
Proof.
  assert (H : gcd3 (1, 2, 3) = 1) by reflexivity.
  split; [exact ext_gcd_ase_bezout|]. split; [exact H|].
  exact (directions_unimodular Examples2.ext_gcd_ase Examples.unit_lattice (1, 2, 3)
           ext_gcd_ase_bezout H).
Defined.

End Unimodular.

(* ===================================================================== *)
(** * Part XIV: further properties of [surfaces.py] *)
(* ===================================================================== *)

Section Mod1Facts.
Import Num.
Local Open Scope Q_scope.

Lemma mod1_range (x : Q) : 0 <= mod1 x /\ mod1 x < 1.
Proof.
  unfold mod1. pose proof (Qfloor_le x) as H1. pose proof (Qlt_floor x) as H2.
  rewrite inject_Z_plus in H2. change (inject_Z 1) with 1 in H2. split; lra.
Qed.

Lemma inject_Z_small (n : Z) : -1 < inject_Z n -> inject_Z n < 1 -> n = 0%Z.
Proof.
  intros H1 H2.
  change (-1) with (inject_Z (-1)) in H1. change 1 with (inject_Z 1) in H2.
  rewrite <- Zlt_Qlt in H1, H2. lia.
Qed.

Lemma inject_Z_minus (a b : Z) : inject_Z (a - b) == inject_Z a - inject_Z b.
Proof. unfold Z.sub. rewrite inject_Z_plus, inject_Z_opp. reflexivity. Qed.

Lemma mod1_unique (x r : Q) (n : Z) :
  0 <= r -> r < 1 -> x == r + inject_Z n -> mod1 x == r.
Proof.
  intros Hr0 Hr1 Hx. destruct (mod1_range x) as [Hm0 Hm1]. unfold mod1 in *.
  assert (Hz : (n - Qfloor x)%Z = 0%Z).
  { apply inject_Z_small; rewrite inject_Z_minus; lra. }
  assert (Hn : inject_Z n == inject_Z (Qfloor x)).
  { assert (inject_Z (n - Qfloor x) == 0) by (rewrite Hz; reflexivity).
    rewrite inject_Z_minus in H. lra. }
  lra.
Qed.

Lemma mod1_id (x : Q) : 0 <= x -> x < 1 -> mod1 x == x.
Proof.
  intros H0 H1. apply (mod1_unique x x 0); try assumption.
  change (inject_Z 0) with 0. lra.
Qed.

(** Going there and back restores a coordinate up to the wrap into the
    unit cell. *)
Lemma mod1_there_and_back (x s : Q) : mod1 (mod1 (x + s) + - s) == mod1 x.
Proof.
  destruct (mod1_range x) as [H0 H1].
  apply (mod1_unique _ _ (Qfloor x - Qfloor (x + s))); try assumption.
  unfold mod1. rewrite inject_Z_minus. lra.
Qed.

End Mod1Facts.

Section Intercept.
Import Num SurfacesMore.
Local Open Scope Q_scope.

(** X12.  [_get_intercept] returns the foot of the perpendicular from
    [midpoint] to the line through the origin along [vector]: the point
    returned is on that line, and its difference from [midpoint] is
    orthogonal to [vector]. *)
Theorem get_intercept_is_projection (midpoint vector : Q * Q) :
  let i := get_intercept midpoint vector in
  fst i * snd vector - snd i * fst vector == 0
  /\ (fst i - fst midpoint) * fst vector + (snd i - snd midpoint) * snd vector == 0.
Proof.
  destruct midpoint as [m0 m1], vector as [v0 v1]. unfold get_intercept. cbn [fst snd].
  destruct (Qeq_bool v0 0) eqn:E; cbn [fst snd].
  - apply Qeq_bool_iff in E. rewrite E. split; ring.
  - assert (Hv : ~ v0 == 0).
    { intros H. apply Qeq_bool_iff in H. congruence. }
    assert (Hpos : 0 < v1 * v1 + v0 * v0).
    { assert (0 < v0 * v0).
      { destruct (Qlt_le_dec 0 v0) as [Hp|Hn].
        - now apply Qmult_lt_0_compat.
        - assert (0 < (- v0) * (- v0)) by (apply Qmult_lt_0_compat; lra).
          lra. }
      assert (0 <= v1 * v1).
      { destruct (Qlt_le_dec 0 v1) as [Hp|Hn].
        - apply Qlt_le_weak. now apply Qmult_lt_0_compat.
        - assert (0 <= (- v1) * (- v1)) by (apply Qmult_le_0_compat; lra).
          lra. }
      lra. }
    split; field; split; try assumption; simpl; lra.
Qed.

End Intercept.

Section EwaldSum.
Import Num Pmg Surfaces SurfacesMore.
Local Open Scope Q_scope.

Lemma vmod1_there_and_back (c shift : vec3) :
  vx (vmod1 (vadd (vmod1 (vadd c shift)) (vneg shift))) == mod1 (vx c)
  /\ vy (vmod1 (vadd (vmod1 (vadd c shift)) (vneg shift))) == mod1 (vy c)
  /\ vz (vmod1 (vadd (vmod1 (vadd c shift)) (vneg shift))) == mod1 (vz c).
Proof.
  destruct c as [[cx cy] cz], shift as [[sx sy] sz].
  unfold vmod1, vadd, vneg, vx, vy, vz; cbn [fst snd].
  repeat split; apply mod1_there_and_back.
Qed.

(** X13.  [_ewald_sum] translates the film rows (those selected by a
    mask, as at line 1889) by [shift], takes the energy, and translates
    them back by [-shift].  On rows inside the unit cell: when
    [EwaldSummation] returns, the call returns its energy and leaves every
    row with its species and its coordinates; when [EwaldSummation] raises,
    the exception leaves the method at once and the film rows stay
    translated by [shift]. *)
Theorem ewald_sum_restores (total_energy : list PeriodicSite -> option Q)
  (mask : PeriodicSite -> bool) (rows : list PeriodicSite) (shift : vec3) :
  List.Forall in_unit_cell rows ->
  let shifted :=
    map (fun s => if mask s
                  then mkSite (species s) (vmod1 (vadd (frac_coords s) shift))
                  else s) rows in
  match total_energy shifted with
  | Some E =>
      fst (ewald_sum total_energy rows shift (np_where mask rows)) = Some E
      /\ Forall2 same_site
           (snd (ewald_sum total_energy rows shift (np_where mask rows))) rows
  | None =>
      ewald_sum total_energy rows shift (np_where mask rows) = (None, shifted)
  end.
Proof.
  intros Hcell shifted.
  assert (Hs : translate_rows (np_where mask rows) shift rows = shifted)
    by apply translate_rows_np_where.
  unfold ewald_sum. rewrite Hs.
  destruct (total_energy shifted) as [E|]; [|reflexivity].
  cbn [fst snd]. split; [reflexivity|]. rewrite <- Hs.
  apply Forall2_same_length_lookup_2.
  - now rewrite !translate_rows_length.
  - intros j x y Hx Hy. unfold translate_rows, np_where in Hx.
    rewrite fold_alter_filter_seq in Hx. rewrite fold_alter_filter_seq in Hx.
    rewrite Hy in Hx. simpl in Hx.
    assert (Hyc : in_unit_cell y).
    { rewrite List.Forall_forall in Hcell. apply Hcell.
      apply list_elem_of_In. eapply list_elem_of_lookup_2; eassumption. }
    apply lookup_lt_Some in Hy.
    destruct (Nat.ltb_spec j (length rows)) as [_|]; [|lia].
    destruct (mask y); simpl in Hx; inversion Hx; subst x; clear Hx.
    + destruct Hyc as ((X0 & X1) & (Y0 & Y1) & (Z0 & Z1)).
      destruct (vmod1_there_and_back (frac_coords y) shift) as (Ex & Ey & Ez).
      unfold same_site, translate_site; cbn [species frac_coords].
      split; [reflexivity|].
      rewrite Ex, Ey, Ez. repeat split; apply mod1_id; assumption.
    + unfold same_site. repeat split; reflexivity.
Qed.

Lemma ewald_sum_restores_witness :
  List.Forall in_unit_cell [Examples.si_site; Examples.al_site]
  /\ (fst (ewald_sum (fun _ => Some 0) [Examples.si_site; Examples.al_site]
             (3 # 10, 0, 1 # 2)
             (np_where (fun s => Qltb (1 # 2) (site_z s))
                       [Examples.si_site; Examples.al_site])) = Some 0
      /\ Forall2 same_site
           (snd (ewald_sum (fun _ => Some 0) [Examples.si_site; Examples.al_site]
                   (3 # 10, 0, 1 # 2)
                   (np_where (fun s => Qltb (1 # 2) (site_z s))
                             [Examples.si_site; Examples.al_site])))
           [Examples.si_site; Examples.al_site])
  /\ ewald_sum (fun _ => None) [Examples.si_site; Examples.al_site] (3 # 10, 0, 1 # 2)
       (np_where (fun s => Qltb (1 # 2) (site_z s)) [Examples.si_site; Examples.al_site])
     = (None,
        map (fun s => if Qltb (1 # 2) (site_z s)
                      then mkSite (species s) (vmod1 (vadd (frac_coords s) (3 # 10, 0, 1 # 2)))
                      else s)
            [Examples.si_site; Examples.al_site]).
Proof.
  assert (H : List.Forall in_unit_cell [Examples.si_site; Examples.al_site]).
  { repeat constructor; vm_compute; congruence. }
  split; [exact H|]. split.
  - exact (ewald_sum_restores (fun _ => Some 0) (fun s => Qltb (1 # 2) (site_z s))
             [Examples.si_site; Examples.al_site] (3 # 10, 0, 1 # 2) H).
  - exact (ewald_sum_restores (fun _ => None) (fun s => Qltb (1 # 2) (site_z s))
             [Examples.si_site; Examples.al_site] (3 # 10, 0, 1 # 2) H).
Defined.

End EwaldSum.

Section OverlapVolume.
Import Num Landscape SurfacesMore.
Local Open Scope Q_scope.

Lemma Qabs_diff_lt (r1 r2 : Q) : 0 < r1 -> 0 < r2 -> Qabs (r1 - r2) < r1 + r2.
Proof. intros H1 H2. apply Qabs_case; intros; lra. Qed.

Lemma Qle_bool_false (x y : Q) : y < x -> Qle_bool x y = false.
Proof.
  intros H. destruct (Qle_bool x y) eqn:E; [|reflexivity].
  apply Qle_bool_iff in E. lra.
Qed.

Lemma Qeq_bool_false (x y : Q) : ~ x == y -> Qeq_bool x y = false.
Proof.
  intros H. destruct (Qeq_bool x y) eqn:E; [|reflexivity].
  apply Qeq_bool_iff in E. contradiction.
Qed.

(** X14.  Two spheres whose centres are at least the sum of their radii
    apart have no overlap: [overlap_film_sub_single] gives zero there
    (lines 1059-1066), for every grid point and every [np.sqrt]. *)
Theorem overlap_zero_out_of_contact (pi d r1 r2 : Q) :
  0 < r1 -> 0 < r2 -> r1 + r2 <= d ->
  overlap_film_sub_single_at pi d r1 r2 == 0.
Proof.
  intros H1 H2 Hd. unfold overlap_film_sub_single_at.
  pose proof (Qabs_diff_lt r1 r2 H1 H2) as Habs.
  rewrite Qle_bool_false by lra.
  destruct (Qltb 0 (d - r1 - r2)) eqn:E.
  - unfold lens_volume. rewrite Qeq_bool_refl. reflexivity.
  - apply Qltb_ge in E. unfold lens_volume.
    rewrite Qeq_bool_false by lra.
    assert (Hz : r1 + r2 - d == 0) by lra.
    rewrite Hz. field. lra.
Qed.

Lemma overlap_zero_out_of_contact_witness :
  0 < 1 /\ 0 < (3 # 2) /\ 1 + (3 # 2) <= 3
  /\ overlap_film_sub_single_at (22 # 7) 3 1 (3 # 2) == 0.
Proof.
  assert (H1 : 0 < 1) by reflexivity.
  assert (H2 : 0 < 3 # 2) by reflexivity.
  assert (H3 : 1 + (3 # 2) <= 3) by (vm_compute; discriminate).
  split; [exact H1|]. split; [exact H2|]. split; [exact H3|].
  exact (overlap_zero_out_of_contact (22 # 7) 3 1 (3 # 2) H1 H2 H3).
Defined.

(** X15.  When one sphere lies inside the other (the distance of the
    centres is at most the difference of the unequal radii),
    [overlap_film_sub_single] gives the volume of the smaller sphere:
    the distance is clamped to the difference of the radii. *)
Theorem overlap_contained_sphere (pi d r1 r2 : Q) :
  0 < r1 -> 0 < r2 -> ~ r1 == r2 -> d <= Qabs (r1 - r2) ->
  overlap_film_sub_single_at pi d r1 r2 == (4 # 3) * pi * (Qmin' r1 r2) ^ 3.
Proof.
  intros H1 H2 Hne Hd. unfold overlap_film_sub_single_at.
  pose proof (Qabs_diff_lt r1 r2 H1 H2) as Habs.
  assert (Hle : Qle_bool d (Qabs (r1 - r2)) = true) by now apply Qle_bool_iff.
  rewrite Hle.
  assert (Hc : Qltb 0 (Qabs (r1 - r2) - r1 - r2) = false) by (apply Qltb_ge; lra).
  rewrite Hc. unfold lens_volume, Qmin'.
  destruct (Qlt_le_dec r2 r1) as [Hlt|Hge].
  - assert (HD : Qabs (r1 - r2) == r1 - r2) by (apply Qabs_pos; lra).
    assert (Hq : Qltb r2 r1 = true) by now apply Qltb_lt.
    rewrite Hq. rewrite Qeq_bool_false by (rewrite HD; lra).
    rewrite HD. field. lra.
  - assert (Hlt : r1 < r2).
    { destruct (Qle_lt_or_eq _ _ Hge) as [H|H]; [assumption | contradiction]. }
    assert (HD : Qabs (r1 - r2) == r2 - r1).
    { rewrite Qabs_neg by lra. ring. }
    assert (Hq : Qltb r2 r1 = false) by (apply Qltb_ge; lra).
    rewrite Hq. rewrite Qeq_bool_false by (rewrite HD; lra).
    rewrite HD. field. lra.
Qed.

Lemma overlap_contained_sphere_witness :
  0 < 3 /\ 0 < 1 /\ ~ 3 == 1 /\ (1 # 2) <= Qabs (3 - 1)
  /\ overlap_film_sub_single_at (22 # 7) (1 # 2) 3 1 == (4 # 3) * (22 # 7) * (Qmin' 3 1) ^ 3.
Proof.
  assert (H1 : 0 < 3) by reflexivity.
  assert (H2 : 0 < 1) by reflexivity.
  assert (H3 : ~ 3 == 1) by (vm_compute; discriminate).
  assert (H4 : (1 # 2) <= Qabs (3 - 1)) by (vm_compute; discriminate).
  split; [exact H1|]. split; [exact H2|]. split; [exact H3|]. split; [exact H4|].
  exact (overlap_contained_sphere (22 # 7) (1 # 2) 3 1 H1 H2 H3 H4).
Defined.

(** X16.  Two spheres of the same radius at the same place: the distance
    is clamped to zero, the guarded [np.divide] leaves the zero of [out],
    and the overlap returned is zero, not the volume of the sphere. *)
Theorem overlap_coincident_equal_spheres (pi d r1 r2 : Q) :
  0 < r1 -> r1 == r2 -> d <= 0 ->
  overlap_film_sub_single_at pi d r1 r2 = 0.
Proof.
  intros H1 Heq Hd. unfold overlap_film_sub_single_at.
  assert (HD : Qabs (r1 - r2) == 0).
  { assert (Hz : r1 - r2 == 0) by lra. rewrite Hz. reflexivity. }
  assert (Hle : Qle_bool d (Qabs (r1 - r2)) = true) by (apply Qle_bool_iff; lra).
  rewrite Hle.
  assert (Hc : Qltb 0 (Qabs (r1 - r2) - r1 - r2) = false) by (apply Qltb_ge; lra).
  rewrite Hc. unfold lens_volume.
  assert (Hz : Qeq_bool (Qabs (r1 - r2)) 0 = true) by now apply Qeq_bool_iff.
  now rewrite Hz.
Qed.

Lemma overlap_coincident_equal_spheres_witness :
  0 < 2 /\ 2 == 2 /\ 0 <= 0 /\ overlap_film_sub_single_at (22 # 7) 0 2 2 = 0.
Proof.
  assert (H1 : 0 < 2) by reflexivity.
  assert (H2 : 2 == 2) by reflexivity.
  assert (H3 : 0 <= 0) by (vm_compute; discriminate).
  split; [exact H1|]. split; [exact H2|]. split; [exact H3|].
  exact (overlap_coincident_equal_spheres (22 # 7) 0 2 2 H1 H2 H3).
Defined.

End OverlapVolume.

Section OrientFacts.
Import Num Pmg Surfaces SurfacesMore.
Local Open Scope Q_scope.

Lemma filter_map_comm {A B : Type} (p : B -> bool) (f : A -> B) (l : list A) :
  List.filter p (map f l) = map f (List.filter (fun x => p (f x)) l).
Proof.
  induction l as [|x l IH]; simpl; [reflexivity|].
  destruct (p (f x)); simpl; now rewrite IH.
Qed.

Lemma exclusive_heights_flip (own other : list String.string) (s : Structure) :
  exclusive_heights own other (flip_structure s)
  = map (fun z => 1 - z) (exclusive_heights own other s).
Proof.
  unfold exclusive_heights, flip_structure. cbn [sites].
  rewrite filter_map_comm, !map_map. reflexivity.
Qed.

Lemma film_exclusive_heights_flip (sub_sp film_sp : list String.string) (s : Structure) :
  film_exclusive_heights sub_sp film_sp (flip_structure s)
  = map (fun z => 1 - z) (film_exclusive_heights sub_sp film_sp s).
Proof.
  unfold film_exclusive_heights, flip_structure. cbn [sites].
  rewrite filter_map_comm, !map_map. reflexivity.
Qed.

Lemma Qsum_flip_acc (l : list Q) (a b : Q) :
  fold_left Qplus (map (fun z => 1 - z) l) a + fold_left Qplus l b
  == a + b + inject_Z (Z.of_nat (length l)).
Proof.
  revert a b; induction l as [|x l IH]; intros a b; simpl fold_left; simpl length.
  - change (inject_Z (Z.of_nat 0)) with 0. ring.
  - rewrite IH. rewrite Nat2Z.inj_succ. unfold Z.succ. rewrite inject_Z_plus.
    change (inject_Z 1) with 1. ring.
Qed.

Lemma np_mean_flip (l : list Q) (m : Q) :
  np_mean l = Some m ->
  exists m', np_mean (map (fun z => 1 - z) l) = Some m' /\ m' == 1 - m.
Proof.
  destruct l as [|x l]; [discriminate|]. intros H. inversion H; subst m; clear H.
  eexists. split; [reflexivity|].
  unfold Qsum. rewrite length_map.
  pose proof (Qsum_flip_acc (x :: l) 0 0) as Hs.
  set (n := inject_Z (Z.of_nat (length (x :: l)))) in *.
  assert (Hn : 0 < n).
  { subst n. change 0 with (inject_Z 0). rewrite <- Zlt_Qlt. simpl. lia. }
  set (A := fold_left Qplus (map (fun z => 1 - z) (x :: l)) 0) in *.
  set (B := fold_left Qplus (x :: l) 0) in *.
  assert (HA : A == n - B) by lra.
  change (inject_Z (Z.of_nat (S (length l)))) with n.
  clearbody A B n. rewrite HA. field. lra.
Qed.

End OrientFacts.

Section OrientClaims.
Import Num Pmg Surfaces SurfacesMore.
Local Open Scope Q_scope.

(** X17.  When the interface holds atoms of a species found only in the
    substrate and atoms of a species found only in the film, the structure
    that leaves lines 531-553 has its film on top: the mean height of the
    film-only atoms is not below the mean height of the substrate-only
    atoms. *)
Theorem orient_film_on_top (substrate_species film_species : list String.string)
  (s : Structure) :
  exclusive_heights substrate_species film_species s <> [] ->
  film_exclusive_heights substrate_species film_species s <> [] ->
  exists ms mf,
    np_mean (exclusive_heights substrate_species film_species
               (orient substrate_species film_species s)) = Some ms
    /\ np_mean (film_exclusive_heights substrate_species film_species
                  (orient substrate_species film_species s)) = Some mf
    /\ ms <= mf.
Proof.
  intros Hs Hf.
  change (orient substrate_species film_species s)
    with (if nan_ltb (np_mean (film_exclusive_heights substrate_species film_species s))
                     (np_mean (exclusive_heights substrate_species film_species s))
          then flip_structure s else s).
  destruct (np_mean (exclusive_heights substrate_species film_species s)) as [ms|] eqn:Ems;
    [|destruct (exclusive_heights substrate_species film_species s); [congruence | discriminate]].
  destruct (np_mean (film_exclusive_heights substrate_species film_species s)) as [mf|] eqn:Emf;
    [|destruct (film_exclusive_heights substrate_species film_species s);
      [congruence | discriminate]].
  unfold nan_ltb. destruct (Qltb mf ms) eqn:E.
  - apply Qltb_lt in E.
    rewrite exclusive_heights_flip, film_exclusive_heights_flip.
    destruct (np_mean_flip _ _ Ems) as (ms' & -> & Hms').
    destruct (np_mean_flip _ _ Emf) as (mf' & -> & Hmf').
    exists ms', mf'. repeat split. lra.
  - apply Qltb_ge in E. rewrite Ems, Emf. exists ms, mf. repeat split. assumption.
Qed.

Lemma orient_film_on_top_witness :
  exclusive_heights Examples2.si_species Examples2.al_species Examples2.upside_down <> []
  /\ film_exclusive_heights Examples2.si_species Examples2.al_species Examples2.upside_down <> []
  /\ exists ms mf,
       np_mean (exclusive_heights Examples2.si_species Examples2.al_species
                  (orient Examples2.si_species Examples2.al_species Examples2.upside_down)) = Some ms
       /\ np_mean (film_exclusive_heights Examples2.si_species Examples2.al_species
                     (orient Examples2.si_species Examples2.al_species Examples2.upside_down)) = Some mf
       /\ ms <= mf.
Proof.
  assert (H1 : exclusive_heights Examples2.si_species Examples2.al_species Examples2.upside_down <> [])
    by (vm_compute; discriminate).
  assert (H2 : film_exclusive_heights Examples2.si_species Examples2.al_species Examples2.upside_down
               <> []) by (vm_compute; discriminate).
  split; [exact H1|]. split; [exact H2|].
  exact (orient_film_on_top Examples2.si_species Examples2.al_species Examples2.upside_down H1 H2).
Defined.

End OrientClaims.

Section MinMaxFacts.
Import Num.
Local Open Scope Q_scope.

Lemma fold_Qmin_spec (l : list Q) (a : Q) :
  (fold_left Qmin' l a = a \/ In (fold_left Qmin' l a) l)
  /\ fold_left Qmin' l a <= a
  /\ forall x, In x l -> fold_left Qmin' l a <= x.
Proof.
  revert a; induction l as [|y l IH]; intros a; simpl.
  - split; [now left|]. split; [apply Qle_refl | tauto].
  - destruct (IH (Qmin' a y)) as (Hin & Hle & Hall).
    assert (Hm : Qmin' a y <= a /\ Qmin' a y <= y /\ (Qmin' a y = a \/ Qmin' a y = y)).
    { unfold Qmin'. destruct (Qltb y a) eqn:E.
      - apply Qltb_lt in E. repeat split; [lra | lra | now right].
      - apply Qltb_ge in E. repeat split; [lra | lra | now left]. }
    destruct Hm as (Ha & Hy & Hor). split; [|split].
    + destruct Hin as [Hin|Hin]; [|now right; right].
      rewrite Hin. destruct Hor as [->| ->]; [now left | right; now left].
    + lra.
    + intros x [<-|Hx]; [lra | now apply Hall].
Qed.

Lemma fold_Qmax_spec (l : list Q) (a : Q) :
  (fold_left Qmax' l a = a \/ In (fold_left Qmax' l a) l)
  /\ a <= fold_left Qmax' l a
  /\ forall x, In x l -> x <= fold_left Qmax' l a.
Proof.
  revert a; induction l as [|y l IH]; intros a; simpl.
  - split; [now left|]. split; [apply Qle_refl | tauto].
  - destruct (IH (Qmax' a y)) as (Hin & Hle & Hall).
    assert (Hm : a <= Qmax' a y /\ y <= Qmax' a y /\ (Qmax' a y = a \/ Qmax' a y = y)).
    { unfold Qmax'. destruct (Qltb a y) eqn:E.
      - apply Qltb_lt in E. repeat split; [lra | lra | now right].
      - apply Qltb_ge in E. repeat split; [lra | lra | now left]. }
    destruct Hm as (Ha & Hy & Hor). split; [|split].
    + destruct Hin as [Hin|Hin]; [|now right; right].
      rewrite Hin. destruct Hor as [->| ->]; [now left | right; now left].
    + lra.
    + intros x [<-|Hx]; [lra | now apply Hall].
Qed.

Lemma np_min_spec (l : list Q) (m : Q) :
  np_min l = Some m -> In m l /\ forall x, In x l -> m <= x.
Proof.
  destruct l as [|a l]; [discriminate|]. simpl. intros H; inversion H; subst m; clear H.
  destruct (fold_Qmin_spec l a) as (Hin & Hle & Hall). split.
  - destruct Hin as [->|Hin]; [now left | now right].
  - intros x [<-|Hx]; [assumption | now apply Hall].
Qed.

Lemma np_max_spec (l : list Q) (m : Q) :
  np_max l = Some m -> In m l /\ forall x, In x l -> x <= m.
Proof.
  destruct l as [|a l]; [discriminate|]. simpl. intros H; inversion H; subst m; clear H.
  destruct (fold_Qmax_spec l a) as (Hin & Hle & Hall). split.
  - destruct Hin as [->|Hin]; [now left | now right].
  - intros x [<-|Hx]; [assumption | now apply Hall].
Qed.

Lemma np_min_some (l : list Q) : l <> [] -> exists m, np_min l = Some m.
Proof. destruct l; [congruence | simpl; eauto]. Qed.

Lemma np_max_some (l : list Q) : l <> [] -> exists m, np_max l = Some m.
Proof. destruct l; [congruence | simpl; eauto]. Qed.

End MinMaxFacts.
Section StackGeometry.
Import Num Pmg Surfaces.
Local Open Scope Q_scope.

Variable norm : vec3 -> Q.

Lemma map_vz_scale_z (a : Q) (l : list vec3) :
  map vz (map (scale_z a) l) = map (fun z => z * a) (map vz l).
Proof. rewrite !map_map. reflexivity. Qed.

Lemma In_scaled (a m : Q) (zs : list Q) :
  In m (map (fun z => z * a) zs) -> exists z, In z zs /\ m = z * a.
Proof. intros H. apply in_map_iff in H as (z & <- & Hz). eauto. Qed.

Lemma lookup_In {A : Type} (l : list A) (i : nat) (x : A) : l !! i = Some x -> In x l.
Proof. intros H. apply list_elem_of_In. eapply list_elem_of_lookup_2; eauto. Qed.

(** The geometry of the stacked structure, with the species of its rows:
    the first rows are the substrate's, the others the film's. *)
Lemma stacked_structure_geometry (strained_sub strained_film : Structure)
  (vacuum d : Q) :
  sites strained_sub <> [] -> sites strained_film <> [] ->
  0 < vacuum -> 0 < d ->
  0 <= norm (row_c (lattice strained_sub)) ->
  0 <= norm (row_c (lattice strained_film)) ->
  exists s h,
    stacked_structure norm strained_sub strained_film vacuum d = Some (s, h)
    /\ 0 < h /\ h < 1
    /\ (forall i x, sites s !! i = Some x -> (i < num_sites strained_sub)%nat ->
          (0 <= site_z x /\ site_z x < h)
          /\ In (species x) (map species (sites strained_sub)))
    /\ (forall i x, sites s !! i = Some x -> (num_sites strained_sub <= i)%nat ->
          (h < site_z x /\ site_z x < 1)
          /\ In (species x) (map species (sites strained_film))).
Proof.
  intros HS HF Hvac Hd Hls Hlf.
  unfold stacked_structure.
  set (zS := map vz (map frac_coords (sites strained_sub))).
  set (zF := map vz (map frac_coords (sites strained_film))).
  set (ls := norm (row_c (lattice strained_sub))) in *.
  set (lf := norm (row_c (lattice strained_film))) in *.
  assert (HzS : zS <> []).
  { subst zS. destruct (sites strained_sub); [congruence | discriminate]. }
  assert (HzF : zF <> []).
  { subst zF. destruct (sites strained_film); [congruence | discriminate]. }
  destruct (np_min_some zS HzS) as [minS EminS].
  destruct (np_max_some zS HzS) as [maxS EmaxS].
  destruct (np_min_some zF HzF) as [minF EminF].
  destruct (np_max_some zF HzF) as [maxF EmaxF].
  rewrite EminS, EmaxS, EminF, EmaxF. simpl.
  destruct (np_min_spec _ _ EminS) as [IminS LminS].
  destruct (np_max_spec _ _ EmaxS) as [ImaxS LmaxS].
  destruct (np_min_spec _ _ EminF) as [IminF LminF].
  destruct (np_max_spec _ _ EmaxF) as [ImaxF LmaxF].
  set (c := (maxS - minS) * ls + (maxF - minF) * lf + vacuum + d).
  pose proof (LminS _ ImaxS) as HSext. pose proof (LminF _ ImaxF) as HFext.
  assert (HP : 0 <= (maxS - minS) * ls) by (apply Qmult_le_0_compat; lra).
  assert (HR : 0 <= (maxF - minF) * lf) by (apply Qmult_le_0_compat; lra).
  assert (Hc : 0 < c) by (unfold c; lra).
  assert (Hu : 0 < / c) by (now apply Qinv_lt_0_compat).
  assert (Hcu : c * / c == 1) by (apply Qmult_inv_r; lra).
  unfold Qdiv. set (u := / c) in *.
  assert (Ha : 0 <= ls * u) by (apply Qmult_le_0_compat; lra).
  assert (Hb : 0 <= lf * u) by (apply Qmult_le_0_compat; lra).
  assert (Hvu : 0 < vacuum * u) by (apply Qmult_lt_0_compat; lra).
  assert (Hdu : 0 < d * u) by (apply Qmult_lt_0_compat; lra).
  rewrite !map_vz_scale_z. fold zS zF.
  set (zS1 := map (fun z => z * (ls * u)) zS).
  set (zF1 := map (fun z => z * (lf * u)) zF).
  assert (HzS1 : zS1 <> []).
  { subst zS1. destruct zS; [congruence | discriminate]. }
  assert (HzF1 : zF1 <> []).
  { subst zF1. destruct zF; [congruence | discriminate]. }
  destruct (np_max_some zS1 HzS1) as [max_sub1 Emax1].
  destruct (np_min_some zS1 HzS1) as [min_sub1 Emin1].
  destruct (np_min_some zF1 HzF1) as [min_film1 EminF1].
  rewrite Emax1, Emin1, EminF1. simpl.
  destruct (np_max_spec _ _ Emax1) as [Imax1 Lmax1].
  destruct (np_min_spec _ _ Emin1) as [Imin1 Lmin1].
  destruct (np_min_spec _ _ EminF1) as [IminF1 LminF1].
  destruct (In_scaled _ _ _ Imax1) as (zp & Hzp & Ezp).
  destruct (In_scaled _ _ _ Imin1) as (zq & Hzq & Ezq).
  destruct (In_scaled _ _ _ IminF1) as (zr & Hzr & Ezr).
  assert (Hsize : 0 <= (maxS - minS - (zp - zq)) * (ls * u)).
  { apply Qmult_le_0_compat; [|assumption].
    pose proof (LmaxS _ Hzp). pose proof (LminS _ Hzq). lra. }
  pose proof (Lmin1 _ Imax1) as Hsize0.
  assert (Hone : ((maxS - minS) * ls + (maxF - minF) * lf + vacuum + d) * u == 1)
    by exact Hcu.
  eexists _, _. split; [reflexivity|].
  clearbody u c ls lf. subst max_sub1 min_sub1 min_film1.
  assert (HRu : 0 <= (maxF - minF) * (lf * u)) by (apply Qmult_le_0_compat; lra).
  split; [lra|]. split; [lra|]. split.
  - intros i x Hx Hi. unfold make_structure in Hx; simpl in Hx.
    apply lookup_zip_with_Some in Hx as (e & v & -> & He & Hv).
    rewrite lookup_app_l in Hv by (rewrite !length_map; exact Hi).
    apply lookup_map_Some in Hv as (v1 & Hv1 & ->).
    apply lookup_map_Some in Hv1 as (v0 & Hv0 & ->).
    apply lookup_map_Some in Hv0 as (p & Hp & ->).
    split;
      [|rewrite lookup_app_l in He by (rewrite length_map; exact Hi);
        eapply lookup_In; exact He].
    assert (Hz : In (vz (frac_coords p)) zS).
    { unfold zS. rewrite map_map. apply in_map_iff. exists p. split; [reflexivity|].
      eapply lookup_In; eauto. }
    set (z := vz (frac_coords p)) in *.
    assert (Hz1 : In (z * (ls * u)) zS1) by (unfold zS1; now apply (in_map (fun t => t * (ls * u)))).
    pose proof (Lmin1 _ Hz1) as B1. pose proof (Lmax1 _ Hz1) as B2.
    unfold site_z; simpl. fold z.
    pose proof (mod1_id (z * (ls * u) + - (zq * (ls * u)))) as Hm.
    assert (H0 : 0 <= z * (ls * u) + - (zq * (ls * u))) by lra.
    assert (H1 : z * (ls * u) + - (zq * (ls * u)) < 1) by lra.
    specialize (Hm H0 H1). lra.
  - intros i x Hx Hi. unfold make_structure in Hx; simpl in Hx.
    apply lookup_zip_with_Some in Hx as (e & v & -> & He & Hv).
    rewrite lookup_app_r in Hv by (rewrite !length_map; exact Hi).
    apply lookup_map_Some in Hv as (v2 & Hv2 & ->).
    apply lookup_map_Some in Hv2 as (v1 & Hv1 & ->).
    apply lookup_map_Some in Hv1 as (v0 & Hv0 & ->).
    apply lookup_map_Some in Hv0 as (p & Hp & ->).
    split;
      [|rewrite lookup_app_r in He by (rewrite length_map; exact Hi);
        eapply lookup_In; exact He].
    assert (Hz : In (vz (frac_coords p)) zF).
    { unfold zF. rewrite map_map. apply in_map_iff. exists p. split; [reflexivity|].
      eapply lookup_In; eauto. }
    set (z := vz (frac_coords p)) in *.
    assert (Hz1 : In (z * (lf * u)) zF1) by (unfold zF1; now apply (in_map (fun t => t * (lf * u)))).
    pose proof (LminF1 _ Hz1) as B1.
    assert (Hext : 0 <= (maxF - minF - (z - zr)) * (lf * u)).
    { apply Qmult_le_0_compat; [|assumption].
      pose proof (LmaxF _ Hz). pose proof (LminF _ Hzr). lra. }
    unfold site_z; simpl. fold z.
    set (raw := z * (lf * u) + - (zr * (lf * u)) + (zp * (ls * u) - zq * (ls * u) + d * u)).
    pose proof (mod1_id raw) as Hm.
    assert (H0 : 0 <= raw) by (unfold raw; lra).
    assert (H1 : raw < 1) by (unfold raw; lra).
    specialize (Hm H0 H1). unfold raw in *. lra.
Qed.

(** X18.  Stacking two non-empty slabs with a positive vacuum and a
    positive interfacial distance returns a structure in which every
    substrate atom lies strictly below [interface_height] and every film
    atom strictly above it, inside the unit cell, so the wrap into the unit
    cell of line 516 moves no atom across the interface. *)
Theorem stacked_structure_separates (strained_sub strained_film : Structure)
  (vacuum d : Q) :
  sites strained_sub <> [] -> sites strained_film <> [] ->
  0 < vacuum -> 0 < d ->
  0 <= norm (row_c (lattice strained_sub)) ->
  0 <= norm (row_c (lattice strained_film)) ->
  exists s h,
    stacked_structure norm strained_sub strained_film vacuum d = Some (s, h)
    /\ 0 < h /\ h < 1
    /\ (forall i x, sites s !! i = Some x -> (i < num_sites strained_sub)%nat ->
          0 <= site_z x /\ site_z x < h)
    /\ (forall i x, sites s !! i = Some x -> (num_sites strained_sub <= i)%nat ->
          h < site_z x /\ site_z x < 1).
Proof.
  intros HS HF Hvac Hd Hls Hlf.
  destruct (stacked_structure_geometry strained_sub strained_film vacuum d
              HS HF Hvac Hd Hls Hlf) as (s & h & E & H0 & H1 & Hsub & Hfilm).
  exists s, h. split; [exact E|]. split; [exact H0|]. split; [exact H1|]. split.
  - intros i x Hx Hi. exact (proj1 (Hsub i x Hx Hi)).
  - intros i x Hx Hi. exact (proj1 (Hfilm i x Hx Hi)).
Qed.

End StackGeometry.

Section StackGeometryWitness.
Import Num Pmg Surfaces.
Local Open Scope Q_scope.

Lemma stacked_structure_separates_witness :
  exists s h,
    stacked_structure Examples2.norm_z Examples2.sub_slab Examples2.film_slab 1 1 = Some (s, h)
    /\ 0 < h /\ h < 1
    /\ (forall i x, sites s !! i = Some x -> (i < num_sites Examples2.sub_slab)%nat ->
          0 <= site_z x /\ site_z x < h)
    /\ (forall i x, sites s !! i = Some x -> (num_sites Examples2.sub_slab <= i)%nat ->
          h < site_z x /\ site_z x < 1).
Proof.
  apply (stacked_structure_separates Examples2.norm_z Examples2.sub_slab Examples2.film_slab 1 1);
    [discriminate | discriminate | reflexivity | reflexivity
    | vm_compute; discriminate | vm_compute; discriminate].
Defined.

End StackGeometryWitness.
Section ShiftFilmFrame.
Import Num Pmg Surfaces.
Local Open Scope Q_scope.

Lemma film_mask_outside (self : Interface) (x : PeriodicSite) :
  site_z x <= interface_height self \/ 99 # 100 <= site_z x ->
  film_mask self x = false.
Proof.
  intros [H|H]; unfold film_mask.
  - apply andb_false_intro1. now apply Qltb_ge.
  - apply andb_false_intro2. now apply Qltb_ge.
Qed.

(** X19.  Whatever the arguments, and whether it raises or not,
    [shift_film] never touches the substrate view [sub_part], keeps the
    number of rows of [interface], and leaves in place every row of
    [interface] that is at or below [interface_height] or at or above
    0.99. *)
Theorem shift_film_frame (self : Interface) (sigma : gmap loc (list PeriodicSite))
  (shift : vec3) (fractional inplace : bool) :
  ref_sites (sub_part self) <> ref_sites (interface self) ->
  ref_sites (sub_part self) <> ref_sites (film_part self) ->
  ref_sites (interface self) <> ref_sites (film_part self) ->
  let r := shift_film shift fractional inplace self sigma in
  rows_of (res_store r) (sub_part self) = rows_of sigma (sub_part self)
  /\ length (rows_of (res_store r) (interface self))
     = length (rows_of sigma (interface self))
  /\ forall i x,
       rows_of sigma (interface self) !! i = Some x ->
       site_z x <= interface_height self \/ 99 # 100 <= site_z x ->
       rows_of (res_store r) (interface self) !! i = Some x.
Proof.
  intros Hsi Hsf Hif r. subst r.
  destruct (frac_shift_of self shift fractional) as [f|e] eqn:Hfs.
  - split; [|split].
    + unfold shift_film. rewrite Hfs. destruct inplace; simpl.
      * rewrite !rows_of_translate_other by congruence. reflexivity.
      * apply rows_of_translate_other. simpl. congruence.
    + rewrite (shift_film_interface_rows self sigma shift f fractional inplace Hif Hfs).
      apply length_map.
    + intros i x Hx Hout.
      rewrite (shift_film_interface_rows self sigma shift f fractional inplace Hif Hfs).
      apply lookup_map_Some. exists x. split; [assumption|].
      now rewrite film_mask_outside.
  - unfold shift_film. rewrite Hfs. simpl. auto.
Qed.

Lemma shift_film_frame_witness :
  let r := shift_film (1 # 10, 0, 0) true true Examples.self_2 Examples.store_2 in
  rows_of (res_store r) (sub_part Examples.self_2)
  = rows_of Examples.store_2 (sub_part Examples.self_2)
  /\ length (rows_of (res_store r) (interface Examples.self_2))
     = length (rows_of Examples.store_2 (interface Examples.self_2))
  /\ forall i x,
       rows_of Examples.store_2 (interface Examples.self_2) !! i = Some x ->
       site_z x <= interface_height Examples.self_2 \/ 99 # 100 <= site_z x ->
       rows_of (res_store r) (interface Examples.self_2) !! i = Some x.
Proof.
  apply (shift_film_frame Examples.self_2 Examples.store_2 (1 # 10, 0, 0) true true);
    simpl; discriminate.
Defined.

End ShiftFilmFrame.

Section Recenter.
Import Num Pmg Surfaces.
Local Open Scope Q_scope.

Lemma mod1_shift_up (t : Q) : -1 <= t -> t < 0 -> mod1 t == t + 1.
Proof.
  intros H0 H1. apply (mod1_unique t (t + 1) (-1)); try lra.
  change (inject_Z (-1)) with (-1). lra.
Qed.

Lemma mod1_shift_down (t : Q) : 1 <= t -> t < 2 -> mod1 t == t - 1.
Proof.
  intros H0 H1. apply (mod1_unique t (t - 1) 1); try lra.
  change (inject_Z 1) with 1. lra.
Qed.

(** X20.  Centring (lines 555-560) sets [interface_height] to 1/2 and
    moves the row at height [z] to [z + 1/2 - h] modulo 1.  A row ends up
    below 1/2 exactly when [h - 1/2 <= z < h] or [h + 1/2 <= z]: a
    substrate atom lower than [h - 1/2] is wrapped to the film side. *)
Theorem recenter_side (h : Q) (s : Structure) (i : nat) (x : PeriodicSite) :
  0 < h -> h < 1 ->
  sites s !! i = Some x ->
  0 <= site_z x -> site_z x < 1 ->
  snd (recenter true h s) = 1 # 2
  /\ exists y,
       sites (fst (recenter true h s)) !! i = Some y
       /\ (site_z y < 1 # 2 <->
           (h - (1 # 2) <= site_z x /\ site_z x < h) \/ h + (1 # 2) <= site_z x).
Proof.
  intros Hh0 Hh1 Hx Hz0 Hz1. split; [reflexivity|].
  exists (translate_site (0, 0, (1 # 2) - h) x). split.
  - unfold recenter, translate_sites, num_sites; simpl.
    rewrite translate_rows_all. apply lookup_map_Some. eauto.
  - unfold site_z in *; simpl. set (z := vz (frac_coords x)) in *.
    destruct (Qlt_le_dec (z + ((1 # 2) - h)) 0) as [Hneg|Hnn].
    + pose proof (mod1_shift_up (z + ((1 # 2) - h))) as Hm.
      assert (H1 : -1 <= z + ((1 # 2) - h)) by lra. specialize (Hm H1 Hneg).
      split; [intros H; lra | intros [[Ha Hb]|Ha]; lra].
    + destruct (Qlt_le_dec (z + ((1 # 2) - h)) 1) as [Hlt|Hge].
      * pose proof (mod1_id (z + ((1 # 2) - h)) Hnn Hlt) as Hm.
        split; [intros H; left; split; lra | intros [[Ha Hb]|Ha]; lra].
      * pose proof (mod1_shift_down (z + ((1 # 2) - h)) Hge) as Hm.
        assert (H2 : z + ((1 # 2) - h) < 2) by lra. specialize (Hm H2).
        split; [intros H; right; lra | intros _; lra].
Qed.

Lemma recenter_side_witness :
  snd (recenter true (4 # 5) (st_interface Examples.two_site_stack)) = 1 # 2
  /\ exists y,
       sites (fst (recenter true (4 # 5) (st_interface Examples.two_site_stack))) !! 0%nat = Some y
       /\ (site_z y < 1 # 2 <->
           ((4 # 5) - (1 # 2) <= site_z Examples.si_site
            /\ site_z Examples.si_site < 4 # 5)
           \/ (4 # 5) + (1 # 2) <= site_z Examples.si_site).
Proof.
  apply (recenter_side (4 # 5) (st_interface Examples.two_site_stack) 0%nat
           Examples.si_site);
    [reflexivity | reflexivity | reflexivity | vm_compute; discriminate | reflexivity].
Defined.

End Recenter.

Section ScoreCount.
Import Num Pmg Landscape.
Local Open Scope Q_scope.

Variable sqrt_nonneg : Q -> Q.
Variable pi : Q.

Lemma pair_of_is_Some (coords : list vec3) (r : list Q) (a b : Q) (s f : nat) :
  is_Some (pair_of coords r a b (s, f))
  <-> (s < length coords)%nat /\ (f < length coords)%nat
      /\ (s < length r)%nat /\ (f < length r)%nat.
Proof.
  unfold pair_of; simpl. rewrite <- !lookup_lt_is_Some.
  destruct (coords !! s), (coords !! f), (r !! s), (r !! f); simpl;
    split; try (intros H; repeat split; eauto; fail);
    try (intros [x Hx]; discriminate Hx);
    intros (H1 & H2 & H3 & H4);
    try (destruct H1 as [? H1]; discriminate H1);
    try (destruct H2 as [? H2]; discriminate H2);
    try (destruct H3 as [? H3]; discriminate H3);
    try (destruct H4 as [? H4]; discriminate H4).
Qed.

Lemma index_pairs_length (si fi : list nat) :
  length (index_pairs si fi) = (length si * length fi)%nat.
Proof.
  unfold index_pairs. induction si as [|s si IH]; [reflexivity|].
  csimpl. rewrite length_app, IH. f_equal.
  clear. induction fi as [|f fi IH]; [reflexivity|]. csimpl. now rewrite IH.
Qed.

Lemma elem_index_pairs (si fi : list nat) (s f : nat) :
  (s, f) ∈ index_pairs si fi <-> s ∈ si /\ f ∈ fi.
Proof.
  unfold index_pairs. rewrite list_elem_of_bind. split.
  - intros (s' & H & Hs). apply list_elem_of_bind in H as (f' & H & Hf).
    apply list_elem_of_singleton in H. inversion H; subst. auto.
  - intros [Hs Hf]. exists s. split; [|assumption].
    apply list_elem_of_bind. exists f. split; [|assumption].
    now apply list_elem_of_singleton.
Qed.

Lemma image_rows_length (pairs : list pair_row) :
  length (image_rows pairs) = (9 * length pairs)%nat.
Proof.
  unfold image_rows, image_offsets. csimpl.
  rewrite !length_app, !length_fmap. simpl. lia.
Qed.

Lemma params_of_rows_shape (M : Lattice) (rows : list pair_row) :
  match params_of_rows sqrt_nonneg pi M rows with
  | Some gs => length gs = length rows /\ rows <> []
  | None => rows = []
  end.
Proof.
  destruct rows as [|p rows]; [reflexivity|].
  unfold params_of_rows; simpl. rewrite length_map. split; [reflexivity | discriminate].
Qed.

(** X21.  [_get_score_function_params] returns exactly when both index
    arrays are non-empty and every index is a row of [coords] and of [r];
    it then returns nine Gaussians for every pair of a substrate index and
    a film index.  Otherwise it raises (an index error, or the error of
    [scales.max()] on an empty array). *)
Theorem score_params_shape (coords : list vec3) (M : Lattice) (si fi : list nat)
  (r : list Q) (sub_z_shift film_z_shift : Q) :
  match get_score_function_params sqrt_nonneg pi coords M si fi r sub_z_shift film_z_shift with
  | Some gs =>
      length gs = (9 * (length si * length fi))%nat
      /\ si <> [] /\ fi <> []
      /\ Forall (fun i => (i < length coords)%nat /\ (i < length r)%nat) (si ++ fi)
  | None =>
      si = [] \/ fi = []
      \/ Exists (fun i => (length coords <= i)%nat \/ (length r <= i)%nat) (si ++ fi)
  end.
Proof.
  unfold get_score_function_params.
  destruct (mapM (pair_of coords r sub_z_shift film_z_shift) (index_pairs si fi))
    as [pairs|] eqn:Em; simpl.
  - pose proof (length_mapM _ _ _ Em) as Hlen. rewrite index_pairs_length in Hlen.
    pose proof (params_of_rows_shape M (image_rows pairs)) as Hp.
    destruct (params_of_rows sqrt_nonneg pi M (image_rows pairs)) as [gs|].
    + destruct Hp as [Hg Hne]. rewrite image_rows_length in Hg.
      assert (Hpos : (length pairs <> 0)%nat).
      { intros H0. apply Hne. destruct pairs; [reflexivity | discriminate]. }
      assert (Hsi : si <> []) by (intros ->; simpl in Hlen; lia).
      assert (Hfi : fi <> []) by (intros ->; rewrite Nat.mul_0_r in Hlen; lia).
      split; [lia|]. split; [assumption|]. split; [assumption|].
      assert (Hall : Forall (is_Some ∘ pair_of coords r sub_z_shift film_z_shift)
                            (index_pairs si fi)).
      { apply mapM_is_Some_1. rewrite Em. eauto. }
      rewrite Forall_forall in Hall. apply Forall_forall. intros i Hi.
      apply elem_of_app in Hi as [Hi|Hi].
      * destruct fi as [|f0 fi']; [congruence|].
        assert (Hin : (i, f0) ∈ index_pairs si (f0 :: fi')).
        { apply elem_index_pairs. split; [assumption | left]. }
        apply Hall in Hin. apply pair_of_is_Some in Hin. tauto.
      * destruct si as [|s0 si']; [congruence|].
        assert (Hin : (s0, i) ∈ index_pairs (s0 :: si') fi).
        { apply elem_index_pairs. split; [left | assumption]. }
        apply Hall in Hin. apply pair_of_is_Some in Hin. tauto.
    + assert (Hz : length pairs = 0%nat).
      { pose proof (image_rows_length pairs) as Hl. rewrite Hp in Hl. simpl in Hl. lia. }
      rewrite Hz in Hlen. destruct si; [now left|]. destruct fi; [right; now left|].
      simpl in Hlen. lia.
  - right. right. apply mapM_None_1 in Em. apply Exists_exists in Em as ([s f] & Hin & Hnone).
    apply elem_index_pairs in Hin as [Hs Hf].
    assert (Hno : ~ ((s < length coords)%nat /\ (f < length coords)%nat
                     /\ (s < length r)%nat /\ (f < length r)%nat)).
    { intros H. apply (pair_of_is_Some coords r sub_z_shift film_z_shift) in H.
      rewrite Hnone in H. destruct H; discriminate. }
    apply Exists_exists.
    destruct (le_lt_dec (length coords) s) as [H1|H1];
      [exists s; split; [apply elem_of_app; now left | now left]|].
    destruct (le_lt_dec (length r) s) as [H2|H2];
      [exists s; split; [apply elem_of_app; now left | now right]|].
    destruct (le_lt_dec (length coords) f) as [H3|H3];
      [exists f; split; [apply elem_of_app; now right | now left]|].
    destruct (le_lt_dec (length r) f) as [H4|H4];
      [exists f; split; [apply elem_of_app; now right | now right]|].
    exfalso. apply Hno. auto.
Qed.

End ScoreCount.

Section Wrap01.
Import Num Landscape.
Local Open Scope Q_scope.

(** X22.  On two coordinates inside the unit cell the two-line wrap of
    lines 808-811 ([s[s < 0] += 1; s[s > 1] -= 1]) is the difference
    modulo 1. *)
Theorem wrap01_is_mod1 (a b : Q) :
  0 <= a -> a < 1 -> 0 <= b -> b < 1 ->
  wrap01 (a - b) == mod1 (a - b).
Proof.
  intros Ha0 Ha1 Hb0 Hb1. unfold wrap01.
  destruct (Qltb (a - b) 0) eqn:E.
  - apply Qltb_lt in E.
    destruct (Qltb 1 (a - b + 1)) eqn:E1; [apply Qltb_lt in E1; lra|].
    symmetry. apply (mod1_unique (a - b) (a - b + 1) (-1)); try lra.
    change (inject_Z (-1)) with (-1). lra.
  - apply Qltb_ge in E.
    destruct (Qltb 1 (a - b)) eqn:E1; [apply Qltb_lt in E1; lra|].
    symmetry. apply mod1_id; lra.
Qed.

Lemma wrap01_is_mod1_witness :
  wrap01 ((1 # 5) - (7 # 10)) == mod1 ((1 # 5) - (7 # 10)).
Proof.
  apply (wrap01_is_mod1 (1 # 5) (7 # 10));
    [vm_compute; discriminate | reflexivity | vm_compute; discriminate | reflexivity].
Defined.

End Wrap01.

(* ===================================================================== *)
(** * Part XVI: scan geometry, radii and the ionic matcher *)
(* ===================================================================== *)

Section GetRatioFacts.
Import Num Landscape ScanSetup.
Local Open Scope Q_scope.

Variable V : Type.
Variable norm : V -> Q.

(** X23.  For two vectors of positive length [_get_ratio] returns two
    finite factors, both at least 1, that balance the lengths: the first
    factor times the length of [a] is the second times the length of
    [b]. *)
Theorem get_ratio_balances (a b : V) :
  0 < norm a -> 0 < norm b ->
  exists ra rb,
    get_ratio V norm a b = [Fin ra; Fin rb]
    /\ ra * norm a == rb * norm b
    /\ 1 <= ra /\ 1 <= rb.
Proof.
  intros Ha Hb. unfold get_ratio, nf_div, Qmax', Qmin'. simpl.
  destruct (Qltb (norm b) (norm a)) eqn:E.
  - apply Qltb_lt in E.
    assert (E' : Qltb (norm a) (norm b) = false) by (apply Qltb_ge; lra).
    rewrite E'.
    assert (Hz : Qeq_bool (norm b) 0 = false).
    { destruct (Qeq_bool (norm b) 0) eqn:Ez; [|reflexivity].
      apply Qeq_bool_eq in Ez. lra. }
    rewrite Hz. simpl. exists 1, (norm a / norm b). split; [reflexivity|].
    split; [field; lra|]. split; [lra|].
    apply Qle_shift_div_l; lra.
  - apply Qltb_ge in E.
    assert (Hz : Qeq_bool (norm a) 0 = false).
    { destruct (Qeq_bool (norm a) 0) eqn:Ez; [|reflexivity].
      apply Qeq_bool_eq in Ez. lra. }
    destruct (Qltb (norm a) (norm b)) eqn:E'.
    + rewrite Hz. simpl. exists (norm b / norm a), 1. split; [reflexivity|].
      split; [field; lra|]. split; [|lra].
      apply Qle_shift_div_l; lra.
    + apply Qltb_ge in E'. rewrite Hz. simpl.
      exists (norm a / norm a), 1. split; [reflexivity|].
      split; [transitivity (norm a); [field; lra | lra]|]. split; [|lra].
      apply Qle_shift_div_l; lra.
Qed.

End GetRatioFacts.

Section GetRatioWitness.
Import Num Landscape ScanSetup.
Local Open Scope Q_scope.

Lemma get_ratio_balances_witness :
  exists ra rb,
    get_ratio vec3 Examples2.norm_z (0, 0, 2) (0, 0, -3) = [Fin ra; Fin rb]
    /\ ra * Examples2.norm_z (0, 0, 2) == rb * Examples2.norm_z (0, 0, -3)
    /\ 1 <= ra /\ 1 <= rb.
Proof.
  apply (get_ratio_balances vec3 Examples2.norm_z (0, 0, 2) (0, 0, -3)); reflexivity.
Defined.

End GetRatioWitness.

Section GetRadiiFacts.
Import Num Landscape ScanSetup.

Variable R : Type.
Variable metallic_radius : String.string -> R.
Variable average_ionic_radius : String.string -> R.
Variable covalent_radius : String.string -> R.
Variable X : String.string -> npfloat.

Lemma lookup_comprehension (f : String.string -> R) (species : list String.string)
  (s : String.string) :
  s ∈ species ->
  (list_to_map (map (fun s => (s, f s)) species) : gmap String.string R) !! s = Some (f s).
Proof.
  induction species as [|t species IH]; intros Hs.
  - inversion Hs.
  - simpl. destruct (decide (t = s)) as [->|Hne].
    + apply lookup_insert_eq.
    + rewrite lookup_insert_ne by assumption. apply IH.
      inversion Hs; subst; [congruence | assumption].
Qed.

(** X24.  The radius [_get_radii] returns for a species of the film is
    chosen by the film alone: metallic when every film species is in the
    metallic list, else ionic when two film species differ by at least 1.7
    in electronegativity, else covalent.  For a species shared with the
    substrate the entry the substrate computed is overwritten. *)
Theorem get_radii_film_wins (sub_species film_species : list String.string)
  (s : String.string) :
  s ∈ film_species ->
  get_radii R metallic_radius average_ionic_radius covalent_radius X
            sub_species film_species !! s
  = Some (if forallb (fun s => np_isin s metallic_elements) film_species
          then metallic_radius s
          else if existsb at_least_17 (X_diff X film_species)
               then average_ionic_radius s
               else covalent_radius s).
Proof.
  intros Hs. unfold get_radii. apply lookup_union_Some_l.
  unfold species_dict.
  destruct (forallb (fun s => np_isin s metallic_elements) film_species);
    [|destruct (existsb at_least_17 (X_diff X film_species))];
    now apply lookup_comprehension.
Qed.

End GetRadiiFacts.

Section GetRadiiWitness.
Import Num Landscape ScanSetup.

Lemma get_radii_film_wins_witness :
  get_radii (option Q) Examples3.metallic_radius Examples3.average_ionic_radius
            Examples3.covalent_radius Examples3.X
            Examples3.aluminium Examples3.aluminium_arsenide !! Examples3.Al
  = Some (if forallb (fun s => np_isin s metallic_elements) Examples3.aluminium_arsenide
          then Examples3.metallic_radius Examples3.Al
          else if existsb at_least_17 (X_diff Examples3.X Examples3.aluminium_arsenide)
               then Examples3.average_ionic_radius Examples3.Al
               else Examples3.covalent_radius Examples3.Al).
Proof.
  apply (get_radii_film_wins (option Q) Examples3.metallic_radius
           Examples3.average_ionic_radius Examples3.covalent_radius Examples3.X
           Examples3.aluminium Examples3.aluminium_arsenide Examples3.Al).
  apply list_elem_of_here.
Defined.

End GetRadiiWitness.

Section MatcherFacts.
Import Num Pmg SurfaceMatch.
Local Open Scope Q_scope.

(** X25.  After the sign correction of [IonicSurfaceMatcher.__init__] the
    stored volume is non-negative and is still the determinant of the
    stored matrix. *)
Theorem matcher_volume_consistent (matrix : Lattice) :
  0 <= snd (matcher_matrix matrix)
  /\ det (fst (matcher_matrix matrix)) == snd (matcher_matrix matrix).
Proof.
  unfold matcher_matrix.
  destruct (Qltb (det matrix) 0) eqn:E; simpl.
  - apply Qltb_lt in E. split; [lra|].
    destruct matrix as [[[a1 a2] a3] [[b1 b2] b3] [[c1 c2] c3]].
    unfold det, vdot, vcross, vscale, vx, vy, vz; simpl. ring.
  - apply Qltb_ge in E. split; [assumption | reflexivity].
Qed.

End MatcherFacts.

(* ===================================================================== *)
(** * Part XVII: the views of an interface stacked without refinement *)
(* ===================================================================== *)

Section StackPartition.
Import Num Pmg Surfaces.
Local Open Scope Q_scope.

Variable norm : vec3 -> Q.
Variable get_reduced_structure : Structure -> Structure.
Variable get_conventional_standard_structure : Structure -> Structure.
Variable get_primitive_structure : Structure -> Structure.













End StackPartition.

Section StackPartitionWitness.
Import Num Pmg Surfaces.
Local Open Scope Q_scope.


End StackPartitionWitness.
